(** * Content Hoarder: a shallow embedding of [src/index.ts]

    The plugin keeps two collections (content pieces and articles) in a
    host-supplied key/value store.  Every record lives under its own key
    and every collection has an ordered list of ids, the index, under a
    key of the same name space.  The embedding follows the source
    function by function: the asynchronous handlers become programs of a
    small state-and-exception monad over the store, and everything the
    source obtains from outside (random ids, the clock, the network, the
    language model, storage rejections) is read from an environment
    indexed by the number of external events seen so far. *)

From Stdlib Require Import ZArith String Ascii HexString List Lia Sorted Permutation.
From stdpp Require Import base gmap strings list fin_maps.

Local Open Scope string_scope.
Set Warnings "-register-all".

(* ===================================================================== *)
(** ** Types *)
(* ===================================================================== *)

Inductive InspirationType := single | feed.

Module ContentPiece.
Record t := mk {
  id : string;
  title : string;
  source : string;
  content : string;
  summary : option string;
  tags : list string;
  addedAt : string;
  inspirationType : InspirationType
}.
End ContentPiece.

Module Article.
Record t := mk {
  id : string;
  title : string;
  content : string;
  sourceContentIds : list string;
  instructions : string;
  version : Z;
  createdAt : string;
  updatedAt : string
}.
End Article.

(** What the program writes into the store: a content piece, an article
    or an index (an array of ids).  All three are objects, hence truthy:
    [(x as T) || null] returns them unchanged. *)
Inductive value :=
| VPiece (c : ContentPiece.t)
| VArticle (a : Article.t)
| VIndex (ids : list string).

(** A thrown JavaScript value: an [Error] instance with its message, or
    anything else. *)
Inductive thrown :=
| ErrorExn (message : string)
| NonError.

(** A settled promise of the outside world. *)
Inductive settled (A : Type) :=
| Fulfils (a : A)
| Rejects (e : thrown).
Arguments Fulfils {A} a.
Arguments Rejects {A} e.

(** The outcome of a handler.  [Miscast] marks a run in which a value is
    used at a TypeScript type it does not have (an [as] cast that the
    stored data does not honour, or a required input field that is
    absent) and in which JavaScript carries on with [undefined] fields;
    the embedding does not follow such a run any further. *)
Inductive result (A : Type) :=
| Ok (a : A)
| Throws (e : thrown)
| Miscast.
Arguments Ok {A} a.
Arguments Throws {A} e.
Arguments Miscast {A}.

(** JSON-like payloads of the result envelope ([Record<string, unknown>]). *)
Inductive json :=
| JStr (s : string)
| JNum (n : Z)
| JArr (l : list json)
| JObj (fields : list (string * json)).

Inductive ResponseMode := template | passthrough.

Record ActionResult := {
  responseMode : ResponseMode;
  agentData : option (list (string * json));
  userContent : option (list (string * json))
}.

(** [ActionInput] is [Record<string, unknown>]; the handlers read these
    fields through casts.  An absent field is [None]. *)
Record ActionInput := {
  url : option string;
  tags : option (list string);
  limit : option Z;
  offset : option Z;
  contentId : option string;
  contentIds : option (list string);
  instructions : option string;
  title : option string;
  articleId : option string;
  additionalContentIds : option (list string)
}.

Definition emptyInput : ActionInput :=
  {| url := None; tags := None; limit := None; offset := None;
     contentId := None; contentIds := None; instructions := None;
     title := None; articleId := None; additionalContentIds := None |}.

(** The storage proxy is a capability handed over by the host; the only
    store it gives access to is the one of the world below. *)
Inductive StorageProxy := gatewayStorage.

(** [ConfigContext.get]. *)
Record ConfigContext := { config_get : string -> option string }.

Record InvokeInput := {
  action : string;
  input : ActionInput;
  storage : option StorageProxy;
  config : option ConfigContext
}.

(** An item of a parsed feed (rss-parser), every field optional. *)
Module RssItem.
Record t := mk {
  title : option string;
  contentSnippet : option string;
  content : option string;
  summary : option string;
  link : option string
}.
End RssItem.

(** The extracted form of a feed item ([fetchFeedContent]). *)
Module FeedEntry.
Record t := mk { title : string; content : string; link : string }.
End FeedEntry.

(** A fetched and parsed HTML page, as far as [fetchSingleContent]
    queries it: the [content] attribute of the OpenGraph title tag and
    the text of the first element matching a selector. *)
Record Page := {
  ogTitle : option string;
  querySelectorText : string -> option string
}.

(** Everything the program obtains from outside.  The [nat] argument is
    the number of external events that happened before the call.
    - [randomHex]: [crypto.randomBytes(8).toString('hex')];
    - [toISOString]: [new Date().toISOString()];
    - [getTime]: [new Date(s).getTime()] on the time stamps the program
      writes (an unparsable string, for which JavaScript gives NaN, is
      not modelled);
    - [parseURL]: [rssParser.parseURL(url)], the items of the feed;
    - [fetchPage]: [fetch(url)], [response.text()] and [parseHtml];
    - [chatCompletion]: [openai.chat.completions.create] with the key,
      the system message and the user message; the answer is
      [completion.choices[0]?.message?.content];
    - [storageFault]: the rejection, if any, of the storage call made at
      that event;
    - [processEnvApiKey]: [process.env.OPENAI_API_KEY];
    - [matchH1]: the first group of [/^#\s+(.+)$/m] in a string;
    - [trim], [collapseWhitespace]: [String.prototype.trim] and
      [replace(/\s+/g, ' ')]. *)
Record Env := {
  randomHex : nat -> string;
  toISOString : nat -> string;
  getTime : string -> Z;
  parseURL : nat -> string -> settled (list RssItem.t);
  fetchPage : nat -> string -> settled Page;
  chatCompletion : nat -> string -> string -> string -> settled (option string);
  storageFault : nat -> option thrown;
  processEnvApiKey : option string;
  matchH1 : string -> option string;
  trim : string -> string;
  collapseWhitespace : string -> string
}.

(** The state: the contents of the host store and the event counter.  The
    store hands out and keeps copies of the values, as a store that
    serialises them does. *)
Record World := { store : gmap string value; tick : nat }.

(* ===================================================================== *)
(** ** The monad of handlers *)
(* ===================================================================== *)

Definition M (A : Type) : Type := World -> result A * World.

Definition ret {A} (a : A) : M A := fun w => (Ok a, w).

Definition bind {A B} (m : M A) (k : A -> M B) : M B :=
  fun w =>
    match m w with
    | (Ok a, w') => k a w'
    | (Throws e, w') => (Throws e, w')
    | (Miscast, w') => (Miscast, w')
    end.

Definition throw {A} (e : thrown) : M A := fun w => (Throws e, w).

Definition miscast {A} : M A := fun w => (Miscast, w).

(** [try { m } catch (e) { h e }]: nothing is rolled back. *)
Definition try_catch {A} (m : M A) (h : thrown -> M A) : M A :=
  fun w =>
    match m w with
    | (Throws e, w') => h e w'
    | r => r
    end.

Declare Scope trik_scope.
Delimit Scope trik_scope with trik.
Notation "x <- c ;; k" := (bind c (fun x => k))
  (at level 100, c at next level, right associativity) : trik_scope.
Notation "c ;;; k" := (bind c (fun _ => k))
  (at level 100, right associativity) : trik_scope.
Local Open Scope trik_scope.

Definition bump (w : World) : World := {| store := store w; tick := S (tick w) |}.

(** A read of the environment: the event counter advances. *)
Definition event {A} (f : nat -> A) : M A := fun w => (Ok (f (tick w)), bump w).

(** A call into the outside world that may reject. *)
Definition await {A} (f : nat -> settled A) : M A :=
  fun w =>
    match f (tick w) with
    | Fulfils a => (Ok a, bump w)
    | Rejects e => (Throws e, bump w)
    end.

(** A required input field. *)
Definition required {A} (o : option A) : M A :=
  match o with
  | Some a => ret a
  | None => miscast
  end.

(* ===================================================================== *)
(** ** JavaScript idioms *)
(* ===================================================================== *)

Definition nl : string := String (ascii_of_nat 10) EmptyString.
Definition dquote : string := String (ascii_of_nat 34) EmptyString.

(** [s || d] on strings: the empty string and [undefined] are falsy. *)
Definition or_string (o : option string) (d : string) : string :=
  match o with
  | Some s => if decide (s = "") then d else s
  | None => d
  end.

(** [o1 || o2] where the result may still be [undefined]. *)
Definition or_else (o1 o2 : option string) : option string :=
  match o1 with
  | Some s => if decide (s = "") then o2 else Some s
  | None => o2
  end.

(** [n || d] on numbers: [0] and [undefined] are falsy. *)
Definition or_number (o : option Z) (d : Z) : Z :=
  match o with
  | Some n => if decide (n = 0%Z) then d else n
  | None => d
  end.

(** [l || []] on arrays: every array is truthy. *)
Definition or_array {A} (o : option (list A)) : list A := default [] o.

(** A value inside a template literal. *)
Definition interpolate (o : option string) : string :=
  match o with
  | Some s => s
  | None => "undefined"
  end.

(** [Array.prototype.join]. *)
Fixpoint join (sep : string) (l : list string) : string :=
  match l with
  | [] => ""
  | [x] => x
  | x :: rest => x +:+ sep +:+ join sep rest
  end.

(** [Array.prototype.includes] on an array of strings. *)
Definition includes (l : list string) (x : string) : bool := bool_decide (x ∈ l).

(** [Array.prototype.slice(start, end)] with integer arguments. *)
Definition slice {A} (l : list A) (start stop : Z) : list A :=
  let len := Z.of_nat (length l) in
  let k := if (start <? 0)%Z then Z.max (len + start) 0 else Z.min start len in
  let final := if (stop <? 0)%Z then Z.max (len + stop) 0 else Z.min stop len in
  take (Z.to_nat (final - k)) (drop (Z.to_nat k) l).

(** [[...new Set(l)]]: the first occurrence of every element, in order. *)
Fixpoint spreadSet_from (seen : list string) (l : list string) : list string :=
  match l with
  | [] => []
  | x :: rest =>
      if includes seen x then spreadSet_from seen rest
      else x :: spreadSet_from (x :: seen) rest
  end.
Definition spreadSet (l : list string) : list string := spreadSet_from [] l.

(** [Array.prototype.sort(cmp)]: a stable sort; an element goes before
    the first later element it does not compare greater than. *)
Section Sort.
Context {A : Type} (cmp : A -> A -> Z).

Fixpoint sort_insert (x : A) (l : list A) : list A :=
  match l with
  | [] => [x]
  | y :: rest =>
      if (cmp x y <=? 0)%Z then x :: y :: rest else y :: sort_insert x rest
  end.

Definition sort (l : list A) : list A := foldr sort_insert [] l.
End Sort.

(* ===================================================================== *)
(** ** Storage keys *)
(* ===================================================================== *)

Module STORAGE_KEYS.
Definition content (id : string) : string := "content:" +:+ id.
Definition contentIndex : string := "content:index".
Definition article (id : string) : string := "article:" +:+ id.
Definition articleIndex : string := "article:index".
End STORAGE_KEYS.

(* ===================================================================== *)
(** ** The storage proxy *)
(* ===================================================================== *)

Section Program.
Context (E : Env).

(** Every call to the host store is an external event that may reject. *)
Definition storage_call {A} (f : gmap string value -> A * gmap string value) : M A :=
  fun w =>
    match storageFault E (tick w) with
    | Some e => (Throws e, bump w)
    | None =>
        let '(a, st) := f (store w) in
        (Ok a, {| store := st; tick := S (tick w) |})
    end.

Definition storage_get (key : string) : M (option value) :=
  storage_call (fun st => (st !! key, st)).

Definition storage_set (key : string) (v : value) : M unit :=
  storage_call (fun st => (tt, <[key := v]> st)).

(** [delete] tells whether a value was removed. *)
Definition storage_delete (key : string) : M bool :=
  storage_call (fun st => (bool_decide (is_Some (st !! key)), delete key st)).

(* =================================================================== *)
(** ** Helpers *)
(* =================================================================== *)

(** [crypto.randomBytes(8).toString('hex')]. *)
Definition generateId : M string := event (randomHex E).

(** [new Date().toISOString()]. *)
Definition currentTime : M string := event (toISOString E).

(** [getOpenAI]: the key of the client, or the configuration error. *)
Definition getOpenAI (config : option ConfigContext) : M string :=
  let apiKey :=
    or_else (match config with
             | Some c => config_get c "OPENAI_API_KEY"
             | None => None
             end)
            (processEnvApiKey E) in
  match or_else apiKey None with
  | Some k => ret k
  | None => throw (ErrorExn "OPENAI_API_KEY not configured")
  end.

Definition detectUrlType (url : string) : M InspirationType :=
  try_catch (await (fun n => parseURL E n url) ;;; ret feed) (fun _ => ret single).

Definition contentSelectors : list string :=
  ["article"; "main"; ".post-content"; ".entry-content"; ".article-body"; "#content"].

(** The selector loop: the trimmed text of the first selector that
    matches, [''] when none does. *)
Fixpoint firstSelected (root : Page) (selectors : list string) : string :=
  match selectors with
  | [] => ""
  | selector :: rest =>
      match querySelectorText root selector with
      | Some text => trim E text
      | None => firstSelected root rest
      end
  end.

Definition fetchSingleContent (url : string) : M (string * string) :=
  root <- await (fun n => fetchPage E n url) ;;
  let title :=
    or_string (or_else (ogTitle root) (querySelectorText root "title")) "Untitled" in
  let content := firstSelected root contentSelectors in
  let content :=
    if decide (content = "")
    then or_string (trim E <$> querySelectorText root "body") ""
    else content in
  let content := trim E (collapseWhitespace E content) in
  ret (title, content).

Definition fetchFeedContent (url : string) : M (list FeedEntry.t) :=
  items <- await (fun n => parseURL E n url) ;;
  ret ((fun item =>
          FeedEntry.mk
            (or_string (RssItem.title item) "Untitled")
            (or_string (or_else (or_else (RssItem.contentSnippet item)
                                         (RssItem.content item))
                                (RssItem.summary item)) "")
            (or_string (RssItem.link item) url)) <$> items).

(* =================================================================== *)
(** ** Storage helpers *)
(* =================================================================== *)

(** An index is used as an array ([includes], [filter], iteration, the
    spread); an object stored under the index key makes that use throw a
    [TypeError] with the given message. *)
Definition asArray (o : option value) (message : string) : M (list string) :=
  match o with
  | None => ret []
  | Some (VIndex ids) => ret ids
  | Some _ => throw (ErrorExn message)
  end.

Definition getContentIndex : M (option value) :=
  storage_get STORAGE_KEYS.contentIndex.

Definition setContentIndex (index : list string) : M unit :=
  storage_set STORAGE_KEYS.contentIndex (VIndex index).

Definition getContent (id : string) : M (option value) :=
  storage_get (STORAGE_KEYS.content id).

Definition setContent (content : ContentPiece.t) : M unit :=
  storage_set (STORAGE_KEYS.content (ContentPiece.id content)) (VPiece content) ;;;
  index <- getContentIndex ;;
  index <- asArray index "index.includes is not a function" ;;
  if negb (includes index (ContentPiece.id content))
  then setContentIndex (index ++ [ContentPiece.id content])
  else ret tt.

Definition deleteContentById (id : string) : M bool :=
  deleted <- storage_delete (STORAGE_KEYS.content id) ;;
  (if deleted : bool
   then
     index <- getContentIndex ;;
     index <- asArray index "index.filter is not a function" ;;
     setContentIndex (filter (fun i => i ≠ id) index)
   else ret tt) ;;;
  ret deleted.

Definition getArticleIndex : M (option value) :=
  storage_get STORAGE_KEYS.articleIndex.

Definition setArticleIndex (index : list string) : M unit :=
  storage_set STORAGE_KEYS.articleIndex (VIndex index).

Definition getArticle (id : string) : M (option value) :=
  storage_get (STORAGE_KEYS.article id).

Definition setArticle (article : Article.t) : M unit :=
  storage_set (STORAGE_KEYS.article (Article.id article)) (VArticle article) ;;;
  index <- getArticleIndex ;;
  index <- asArray index "index.includes is not a function" ;;
  if negb (includes index (Article.id article))
  then setArticleIndex (index ++ [Article.id article])
  else ret tt.

(* =================================================================== *)
(** ** Action handlers *)
(* =================================================================== *)

Definition templateResult (data : list (string * json)) : ActionResult :=
  {| responseMode := template; agentData := Some data; userContent := None |}.

Definition passthroughResult (data : list (string * json)) : ActionResult :=
  {| responseMode := passthrough; agentData := None; userContent := Some data |}.

Definition JStrings (l : list string) : json := JArr (JStr <$> l).

(** [for (const x of l) { await body(x) }]. *)
Fixpoint forEach {A} (l : list A) (body : A -> M unit) : M unit :=
  match l with
  | [] => ret tt
  | x :: rest => body x ;;; forEach rest body
  end.

(** The body of the loop over the feed items. *)
Definition storeFeedItem (tags : list string) (item : FeedEntry.t) : M unit :=
  id <- generateId ;;
  addedAt <- currentTime ;;
  setContent
    {| ContentPiece.id := id;
       ContentPiece.title := FeedEntry.title item;
       ContentPiece.source := FeedEntry.link item;
       ContentPiece.content := FeedEntry.content item;
       ContentPiece.summary := None;
       ContentPiece.tags := tags;
       ContentPiece.addedAt := addedAt;
       ContentPiece.inspirationType := feed |}.

Definition inspirationAdded (type : string) (contentCount : Z) : ActionResult :=
  templateResult
    [("template", JStr "success"); ("type", JStr type);
     ("contentCount", JNum contentCount)].

Definition inspirationFailed : ActionResult :=
  templateResult
    [("template", JStr "error"); ("type", JStr "single"); ("contentCount", JNum 0)].

(** The [try] block of [addInspiration]. *)
Definition addInspirationTry (input : ActionInput) (tags : list string)
  : M ActionResult :=
  url <- required (url input) ;;
  urlType <- detectUrlType url ;;
  match urlType with
  | feed =>
      items <- fetchFeedContent url ;;
      forEach items (storeFeedItem tags) ;;;
      ret (inspirationAdded "feed" (Z.of_nat (length items)))
  | single =>
      page <- fetchSingleContent url ;;
      id <- generateId ;;
      addedAt <- currentTime ;;
      setContent
        {| ContentPiece.id := id;
           ContentPiece.title := page.1;
           ContentPiece.source := url;
           ContentPiece.content := page.2;
           ContentPiece.summary := None;
           ContentPiece.tags := tags;
           ContentPiece.addedAt := addedAt;
           ContentPiece.inspirationType := single |} ;;;
      ret (inspirationAdded "single" 1)
  end.

Definition addInspiration (input : ActionInput) : M ActionResult :=
  let tags := or_array (tags input) in
  try_catch (addInspirationTry input tags) (fun _ => ret inspirationFailed).

(** The loading loop of the two listings and of the article prompts:
    every id is looked up, ids without a value are skipped. *)
Fixpoint loadAll (get : string -> M (option value)) (ids : list string)
  : M (list value) :=
  match ids with
  | [] => ret []
  | id :: rest =>
      found <- get id ;;
      others <- loadAll get rest ;;
      ret (match found with
           | Some v => v :: others
           | None => others
           end)
  end.

Definition asPiece (v : value) : option ContentPiece.t :=
  match v with
  | VPiece c => Some c
  | _ => None
  end.

Definition asArticle (v : value) : option Article.t :=
  match v with
  | VArticle a => Some a
  | _ => None
  end.

Definition emptyListing : ActionResult :=
  templateResult
    [("template", JStr "empty"); ("totalCount", JNum 0); ("returnedCount", JNum 0)].

Definition listing (total : nat) (items : list json) : ActionResult :=
  templateResult
    [("template", JStr "success");
     ("totalCount", JNum (Z.of_nat total));
     ("returnedCount", JNum (Z.of_nat (length items)));
     ("items", JArr items)].

Definition contentSummary (c : ContentPiece.t) : json :=
  JObj [("id", JStr (ContentPiece.id c));
        ("title", JStr (ContentPiece.title c));
        ("source", JStr (ContentPiece.source c));
        ("tags", JStrings (ContentPiece.tags c));
        ("addedAt", JStr (ContentPiece.addedAt c))].

(** [filterTags.some((tag) => item.tags.includes(tag))]. *)
Definition sharesTag (filterTags : list string) (item : ContentPiece.t) : bool :=
  existsb (fun tag => includes (ContentPiece.tags item) tag) filterTags.

Definition newestFirst (a b : ContentPiece.t) : Z :=
  (getTime E (ContentPiece.addedAt b) - getTime E (ContentPiece.addedAt a))%Z.

(** The pure part of [listContent], after the pieces are loaded. *)
Definition filterContent (filterTags : list string) (allContent : list ContentPiece.t)
  : list ContentPiece.t :=
  if bool_decide (0 < length filterTags)
  then List.filter (sharesTag filterTags) allContent
  else allContent.

Definition listContent (input : ActionInput) : M ActionResult :=
  let filterTags := or_array (tags input) in
  let limit := or_number (limit input) 20 in
  let offset := or_number (offset input) 0 in
  index <- getContentIndex ;;
  index <- asArray index "index is not iterable" ;;
  if bool_decide (length index = 0) then ret emptyListing
  else
    allContent <- loadAll getContent index ;;
    match mapM asPiece allContent with
    | Some allContent =>
        let filtered := sort newestFirst (filterContent filterTags allContent) in
        let total := length filtered in
        let paginated := slice filtered offset (offset + limit) in
        ret (listing total (contentSummary <$> paginated))
    | None =>
        (* an indexed key holds something that has no [tags] and no
           [addedAt]: the tag filter throws, the sort compares NaN *)
        if bool_decide (0 < length filterTags)
        then throw (ErrorExn "Cannot read properties of undefined (reading 'includes')")
        else miscast
    end.

Definition getContentAction (input : ActionInput) : M ActionResult :=
  let contentId := interpolate (contentId input) in
  content <- getContent contentId ;;
  match content with
  | None =>
      ret (passthroughResult
             [("contentType", JStr "error"); ("content", JStr "Content not found")])
  | Some (VPiece content) =>
      ret (passthroughResult
             [("contentType", JStr "content");
              ("content",
               JStr ("# " +:+ ContentPiece.title content +:+ nl +:+ nl
                     +:+ "**Source:** " +:+ ContentPiece.source content +:+ nl
                     +:+ "**Tags:** "
                     +:+ or_string (Some (join ", " (ContentPiece.tags content))) "none"
                     +:+ nl
                     +:+ "**Added:** " +:+ ContentPiece.addedAt content +:+ nl +:+ nl
                     +:+ "---" +:+ nl +:+ nl +:+ ContentPiece.content content));
              ("metadata",
               JObj [("title", JStr (ContentPiece.title content));
                     ("source", JStr (ContentPiece.source content));
                     ("tags", JStrings (ContentPiece.tags content));
                     ("addedAt", JStr (ContentPiece.addedAt content))])])
  | Some _ =>
      throw (ErrorExn "Cannot read properties of undefined (reading 'join')")
  end.

(** Field reads on whatever a content key holds: a field the object
    does not have is [undefined]. *)
Definition titleOf (v : value) : option string :=
  match v with
  | VPiece c => Some (ContentPiece.title c)
  | VArticle a => Some (Article.title a)
  | VIndex _ => None
  end.

Definition sourceOf (v : value) : option string :=
  match v with
  | VPiece c => Some (ContentPiece.source c)
  | _ => None
  end.

Definition contentOf (v : value) : option string :=
  match v with
  | VPiece c => Some (ContentPiece.content c)
  | VArticle a => Some (Article.content a)
  | VIndex _ => None
  end.

(** One block of source material in a prompt. *)
Definition sourceBlock (content : value) : string :=
  "## " +:+ interpolate (titleOf content) +:+ nl
  +:+ "Source: " +:+ interpolate (sourceOf content) +:+ nl +:+ nl
  +:+ interpolate (contentOf content).

Definition blockSeparator : string := nl +:+ nl +:+ "---" +:+ nl +:+ nl.

Definition writerPersona : string :=
  "You are a skilled writer who creates engaging articles based on source materials. Maintain the user's voice and style as specified in their instructions.".

Definition editorPersona : string :=
  "You are a skilled editor who revises articles based on feedback while maintaining consistency with the original voice and style.".

Definition createPrompt (instructions : string) (sourceContent : list string)
    (title : option string) : string :=
  "Based on the following source materials, create an article following these instructions:"
  +:+ nl +:+ nl
  +:+ "INSTRUCTIONS: " +:+ instructions +:+ nl +:+ nl
  +:+ "SOURCE MATERIALS:" +:+ nl
  +:+ join blockSeparator sourceContent +:+ nl +:+ nl
  +:+ "Write a well-structured article that synthesizes the key points from these sources while following the user's instructions for tone and style. "
  +:+ match or_else title None with
      | Some title =>
          "The article should be titled: " +:+ dquote +:+ title +:+ dquote
      | None => "Generate an appropriate title."
      end.

Definition noValidContent : ActionResult :=
  passthroughResult
    [("contentType", JStr "error"); ("content", JStr "No valid content pieces found")].

Definition createArticle (input : ActionInput) (config : option ConfigContext)
  : M ActionResult :=
  let title := title input in
  contentIds <-
    match contentIds input with
    | Some ids => ret ids
    | None => throw (ErrorExn "contentIds is not iterable")
    end ;;
  found <- loadAll getContent contentIds ;;
  let sourceContent := sourceBlock <$> found in
  if bool_decide (length sourceContent = 0) then ret noValidContent
  else
    apiKey <- getOpenAI config ;;
    instructions <- required (instructions input) ;;
    let prompt := createPrompt instructions sourceContent title in
    completion <- await (fun n => chatCompletion E n apiKey writerPersona prompt) ;;
    let generatedContent := or_string completion "" in
    let articleTitle :=
      or_string (or_else title (matchH1 E generatedContent)) "Untitled Article" in
    articleId <- generateId ;;
    createdAt <- currentTime ;;
    updatedAt <- currentTime ;;
    setArticle
      {| Article.id := articleId;
         Article.title := articleTitle;
         Article.content := generatedContent;
         Article.sourceContentIds := contentIds;
         Article.instructions := instructions;
         Article.version := 1;
         Article.createdAt := createdAt;
         Article.updatedAt := updatedAt |} ;;;
    ret (passthroughResult
           [("contentType", JStr "article");
            ("content", JStr ("# " +:+ articleTitle +:+ nl +:+ nl +:+ generatedContent));
            ("metadata",
             JObj [("articleId", JStr articleId); ("title", JStr articleTitle)])]).

Definition articleSummary (a : Article.t) : json :=
  JObj [("id", JStr (Article.id a));
        ("title", JStr (Article.title a));
        ("version", JNum (Article.version a));
        ("createdAt", JStr (Article.createdAt a));
        ("updatedAt", JStr (Article.updatedAt a))].

Definition lastUpdatedFirst (a b : Article.t) : Z :=
  (getTime E (Article.updatedAt b) - getTime E (Article.updatedAt a))%Z.

Definition listArticles (input : ActionInput) : M ActionResult :=
  let limit := or_number (limit input) 20 in
  let offset := or_number (offset input) 0 in
  index <- getArticleIndex ;;
  index <- asArray index "index is not iterable" ;;
  if bool_decide (length index = 0) then ret emptyListing
  else
    allArticles <- loadAll getArticle index ;;
    match mapM asArticle allArticles with
    | Some allArticles =>
        let sorted := sort lastUpdatedFirst allArticles in
        let total := length sorted in
        let paginated := slice sorted offset (offset + limit) in
        ret (listing total (articleSummary <$> paginated))
    | None => miscast
    end.

Definition revisionPrompt (current : option string) (instructions : option string)
    (additionalContent : list string) : string :=
  "Here is an existing article that needs to be revised:" +:+ nl +:+ nl
  +:+ "CURRENT ARTICLE:" +:+ nl
  +:+ interpolate current +:+ nl +:+ nl
  +:+ "REVISION INSTRUCTIONS: " +:+ interpolate instructions
  +:+ (if bool_decide (0 < length additionalContent)
       then nl +:+ nl +:+ "ADDITIONAL SOURCE MATERIALS TO INCORPORATE:" +:+ nl
            +:+ join blockSeparator additionalContent
       else "").

Definition articleNotFound : ActionResult :=
  passthroughResult
    [("contentType", JStr "error"); ("content", JStr "Article not found")].

Definition updateArticle (input : ActionInput) (config : option ConfigContext)
  : M ActionResult :=
  let articleId := interpolate (articleId input) in
  let additionalContentIds := or_array (additionalContentIds input) in
  article <- getArticle articleId ;;
  match article with
  | None => ret articleNotFound
  | Some stored =>
      found <- loadAll getContent additionalContentIds ;;
      let additionalContent := sourceBlock <$> found in
      apiKey <- getOpenAI config ;;
      let prompt :=
        revisionPrompt (contentOf stored) (instructions input) additionalContent in
      completion <- await (fun n => chatCompletion E n apiKey editorPersona prompt) ;;
      match stored with
      | VArticle article =>
          let updatedContent := or_string completion (Article.content article) in
          updatedAt <- currentTime ;;
          let article :=
            {| Article.id := Article.id article;
               Article.title := Article.title article;
               Article.content := updatedContent;
               Article.sourceContentIds :=
                 if bool_decide (0 < length additionalContentIds)
                 then spreadSet (Article.sourceContentIds article ++ additionalContentIds)
                 else Article.sourceContentIds article;
               Article.instructions := Article.instructions article;
               Article.version := (Article.version article + 1)%Z;
               Article.createdAt := Article.createdAt article;
               Article.updatedAt := updatedAt |} in
          setArticle article ;;;
          ret (passthroughResult
                 [("contentType", JStr "article");
                  ("content",
                   JStr ("# " +:+ Article.title article +:+ nl +:+ nl +:+ updatedContent));
                  ("metadata",
                   JObj [("articleId", JStr (Article.id article));
                         ("title", JStr (Article.title article));
                         ("version", JNum (Article.version article))])])
      | _ => miscast
      end
  end.

Definition deleteContent (input : ActionInput) : M ActionResult :=
  let contentId := interpolate (contentId input) in
  deleted <- deleteContentById contentId ;;
  if deleted : bool
  then ret (templateResult [("template", JStr "success")])
  else ret (templateResult [("template", JStr "notFound")]).

(* =================================================================== *)
(** ** The dispatcher *)
(* =================================================================== *)

Definition errorEnvelope (message : string) : ActionResult :=
  templateResult [("template", JStr "error"); ("message", JStr message)].

(** [error instanceof Error ? error.message : 'Unknown error']. *)
Definition errorMessage (error : thrown) : string :=
  match error with
  | ErrorExn message => message
  | NonError => "Unknown error"
  end.

(** The [switch] on the action name. *)
Definition dispatch (i : InvokeInput) : M ActionResult :=
  if String.eqb (action i) "addInspiration" then addInspiration (input i)
  else if String.eqb (action i) "listContent" then listContent (input i)
  else if String.eqb (action i) "getContent" then getContentAction (input i)
  else if String.eqb (action i) "createArticle" then createArticle (input i) (config i)
  else if String.eqb (action i) "listArticles" then listArticles (input i)
  else if String.eqb (action i) "updateArticle" then updateArticle (input i) (config i)
  else if String.eqb (action i) "deleteContent" then deleteContent (input i)
  else ret (errorEnvelope ("Unknown action: " +:+ action i)).

Definition invoke (i : InvokeInput) : M ActionResult :=
  match storage i with
  | None => ret (errorEnvelope "Storage not provided")
  | Some _ =>
      try_catch (dispatch i)
                (fun error => ret (errorEnvelope (errorMessage error)))
  end.

End Program.

(* ===================================================================== *)
(** ** Vocabulary of the specification *)
(* ===================================================================== *)

(** The ids an index key enumerates ([(index as string[]) || []]). *)
Definition indexList (st : gmap string value) (key : string) : list string :=
  match st !! key with
  | Some (VIndex ids) => ids
  | _ => []
  end.

(** The content piece, resp. article, retrievable by direct key lookup. *)
Definition pieceAt (st : gmap string value) (id : string) : option ContentPiece.t :=
  st !! STORAGE_KEYS.content id ≫= asPiece.

Definition articleAt (st : gmap string value) (id : string) : option Article.t :=
  st !! STORAGE_KEYS.article id ≫= asArticle.

(** The index holds exactly the ids of the retrievable records. *)
Definition contentIndexConsistent (st : gmap string value) : Prop :=
  ∀ id, id ∈ indexList st STORAGE_KEYS.contentIndex ↔ is_Some (pieceAt st id).

Definition articleIndexConsistent (st : gmap string value) : Prop :=
  ∀ id, id ∈ indexList st STORAGE_KEYS.articleIndex ↔ is_Some (articleAt st id).

(** A key that is used as an index holds an array, or nothing. *)
Definition holdsArray (st : gmap string value) (key : string) : Prop :=
  match st !! key with
  | Some (VPiece _) | Some (VArticle _) => False
  | _ => True
  end.

(** The host store answers every call. *)
Definition reliable (E : Env) : Prop := ∀ n, storageFault E n = None.

(** The store after a completed [setContent], [setArticle] and
    [deleteContentById]. *)
Definition putContent (c : ContentPiece.t) (st : gmap string value) : gmap string value :=
  let st1 := <[STORAGE_KEYS.content (ContentPiece.id c) := VPiece c]> st in
  let index := indexList st1 STORAGE_KEYS.contentIndex in
  if includes index (ContentPiece.id c) then st1
  else <[STORAGE_KEYS.contentIndex := VIndex (index ++ [ContentPiece.id c])]> st1.

Definition putArticle (a : Article.t) (st : gmap string value) : gmap string value :=
  let st1 := <[STORAGE_KEYS.article (Article.id a) := VArticle a]> st in
  let index := indexList st1 STORAGE_KEYS.articleIndex in
  if includes index (Article.id a) then st1
  else <[STORAGE_KEYS.articleIndex := VIndex (index ++ [Article.id a])]> st1.

Definition removeContent (id : string) (st : gmap string value) : gmap string value :=
  match st !! STORAGE_KEYS.content id with
  | Some _ =>
      let st1 := delete (STORAGE_KEYS.content id) st in
      <[STORAGE_KEYS.contentIndex :=
          VIndex (filter (fun i => i ≠ id) (indexList st1 STORAGE_KEYS.contentIndex))]> st1
  | None => st
  end.

(** Inputs of the seven actions. *)
Definition contentIdInput (id : string) : ActionInput :=
  {| url := None; tags := None; limit := None; offset := None;
     contentId := Some id; contentIds := None; instructions := None;
     title := None; articleId := None; additionalContentIds := None |}.

Definition listInput (filterTags : option (list string)) (limit offset : option Z)
  : ActionInput :=
  {| url := None; tags := filterTags; limit := limit; offset := offset;
     contentId := None; contentIds := None; instructions := None;
     title := None; articleId := None; additionalContentIds := None |}.

Definition addInput (url : string) (tags : option (list string)) : ActionInput :=
  {| url := Some url; tags := tags; limit := None; offset := None;
     contentId := None; contentIds := None; instructions := None;
     title := None; articleId := None; additionalContentIds := None |}.

Definition createInput (contentIds : list string) (instructions : string)
    (title : option string) : ActionInput :=
  {| url := None; tags := None; limit := None; offset := None;
     contentId := None; contentIds := Some contentIds;
     instructions := Some instructions;
     title := title; articleId := None; additionalContentIds := None |}.

Definition updateInput (articleId : string) (instructions : string)
    (additionalContentIds : option (list string)) : ActionInput :=
  {| url := None; tags := None; limit := None; offset := None;
     contentId := None; contentIds := None; instructions := Some instructions;
     title := None; articleId := Some articleId;
     additionalContentIds := additionalContentIds |}.

(** The two answers of [deleteContent]. *)
Definition deleted : ActionResult := templateResult [("template", JStr "success")].
Definition notFound : ActionResult := templateResult [("template", JStr "notFound")].

(** Every id of the index resolves to a content piece or to nothing. *)
Definition indexResolvesToPieces (st : gmap string value) : Prop :=
  Forall (fun id =>
            match st !! STORAGE_KEYS.content id with
            | Some v => is_Some (asPiece v)
            | None => True
            end)
         (indexList st STORAGE_KEYS.contentIndex).

(** The pieces [listContent] loads: the indexed ids in index order, ids
    whose lookup fails skipped. *)
Definition loadedContent (st : gmap string value) : list ContentPiece.t :=
  omap (pieceAt st) (indexList st STORAGE_KEYS.contentIndex).

(** The names of the fields of a JSON object. *)
Definition fieldNames (j : json) : list string :=
  match j with
  | JObj fields => fst <$> fields
  | _ => []
  end.

(** A numeric field of the agent data ([totalCount], [returnedCount],
    [contentCount]). *)
Definition agentNumber (name : string) (r : ActionResult) : option Z :=
  data ← agentData r;
  match snd <$> List.find (fun p => String.eqb (fst p) name) data with
  | Some (JNum n) => Some n
  | _ => None
  end.

(** The limit and the offset in force ([|| 20], [|| 0]). *)
Definition effectiveLimit (input : ActionInput) : Z := or_number (limit input) 20.
Definition effectiveOffset (input : ActionInput) : Z := or_number (offset input) 0.

(** The fields of an item of [listContent]. *)
Definition summaryFields : list string := ["id"; "title"; "source"; "tags"; "addedAt"].

(** The credential [getOpenAI] finds, if any. *)
Definition apiKeyOf (E : Env) (config : option ConfigContext) : option string :=
  or_else (or_else (match config with
                    | Some c => config_get c "OPENAI_API_KEY"
                    | None => None
                    end)
                   (processEnvApiKey E))
          None.

(** The model answers every request. *)
Definition modelAnswers (E : Env) : Prop :=
  ∀ n apiKey persona prompt,
    ∃ completion, chatCompletion E n apiKey persona prompt = Fulfils completion.

(** The generator never produces the id that names the index keys. *)
Definition idsNeverReserved (E : Env) : Prop := ∀ n, randomHex E n ≠ "index".

(** No article is stored or indexed under an id the generator produces. *)
Definition freshArticleIds (E : Env) (st : gmap string value) : Prop :=
  ∀ n, st !! STORAGE_KEYS.article (randomHex E n) = None
       ∧ randomHex E n ∉ indexList st STORAGE_KEYS.articleIndex.

(** The envelope of a created article. *)
Definition createdEnvelope (a : Article.t) : ActionResult :=
  passthroughResult
    [("contentType", JStr "article");
     ("content", JStr ("# " +:+ Article.title a +:+ nl +:+ nl +:+ Article.content a));
     ("metadata",
      JObj [("articleId", JStr (Article.id a)); ("title", JStr (Article.title a))])].

(** The envelope of a revised article. *)
Definition revisedEnvelope (a : Article.t) : ActionResult :=
  passthroughResult
    [("contentType", JStr "article");
     ("content", JStr ("# " +:+ Article.title a +:+ nl +:+ nl +:+ Article.content a));
     ("metadata",
      JObj [("articleId", JStr (Article.id a));
            ("title", JStr (Article.title a));
            ("version", JNum (Article.version a))])].

(** The article [updateArticle] stores for a stored article [a]. *)
Definition revised (a : Article.t) (completion : option string)
    (additionalContentIds : list string) (updatedAt : string) : Article.t :=
  {| Article.id := Article.id a;
     Article.title := Article.title a;
     Article.content := or_string completion (Article.content a);
     Article.sourceContentIds :=
       if bool_decide (0 < length additionalContentIds)
       then spreadSet (Article.sourceContentIds a ++ additionalContentIds)
       else Article.sourceContentIds a;
     Article.instructions := Article.instructions a;
     Article.version := (Article.version a + 1)%Z;
     Article.createdAt := Article.createdAt a;
     Article.updatedAt := updatedAt |}.

(** The model returns a response without content. *)
Definition modelAnswersEmpty (E : Env) : Prop :=
  ∀ n apiKey persona prompt,
    chatCompletion E n apiKey persona prompt = Fulfils None
    ∨ chatCompletion E n apiKey persona prompt = Fulfils (Some "").

(** The piece written for a feed entry when the id is generated at event
    [n] (the clock is read at the next event). *)
Definition feedPiece (E : Env) (tags : list string) (n : nat) (item : FeedEntry.t)
  : ContentPiece.t :=
  {| ContentPiece.id := randomHex E n;
     ContentPiece.title := FeedEntry.title item;
     ContentPiece.source := FeedEntry.link item;
     ContentPiece.content := FeedEntry.content item;
     ContentPiece.summary := None;
     ContentPiece.tags := tags;
     ContentPiece.addedAt := toISOString E (S n);
     ContentPiece.inspirationType := feed |}.

(** The piece written for a single page. *)
Definition pagePiece (E : Env) (tags : list string) (n : nat) (url : string)
    (page : string * string) : ContentPiece.t :=
  {| ContentPiece.id := randomHex E n;
     ContentPiece.title := page.1;
     ContentPiece.source := url;
     ContentPiece.content := page.2;
     ContentPiece.summary := None;
     ContentPiece.tags := tags;
     ContentPiece.addedAt := toISOString E (S n);
     ContentPiece.inspirationType := single |}.

(** A piece is persisted: retrievable by key and listed in the index. *)
Definition persisted (st : gmap string value) (p : ContentPiece.t) : Prop :=
  pieceAt st (ContentPiece.id p) = Some p
  ∧ ContentPiece.id p ∈ indexList st STORAGE_KEYS.contentIndex.

(** The generator never repeats an id. *)
Definition idsNeverRepeat (E : Env) : Prop :=
  ∀ i j, randomHex E i = randomHex E j → i = j.

(** No id the generator produces from now on is in the content index. *)
Definition freshContentIds (E : Env) (w : World) : Prop :=
  ∀ n, (tick w ≤ n)%nat → randomHex E n ∉ indexList (store w) STORAGE_KEYS.contentIndex.

(** What one write of a piece, completed or interrupted, does to the
    store: only the record of that piece changes, the index only grows. *)
Definition writes (p : ContentPiece.t) (st st' : gmap string value) : Prop :=
  holdsArray st' STORAGE_KEYS.contentIndex
  ∧ (∀ id', id' ≠ ContentPiece.id p → pieceAt st' id' = pieceAt st id')
  ∧ (∀ id', id' ∈ indexList st STORAGE_KEYS.contentIndex →
            id' ∈ indexList st' STORAGE_KEYS.contentIndex).

(** A stored piece carries the extracted entry, the shared tags and the
    type [feed]. *)
Definition pieceOfEntry (tags : list string) (entry : FeedEntry.t) (p : ContentPiece.t)
  : Prop :=
  ContentPiece.title p = FeedEntry.title entry
  ∧ ContentPiece.source p = FeedEntry.link entry
  ∧ ContentPiece.content p = FeedEntry.content entry
  ∧ ContentPiece.tags p = tags
  ∧ ContentPiece.inspirationType p = feed.

(** The seven action names of the [switch]. *)
Definition knownActions : list string :=
  ["addInspiration"; "listContent"; "getContent"; "createArticle";
   "listArticles"; "updateArticle"; "deleteContent"].

(** The handler the [switch] selects for an action name. *)
Definition handlerFor (E : Env) (name : string) (input : ActionInput)
    (config : option ConfigContext) : option (M ActionResult) :=
  if String.eqb name "addInspiration" then Some (addInspiration E input)
  else if String.eqb name "listContent" then Some (listContent E input)
  else if String.eqb name "getContent" then Some (getContentAction E input)
  else if String.eqb name "createArticle" then Some (createArticle E input config)
  else if String.eqb name "listArticles" then Some (listArticles E input)
  else if String.eqb name "updateArticle" then Some (updateArticle E input config)
  else if String.eqb name "deleteContent" then Some (deleteContent E input)
  else None.

(** An invocation with the storage proxy present. *)
Definition invocation (action : string) (input : ActionInput)
    (config : option ConfigContext) : InvokeInput :=
  {| action := action; input := input;
     storage := Some gatewayStorage; config := config |}.

(** Newest first: every element is at least as recent as the later ones. *)
Definition descending {A} (key : A → Z) : list A → Prop :=
  StronglySorted (fun a b => (key b <= key a)%Z).

(** The instant a piece was added. *)
Definition addedTime (E : Env) (c : ContentPiece.t) : Z :=
  getTime E (ContentPiece.addedAt c).

(* ===================================================================== *)
(** ** A sample environment and sample stores *)
(* ===================================================================== *)

Definition samplePage : Page :=
  {| ogTitle := None;
     querySelectorText := fun selector =>
       if String.eqb selector "title" then Some "Example Domain"
       else if String.eqb selector "body" then Some "This domain is for use in examples."
       else None |}.

Definition sampleFeed : list RssItem.t :=
  [ RssItem.mk (Some "First post") (Some "Hello") None None
               (Some "https://blog.example.com/1");
    RssItem.mk None None (Some "<p>World</p>") None None ].

Definition sampleClock : list (string * Z) :=
  [ ("2024-03-01T10:00:00.000Z", 1709287200000%Z);
    ("2024-03-02T10:00:00.000Z", 1709373600000%Z);
    ("2024-03-03T10:00:00.000Z", 1709460000000%Z) ].

(** An environment in which the store never rejects, only
    [https://blog.example.com/rss] parses as a feed, no model credential
    is found in the process environment, and the model answers with a
    short article.  The generated ids are the hexadecimal numerals of
    the event numbers, so that no id is ever repeated. *)
Definition sampleEnv : Env :=
  {| randomHex := HexString.of_nat;
     toISOString := fun n => default "2024-03-03T10:00:00.000Z" (fst <$> sampleClock !! n);
     getTime := fun s =>
       default 0%Z (snd <$> List.find (fun p => String.eqb (fst p) s) sampleClock);
     parseURL := fun _ url =>
       if String.eqb url "https://blog.example.com/rss" then Fulfils sampleFeed
       else Rejects (ErrorExn "Status code 404");
     fetchPage := fun _ _ => Fulfils samplePage;
     chatCompletion := fun _ _ _ _ => Fulfils (Some "A short article.");
     storageFault := fun _ => None;
     processEnvApiKey := None;
     matchH1 := fun _ => None;
     trim := fun s => s;
     collapseWhitespace := fun s => s |}.

(** The same environment with a store that rejects the call made at
    event [k]. *)
Definition faultyEnv (k : nat) : Env :=
  {| randomHex := randomHex sampleEnv;
     toISOString := toISOString sampleEnv;
     getTime := getTime sampleEnv;
     parseURL := parseURL sampleEnv;
     fetchPage := fetchPage sampleEnv;
     chatCompletion := chatCompletion sampleEnv;
     storageFault := fun n =>
       if Nat.eqb n k then Some (ErrorExn "storage unavailable") else None;
     processEnvApiKey := None;
     matchH1 := matchH1 sampleEnv;
     trim := trim sampleEnv;
     collapseWhitespace := collapseWhitespace sampleEnv |}.

(** A configuration that carries the model credential. *)
Definition sampleConfig : ConfigContext :=
  {| config_get := fun key =>
       if String.eqb key "OPENAI_API_KEY" then Some "sk-test" else None |}.

Definition pieceA : ContentPiece.t :=
  {| ContentPiece.id := "a1b2c3d4e5f60718";
     ContentPiece.title := "Example Domain";
     ContentPiece.source := "https://example.com";
     ContentPiece.content := "This domain is for use in examples.";
     ContentPiece.summary := None;
     ContentPiece.tags := ["test"; "example"];
     ContentPiece.addedAt := "2024-03-01T10:00:00.000Z";
     ContentPiece.inspirationType := single |}.

Definition pieceB : ContentPiece.t :=
  {| ContentPiece.id := "0f1e2d3c4b5a6978";
     ContentPiece.title := "Herman Melville - Moby-Dick";
     ContentPiece.source := "https://httpbin.org/html";
     ContentPiece.content := "Availing himself of the mild, summer-cool weather";
     ContentPiece.summary := None;
     ContentPiece.tags := ["test"; "httpbin"];
     ContentPiece.addedAt := "2024-03-02T10:00:00.000Z";
     ContentPiece.inspirationType := single |}.

Definition articleA : Article.t :=
  {| Article.id := "77aa88bb99cc00dd";
     Article.title := "Test Article";
     Article.content := "A first draft.";
     Article.sourceContentIds := ["a1b2c3d4e5f60718"];
     Article.instructions := "Write a brief summary.";
     Article.version := 1;
     Article.createdAt := "2024-03-02T10:00:00.000Z";
     Article.updatedAt := "2024-03-02T10:00:00.000Z" |}.

Definition emptyWorld : World := {| store := ∅; tick := 0 |}.

(** Two content pieces, stored by [setContent]. *)
Definition libraryWorld : World :=
  {| store := putContent pieceB (putContent pieceA ∅); tick := 0 |}.

(** The two pieces and one article written from the first. *)
Definition deskWorld : World :=
  {| store := putArticle articleA (store libraryWorld); tick := 0 |}.

(** Twenty-one pieces added at the same instant. *)
Definition bulkPiece (n : nat) : ContentPiece.t :=
  {| ContentPiece.id := HexString.of_nat n;
     ContentPiece.title := "Untitled";
     ContentPiece.source := "https://blog.example.com/rss";
     ContentPiece.content := "";
     ContentPiece.summary := None;
     ContentPiece.tags := [];
     ContentPiece.addedAt := "2024-03-03T10:00:00.000Z";
     ContentPiece.inspirationType := feed |}.

Definition bulkWorld : World :=
  {| store := foldr putContent ∅ (bulkPiece <$> seq 0 21); tick := 0 |}.

(** The sample environment with a model whose message has no content. *)
Definition silentEnv : Env :=
  {| randomHex := randomHex sampleEnv;
     toISOString := toISOString sampleEnv;
     getTime := getTime sampleEnv;
     parseURL := parseURL sampleEnv;
     fetchPage := fetchPage sampleEnv;
     chatCompletion := fun _ _ _ _ => Fulfils None;
     storageFault := fun _ => None;
     processEnvApiKey := None;
     matchH1 := matchH1 sampleEnv;
     trim := trim sampleEnv;
     collapseWhitespace := collapseWhitespace sampleEnv |}.

(** The sample environment with a model that cannot be reached. *)
Definition offlineEnv : Env :=
  {| randomHex := randomHex sampleEnv;
     toISOString := toISOString sampleEnv;
     getTime := getTime sampleEnv;
     parseURL := parseURL sampleEnv;
     fetchPage := fetchPage sampleEnv;
     chatCompletion := fun _ _ _ _ => Rejects (ErrorExn "Connection error.");
     storageFault := fun _ => None;
     processEnvApiKey := None;
     matchH1 := matchH1 sampleEnv;
     trim := trim sampleEnv;
     collapseWhitespace := collapseWhitespace sampleEnv |}.

(** The two URLs of the samples: a feed and a page. *)
Definition feedUrl : string := "https://blog.example.com/rss".
Definition pageUrl : string := "https://example.com".

(** A sequence of invocations against one store, as the test scripts of
    the repository run them. *)
Fixpoint session (E : Env) (calls : list InvokeInput) (w : World)
  : list (result ActionResult) * World :=
  match calls with
  | [] => ([], w)
  | call :: rest =>
      let '(r, w1) := invoke E call w in
      let '(rs, w2) := session E rest w1 in
      (r :: rs, w2)
  end.

(** The [template] field and a numeric field of every answer. *)
Definition agentTemplates (rs : list (result ActionResult)) : list (option json) :=
  (fun r => match r with
            | Ok a => agentData a ≫= fun data =>
                        snd <$> List.find (fun p => String.eqb (fst p) "template") data
            | _ => None
            end) <$> rs.

Definition agentNumbers (name : string) (rs : list (result ActionResult))
  : list (option Z) :=
  (fun r => match r with
            | Ok a => agentNumber name a
            | _ => None
            end) <$> rs.

(** The local test script (mock storage): list, add a page, list, get,
    delete, list, list the articles.  ["0x3"] is the id the sample
    generator gives the page. *)
Definition testScript : list InvokeInput :=
  [ invocation "listContent" emptyInput None;
    invocation "addInspiration" (addInput pageUrl (Some ["test"; "example"])) None;
    invocation "listContent" emptyInput None;
    invocation "getContent" (contentIdInput "0x3") None;
    invocation "deleteContent" (contentIdInput "0x3") None;
    invocation "listContent" emptyInput None;
    invocation "listArticles" emptyInput None ].

(** The integration test script ([test-trik.ts]) up to the article
    tests: a second page, the tag filter, the deletion of the first. *)
Definition gatewayScript : list InvokeInput :=
  [ invocation "listContent" emptyInput None;
    invocation "addInspiration" (addInput pageUrl (Some ["test"; "example"])) None;
    invocation "listContent" emptyInput None;
    invocation "getContent" (contentIdInput "0x3") None;
    invocation "addInspiration"
               (addInput "https://httpbin.org/html" (Some ["test"; "httpbin"])) None;
    invocation "listContent" (listInput (Some ["example"]) None None) None;
    invocation "deleteContent" (contentIdInput "0x3") None;
    invocation "listContent" emptyInput None;
    invocation "listArticles" emptyInput None ].

(* ===================================================================== *)
(** ** Further vocabulary *)
(* ===================================================================== *)

(** The store rejects the second or the third call counted from
    event [n], after answering the ones before. *)
Definition rejectsAfterFirst (E : Env) (n : nat) (e : thrown) : Prop :=
  storageFault E n = None
  ∧ (storageFault E (S n) = Some e
     ∨ (storageFault E (S n) = None ∧ storageFault E (S (S n)) = Some e)).

(** A computation that leaves the store as it found it, whatever its
    outcome. *)
Definition readOnly {A} (m : M A) : Prop := ∀ w, store (m w).2 = store w.

(** A computation that changes, whatever its outcome, only keys it
    owns. *)
Definition writesOnly {A} (owns : string → Prop) (m : M A) : Prop :=
  ∀ w key, ¬ owns key → store (m w).2 !! key = store w !! key.

(** The keys of the content pieces and of the articles; each family
    contains its index key. *)
Definition contentKey (key : string) : Prop := ∃ id, key = STORAGE_KEYS.content id.
Definition articleKey (key : string) : Prop := ∃ id, key = STORAGE_KEYS.article id.

(** Every id of the article index resolves to an article or to
    nothing. *)
Definition indexResolvesToArticles (st : gmap string value) : Prop :=
  Forall (fun id =>
            match st !! STORAGE_KEYS.article id with
            | Some v => is_Some (asArticle v)
            | None => True
            end)
         (indexList st STORAGE_KEYS.articleIndex).

(** The articles [listArticles] loads: the indexed ids in index order,
    ids whose lookup fails skipped. *)
Definition loadedArticles (st : gmap string value) : list Article.t :=
  omap (articleAt st) (indexList st STORAGE_KEYS.articleIndex).

(** The fields of an item of [listArticles]. *)
Definition articleFields : list string :=
  ["id"; "title"; "version"; "createdAt"; "updatedAt"].

(** The instant an article was last updated. *)
Definition updatedTime (E : Env) (a : Article.t) : Z :=
  getTime E (Article.updatedAt a).

(** A field of the user content of a passthrough result. *)
Definition userField (name : string) (r : ActionResult) : option json :=
  data ← userContent r;
  snd <$> List.find (fun p => String.eqb (fst p) name) data.

(** The answer of [getContent] for an id without a record. *)
Definition contentNotFound : ActionResult :=
  passthroughResult
    [("contentType", JStr "error"); ("content", JStr "Content not found")].

(** A computation that never leaves the typed part of the program and
    whose results, when it returns one, satisfy [P]. *)
Definition answers {A} (P : A → Prop) (m : M A) : Prop :=
  ∀ w, match (m w).1 with
       | Ok a => P a
       | Throws _ => True
       | Miscast => False
       end.


(* ===================================================================== *)
(** ** The mock storage of the local test script *)
(* ===================================================================== *)

(** [class MockStorage]: a [Map] from keys to values, whose entries stay
    in the order in which their keys were first set. *)
Module MockStorage.

(** [private data = new Map<string, unknown>()]. *)
Definition t (V : Type) : Type := list (string * V).

Definition empty {V} : t V := [].

(** [this.data.get(key) ?? null]. *)
Fixpoint get {V} (data : t V) (key : string) : option V :=
  match data with
  | [] => None
  | (k, v) :: rest => if decide (k = key) then Some v else get rest key
  end.

(** [this.data.set(key, value)]: the value of a present key is replaced
    where the entry stands, a new key goes last. *)
Fixpoint set {V} (data : t V) (key : string) (value : V) : t V :=
  match data with
  | [] => [(key, value)]
  | (k, v) :: rest =>
      if decide (k = key) then (k, value) :: rest else (k, v) :: set rest key value
  end.

(** [this.data.delete(key)]: whether the key was present, and the map
    without it. *)
Definition delete {V} (data : t V) (key : string) : bool * t V :=
  (bool_decide (is_Some (get data key)),
   filter (fun p => p.1 ≠ key) (data : Datatypes.list (string * V))).



(** [list]: the keys in the order of the map, those that start with the
    prefix when a non-empty prefix is given. *)
Definition list {V} (data : t V) (prefix : option string) : Datatypes.list string :=
  let keys := (data : Datatypes.list (string * V)).*1 in
  match prefix with
  | Some p => if decide (p = "") then keys else List.filter (String.prefix p) keys
  | None => keys
  end.

End MockStorage.

(** The store a mock storage stands for, and the invariant of a [Map]:
    no key occurs twice. *)
Definition contents {V} (data : MockStorage.t V) : gmap string V := list_to_map data.

Definition uniqueKeys {V} (data : MockStorage.t V) : Prop :=
  NoDup (data : list (string * V)).*1.

(* ===================================================================== *)
(** ** Running the storage helpers *)
(* ===================================================================== *)

Lemma content_key_inj a b : STORAGE_KEYS.content a = STORAGE_KEYS.content b → a = b.
Proof. intros H. cbv in H. congruence. Qed.

Lemma article_key_inj a b : STORAGE_KEYS.article a = STORAGE_KEYS.article b → a = b.
Proof. intros H. cbv in H. congruence. Qed.

Lemma content_key_not_article a b : STORAGE_KEYS.content a ≠ STORAGE_KEYS.article b.
Proof. intros H. cbv in H. discriminate. Qed.

Lemma content_key_not_articleIndex a : STORAGE_KEYS.content a ≠ STORAGE_KEYS.articleIndex.
Proof. intros H. cbv in H. discriminate. Qed.

Lemma contentIndex_not_article a : STORAGE_KEYS.contentIndex ≠ STORAGE_KEYS.article a.
Proof. intros H. cbv in H. discriminate. Qed.

(** The index key lies in the name space of the record keys: it is the
    record key of the id ["index"]. *)
Lemma content_key_index : STORAGE_KEYS.content "index" = STORAGE_KEYS.contentIndex.
Proof. reflexivity. Qed.

Lemma article_key_index : STORAGE_KEYS.article "index" = STORAGE_KEYS.articleIndex.
Proof. reflexivity. Qed.

Lemma content_key_is_index id :
  STORAGE_KEYS.content id = STORAGE_KEYS.contentIndex ↔ id = "index".
Proof.
  split; [| intros ->; reflexivity].
  intros H. apply content_key_inj. exact H.
Qed.

Lemma article_key_is_index id :
  STORAGE_KEYS.article id = STORAGE_KEYS.articleIndex ↔ id = "index".
Proof.
  split; [| intros ->; reflexivity].
  intros H. apply article_key_inj. exact H.
Qed.

Section Runs.
Context (E : Env) (Hrel : reliable E).

Lemma storage_get_run key w :
  storage_get E key w = (Ok (store w !! key), bump w).
Proof. unfold storage_get, storage_call. rewrite Hrel. reflexivity. Qed.

Lemma storage_set_run key v w :
  storage_set E key v w
  = (Ok tt, {| store := <[key := v]> (store w); tick := S (tick w) |}).
Proof. unfold storage_set, storage_call. rewrite Hrel. reflexivity. Qed.

Lemma storage_delete_run key w :
  storage_delete E key w
  = (Ok (bool_decide (is_Some (store w !! key))),
     {| store := delete key (store w); tick := S (tick w) |}).
Proof. unfold storage_delete, storage_call. rewrite Hrel. reflexivity. Qed.

Lemma asArray_run st key message w :
  holdsArray st key →
  asArray (st !! key) message w = (Ok (indexList st key), w).
Proof.
  unfold holdsArray, indexList, asArray.
  destruct (st !! key) as [[c|a|ids]|]; intros H; try contradiction; reflexivity.
Qed.

(** A completed [setContent] is [putContent]. *)
Lemma setContent_run c w :
  holdsArray (<[STORAGE_KEYS.content (ContentPiece.id c) := VPiece c]> (store w))
             STORAGE_KEYS.contentIndex →
  ∃ t, tick w < t ∧
       setContent E c w = (Ok tt, {| store := putContent c (store w); tick := t |}).
Proof.
  intros Harr. unfold setContent, getContentIndex, setContentIndex, bind.
  rewrite storage_set_run, storage_get_run. cbn [store tick bump].
  rewrite (asArray_run _ _ _ _ Harr). unfold putContent.
  destruct (includes _ _); cbn [negb].
  - eexists; split; [| reflexivity]; cbn; lia.
  - rewrite storage_set_run. cbn [store tick]. eexists; split; [| reflexivity]; cbn; lia.
Qed.

Lemma setArticle_run a w :
  holdsArray (<[STORAGE_KEYS.article (Article.id a) := VArticle a]> (store w))
             STORAGE_KEYS.articleIndex →
  ∃ t, tick w < t ∧
       setArticle E a w = (Ok tt, {| store := putArticle a (store w); tick := t |}).
Proof.
  intros Harr. unfold setArticle, getArticleIndex, setArticleIndex, bind.
  rewrite storage_set_run, storage_get_run. cbn [store tick bump].
  rewrite (asArray_run _ _ _ _ Harr). unfold putArticle.
  destruct (includes _ _); cbn [negb].
  - eexists; split; [| reflexivity]; cbn; lia.
  - rewrite storage_set_run. cbn [store tick]. eexists; split; [| reflexivity]; cbn; lia.
Qed.

(** A completed [deleteContentById] is [removeContent]; it reports
    whether the key held a value. *)
Lemma deleteContentById_run id w :
  holdsArray (delete (STORAGE_KEYS.content id) (store w)) STORAGE_KEYS.contentIndex →
  ∃ t, tick w < t ∧
       deleteContentById E id w
       = (Ok (bool_decide (is_Some (store w !! STORAGE_KEYS.content id))),
          {| store := removeContent id (store w); tick := t |}).
Proof.
  intros Harr. unfold deleteContentById, getContentIndex, setContentIndex, bind.
  rewrite storage_delete_run. unfold removeContent.
  destruct (store w !! STORAGE_KEYS.content id) as [v|] eqn:Hv.
  - rewrite bool_decide_eq_true_2 by eauto.
    rewrite storage_get_run. cbn [store tick bump].
    rewrite (asArray_run _ _ _ _ Harr), storage_set_run. cbn [store tick ret].
    eexists; split; [| reflexivity]; cbn; lia.
  - rewrite bool_decide_eq_false_2 by (intros [? ?]; discriminate).
    cbn [ret]. rewrite delete_id by done.
    eexists; split; [| reflexivity]; cbn; lia.
Qed.

End Runs.

(* ===================================================================== *)
(** ** Index and records *)
(* ===================================================================== *)

Lemma pieceAt_insert_content st id v id' :
  pieceAt (<[STORAGE_KEYS.content id := v]> st) id'
  = if decide (id = id') then asPiece v else pieceAt st id'.
Proof.
  unfold pieceAt. rewrite lookup_insert. destruct (decide (id = id')) as [->|Hne].
  - rewrite decide_True by done. reflexivity.
  - rewrite decide_False; [done |]. intros H. apply Hne, content_key_inj, H.
Qed.

Lemma pieceAt_delete_content st id id' :
  pieceAt (delete (STORAGE_KEYS.content id) st) id'
  = if decide (id = id') then None else pieceAt st id'.
Proof.
  unfold pieceAt. rewrite lookup_delete. destruct (decide (id = id')) as [->|Hne].
  - rewrite decide_True by done. reflexivity.
  - rewrite decide_False; [done |]. intros H. apply Hne, content_key_inj, H.
Qed.

Lemma pieceAt_insert_index st ids id' :
  pieceAt (<[STORAGE_KEYS.contentIndex := VIndex ids]> st) id'
  = if decide (id' = "index") then None else pieceAt st id'.
Proof.
  rewrite <- content_key_index, pieceAt_insert_content.
  destruct (decide ("index" = id')) as [<-|Hne].
  - rewrite decide_True by done. reflexivity.
  - rewrite decide_False by congruence. reflexivity.
Qed.

Lemma indexList_insert_content st id v :
  id ≠ "index" →
  indexList (<[STORAGE_KEYS.content id := v]> st) STORAGE_KEYS.contentIndex
  = indexList st STORAGE_KEYS.contentIndex.
Proof.
  intros Hne. unfold indexList. rewrite lookup_insert_ne; [done |].
  intros H. apply Hne, content_key_is_index, H.
Qed.

Lemma indexList_delete_content st id :
  id ≠ "index" →
  indexList (delete (STORAGE_KEYS.content id) st) STORAGE_KEYS.contentIndex
  = indexList st STORAGE_KEYS.contentIndex.
Proof.
  intros Hne. unfold indexList. rewrite lookup_delete_ne; [done |].
  intros H. apply Hne, content_key_is_index, H.
Qed.

Lemma indexList_insert_index st key ids :
  indexList (<[key := VIndex ids]> st) key = ids.
Proof. unfold indexList. rewrite lookup_insert_eq. reflexivity. Qed.

Lemma includes_spec l x : includes l x = true ↔ x ∈ l.
Proof. unfold includes. apply bool_decide_eq_true. Qed.

Lemma includes_false l x : includes l x = false ↔ x ∉ l.
Proof. unfold includes. apply bool_decide_eq_false. Qed.

(** Under the invariant no record sits on the index key. *)
Lemma consistent_no_index_record st :
  contentIndexConsistent st → pieceAt st "index" = None.
Proof.
  intros Hc. destruct (pieceAt st "index") as [c|] eqn:Hp; [| done].
  assert (Hin : "index" ∈ indexList st STORAGE_KEYS.contentIndex)
    by (apply Hc; rewrite Hp; eauto).
  unfold pieceAt in Hp. rewrite content_key_index in Hp.
  unfold indexList in Hin.
  destruct (st !! STORAGE_KEYS.contentIndex) as [[?|?|?]|]; simpl in Hp;
    try discriminate; inversion Hin.
Qed.

(** [setContent] re-establishes the invariant for every id but the one
    that names the index key. *)
Lemma putContent_consistent c st :
  ContentPiece.id c ≠ "index" →
  contentIndexConsistent st →
  contentIndexConsistent (putContent c st).
Proof.
  intros Hne Hc id'. unfold putContent.
  rewrite indexList_insert_content by done.
  destruct (includes _ _) eqn:Hinc.
  - apply includes_spec in Hinc.
    rewrite indexList_insert_content, pieceAt_insert_content by done.
    destruct (decide (ContentPiece.id c = id')) as [<-|Hd].
    + simpl. split; eauto.
    + apply Hc.
  - apply includes_false in Hinc.
    rewrite indexList_insert_index, pieceAt_insert_index, pieceAt_insert_content.
    rewrite elem_of_app, list_elem_of_singleton.
    destruct (decide (id' = "index")) as [->|Hi].
    + split; [| intros [? ?]; discriminate].
      intros [Hin | Heq]; [| congruence].
      apply Hc in Hin. rewrite consistent_no_index_record in Hin by done.
      exact Hin.
    + destruct (decide (ContentPiece.id c = id')) as [<-|Hd].
      * simpl. split; eauto.
      * rewrite <- (Hc id'). split; [intros [?|?]; congruence | eauto].
Qed.

(** [deleteContentById] re-establishes the invariant for every id but
    the one that names the index key. *)
Lemma removeContent_consistent id st :
  id ≠ "index" →
  contentIndexConsistent st →
  contentIndexConsistent (removeContent id st).
Proof.
  intros Hne Hc id'. unfold removeContent.
  destruct (st !! STORAGE_KEYS.content id) as [v|] eqn:Hv; [| apply Hc].
  rewrite indexList_insert_index, pieceAt_insert_index, pieceAt_delete_content.
  rewrite indexList_delete_content by done.
  rewrite list_elem_of_filter.
  destruct (decide (id' = "index")) as [->|Hi].
  - split; [| intros [? ?]; discriminate].
    intros [_ Hin]. apply Hc in Hin.
    rewrite consistent_no_index_record in Hin by done. exact Hin.
  - destruct (decide (id = id')) as [<-|Hd].
    + split; [intros [? _]; congruence | intros [? ?]; discriminate].
    + rewrite <- (Hc id'). split; [intros [_ ?]; done | intros ?; split; congruence].
Qed.

Lemma articleAt_insert_article st id v id' :
  articleAt (<[STORAGE_KEYS.article id := v]> st) id'
  = if decide (id = id') then asArticle v else articleAt st id'.
Proof.
  unfold articleAt. rewrite lookup_insert. destruct (decide (id = id')) as [->|Hne].
  - rewrite decide_True by done. reflexivity.
  - rewrite decide_False; [done |]. intros H. apply Hne, article_key_inj, H.
Qed.

Lemma articleAt_insert_index st ids id' :
  articleAt (<[STORAGE_KEYS.articleIndex := VIndex ids]> st) id'
  = if decide (id' = "index") then None else articleAt st id'.
Proof.
  rewrite <- article_key_index, articleAt_insert_article.
  destruct (decide ("index" = id')) as [<-|Hne].
  - rewrite decide_True by done. reflexivity.
  - rewrite decide_False by congruence. reflexivity.
Qed.

Lemma indexList_insert_article st id v :
  id ≠ "index" →
  indexList (<[STORAGE_KEYS.article id := v]> st) STORAGE_KEYS.articleIndex
  = indexList st STORAGE_KEYS.articleIndex.
Proof.
  intros Hne. unfold indexList. rewrite lookup_insert_ne; [done |].
  intros H. apply Hne, article_key_is_index, H.
Qed.

Lemma consistent_no_index_article st :
  articleIndexConsistent st → articleAt st "index" = None.
Proof.
  intros Hc. destruct (articleAt st "index") as [a|] eqn:Hp; [| done].
  assert (Hin : "index" ∈ indexList st STORAGE_KEYS.articleIndex)
    by (apply Hc; rewrite Hp; eauto).
  unfold articleAt in Hp. rewrite article_key_index in Hp.
  unfold indexList in Hin.
  destruct (st !! STORAGE_KEYS.articleIndex) as [[?|?|?]|]; simpl in Hp;
    try discriminate; inversion Hin.
Qed.

(** [setArticle] re-establishes the invariant of the article index; the
    ids it is called with are generated, or read from a stored article. *)
Lemma putArticle_consistent a st :
  Article.id a ≠ "index" →
  articleIndexConsistent st →
  articleIndexConsistent (putArticle a st).
Proof.
  intros Hne Hc id'. unfold putArticle.
  rewrite indexList_insert_article by done.
  destruct (includes _ _) eqn:Hinc.
  - apply includes_spec in Hinc.
    rewrite indexList_insert_article, articleAt_insert_article by done.
    destruct (decide (Article.id a = id')) as [<-|Hd].
    + simpl. split; eauto.
    + apply Hc.
  - apply includes_false in Hinc.
    rewrite indexList_insert_index, articleAt_insert_index, articleAt_insert_article.
    rewrite elem_of_app, list_elem_of_singleton.
    destruct (decide (id' = "index")) as [->|Hi].
    + split; [| intros [? ?]; discriminate].
      intros [Hin | Heq]; [| congruence].
      apply Hc in Hin. rewrite consistent_no_index_article in Hin by done.
      exact Hin.
    + destruct (decide (Article.id a = id')) as [<-|Hd].
      * simpl. split; eauto.
      * rewrite <- (Hc id'). split; [intros [?|?]; congruence | eauto].
Qed.

Section IndexMaintenance.
Context (E : Env) (Hrel : reliable E).

Lemma setContent_preserves_consistency c w :
  ContentPiece.id c ≠ "index" →
  holdsArray (store w) STORAGE_KEYS.contentIndex →
  contentIndexConsistent (store w) →
  ∃ w', setContent E c w = (Ok tt, w') ∧ contentIndexConsistent (store w').
Proof.
  intros Hne Harr Hc.
  destruct (setContent_run E Hrel c w) as (t & _ & Hrun).
  - unfold holdsArray in *. rewrite lookup_insert_ne; [done |].
    intros H. apply Hne, content_key_is_index, H.
  - eexists; split; [exact Hrun |]. cbn. by apply putContent_consistent.
Qed.

Lemma deleteContentById_preserves_consistency id w :
  id ≠ "index" →
  holdsArray (store w) STORAGE_KEYS.contentIndex →
  contentIndexConsistent (store w) →
  ∃ deleted w',
    deleteContentById E id w = (Ok deleted, w') ∧ contentIndexConsistent (store w').
Proof.
  intros Hne Harr Hc.
  destruct (deleteContentById_run E Hrel id w) as (t & _ & Hrun).
  - unfold holdsArray in *. rewrite lookup_delete_ne; [done |].
    intros H. apply Hne, content_key_is_index, H.
  - do 2 eexists; split; [exact Hrun |]. cbn. by apply removeContent_consistent.
Qed.

Lemma setArticle_preserves_consistency a w :
  Article.id a ≠ "index" →
  holdsArray (store w) STORAGE_KEYS.articleIndex →
  articleIndexConsistent (store w) →
  ∃ w', setArticle E a w = (Ok tt, w') ∧ articleIndexConsistent (store w').
Proof.
  intros Hne Harr Hc.
  destruct (setArticle_run E Hrel a w) as (t & _ & Hrun).
  - unfold holdsArray in *. rewrite lookup_insert_ne; [done |].
    intros H. apply Hne, article_key_is_index, H.
  - eexists; split; [exact Hrun |]. cbn. by apply putArticle_consistent.
Qed.

End IndexMaintenance.

(* ===================================================================== *)
(** ** C1: the index invariant *)
(* ===================================================================== *)

Lemma empty_store_consistent : contentIndexConsistent ∅.
Proof.
  intros id. unfold indexList, pieceAt. rewrite !lookup_empty. simpl.
  split; [intros H; inversion H | intros [? ?]; discriminate].
Qed.

Lemma libraryWorld_consistent : contentIndexConsistent (store libraryWorld).
Proof.
  apply putContent_consistent; [discriminate |].
  apply putContent_consistent; [discriminate |].
  apply empty_store_consistent.
Qed.

(** C1.  The invariant is not re-established by every completed
    [deleteContentById]: the index key [content:index] is itself the
    record key of the id ["index"].  On a store that holds two indexed
    pieces and satisfies the invariant, [deleteContentById "index"]
    removes the index, reports a successful deletion and writes back an
    empty index, so that both pieces stay retrievable by key but are
    missing from the index. *)
Theorem deleteContentById_index_key_breaks_consistency :
  contentIndexConsistent (store libraryWorld)
  ∧ ∃ w',
      deleteContentById sampleEnv "index" libraryWorld = (Ok true, w')
      ∧ indexList (store w') STORAGE_KEYS.contentIndex = []
      ∧ pieceAt (store w') (ContentPiece.id pieceA) = Some pieceA
      ∧ pieceAt (store w') (ContentPiece.id pieceB) = Some pieceB
      ∧ ¬ contentIndexConsistent (store w').
Proof.
  split; [apply libraryWorld_consistent |].
  eexists. split; [vm_compute; reflexivity |].
  split; [reflexivity |]. split; [reflexivity |]. split; [reflexivity |].
  intros Hc. specialize (Hc (ContentPiece.id pieceA)).
  destruct Hc as [_ Hc]. specialize (Hc (ex_intro _ pieceA eq_refl)).
  inversion Hc.
Qed.

(* ===================================================================== *)
(** ** C7: deleteContent *)
(* ===================================================================== *)

(** Keys outside the content name space are never touched by a delete. *)
Lemma removeContent_other_keys id st key :
  (∀ id', key ≠ STORAGE_KEYS.content id') →
  removeContent id st !! key = st !! key.
Proof.
  intros Hkey. unfold removeContent.
  destruct (st !! STORAGE_KEYS.content id); [| done].
  rewrite lookup_insert_ne, lookup_delete_ne; [done | |].
  - intros H. eapply Hkey. symmetry. exact H.
  - rewrite <- content_key_index. intros H. eapply Hkey. symmetry. exact H.
Qed.

Section DeleteContent.
Context (E : Env) (Hrel : reliable E).

(** Deleting a stored piece: success, the record and its index entry are
    gone, every article and the article index are as before. *)
Lemma deleteContent_existing id c w :
  holdsArray (store w) STORAGE_KEYS.contentIndex →
  pieceAt (store w) id = Some c →
  ∃ w',
    deleteContent E (contentIdInput id) w = (Ok deleted, w')
    ∧ store w' !! STORAGE_KEYS.content id = None
    ∧ (id ∉ indexList (store w') STORAGE_KEYS.contentIndex)
    ∧ (∀ a, store w' !! STORAGE_KEYS.article a = store w !! STORAGE_KEYS.article a)
    ∧ store w' !! STORAGE_KEYS.articleIndex = store w !! STORAGE_KEYS.articleIndex.
Proof.
  intros Harr Hp.
  assert (Hne : id ≠ "index").
  { intros ->. unfold pieceAt in Hp. rewrite content_key_index in Hp.
    unfold holdsArray in Harr.
    destruct (store w !! STORAGE_KEYS.contentIndex) as [[?|?|?]|];
      simpl in Hp; try discriminate; contradiction. }
  destruct (deleteContentById_run E Hrel id w) as (t & _ & Hrun).
  { unfold holdsArray in *. rewrite lookup_delete_ne; [done |].
    intros H. apply Hne, content_key_is_index, H. }
  unfold deleteContent, bind. cbn [contentId contentIdInput interpolate].
  rewrite Hrun. unfold pieceAt in Hp.
  destruct (store w !! STORAGE_KEYS.content id) as [v|] eqn:Hv; [| discriminate].
  rewrite bool_decide_eq_true_2 by eauto.
  eexists; split; [reflexivity |]. cbn [store].
  repeat split.
  - unfold removeContent. rewrite Hv, lookup_insert_ne, lookup_delete_eq; [done |].
    intros H. symmetry in H. apply Hne, content_key_is_index, H.
  - unfold removeContent. rewrite Hv, indexList_insert_index.
    rewrite list_elem_of_filter. intros [? _]. congruence.
  - intros a. apply removeContent_other_keys.
    intros id' H. symmetry in H. exact (content_key_not_article _ _ H).
  - apply removeContent_other_keys.
    intros id' H. symmetry in H. exact (content_key_not_articleIndex _ H).
Qed.

(** Deleting an id under whose key nothing is stored: notFound, the
    store is as before. *)
Lemma deleteContent_missing id w :
  holdsArray (store w) STORAGE_KEYS.contentIndex →
  store w !! STORAGE_KEYS.content id = None →
  ∃ w', deleteContent E (contentIdInput id) w = (Ok notFound, w')
        ∧ store w' = store w.
Proof.
  intros Harr Hnone.
  destruct (deleteContentById_run E Hrel id w) as (t & _ & Hrun).
  { rewrite delete_id by done. exact Harr. }
  unfold deleteContent, bind. cbn [contentId contentIdInput interpolate].
  rewrite Hrun, Hnone.
  rewrite bool_decide_eq_false_2 by (intros [? ?]; discriminate).
  eexists; split; [reflexivity |]. cbn [store].
  unfold removeContent. rewrite Hnone. reflexivity.
Qed.

(** Deleting a stored piece twice: success, then notFound. *)
Lemma deleteContent_twice id c w :
  holdsArray (store w) STORAGE_KEYS.contentIndex →
  pieceAt (store w) id = Some c →
  ∃ w1 w2,
    deleteContent E (contentIdInput id) w = (Ok deleted, w1)
    ∧ deleteContent E (contentIdInput id) w1 = (Ok notFound, w2).
Proof.
  intros Harr Hp.
  destruct (deleteContent_existing id c w Harr Hp) as (w1 & Hrun1 & Hgone & _).
  assert (Harr1 : holdsArray (store w1) STORAGE_KEYS.contentIndex).
  { unfold deleteContent, bind in Hrun1.
    cbn [contentId contentIdInput interpolate] in Hrun1.
    destruct (deleteContentById_run E Hrel id w) as (t & _ & Hrun).
    { unfold holdsArray in *.
      destruct (decide (STORAGE_KEYS.content id = STORAGE_KEYS.contentIndex)) as [He|He].
      - rewrite <- He, lookup_delete_eq. done.
      - rewrite lookup_delete_ne by done. exact Harr. }
    rewrite Hrun in Hrun1. unfold pieceAt in Hp.
    destruct (store w !! STORAGE_KEYS.content id) as [v|] eqn:Hv; [| discriminate].
    rewrite bool_decide_eq_true_2 in Hrun1 by eauto.
    injection Hrun1 as <-. cbn [store]. unfold removeContent. rewrite Hv.
    unfold holdsArray. rewrite lookup_insert_eq. done. }
  destruct (deleteContent_missing id w1 Harr1 Hgone) as (w2 & Hrun2 & _).
  eauto.
Qed.

End DeleteContent.

(** C7.  Deleting an id that has no record does not always answer
    [notFound] with the index unchanged: [content:index] is the record
    key of the id ["index"].  With two pieces stored and no piece of id
    ["index"], [deleteContent {contentId: "index"}] answers [success] and
    replaces the index [[a1b2..., 0f1e...]] by the empty index; a second
    call answers [success] again. *)
Theorem deleteContent_index_key_is_deleted :
  pieceAt (store libraryWorld) "index" = None
  ∧ indexList (store libraryWorld) STORAGE_KEYS.contentIndex
    = [ContentPiece.id pieceA; ContentPiece.id pieceB]
  ∧ ∃ w1 w2,
      deleteContent sampleEnv (contentIdInput "index") libraryWorld = (Ok deleted, w1)
      ∧ indexList (store w1) STORAGE_KEYS.contentIndex = []
      ∧ deleteContent sampleEnv (contentIdInput "index") w1 = (Ok deleted, w2)
      ∧ listContent sampleEnv (listInput None None None) w1
        = (Ok emptyListing, {| store := store w1; tick := S (tick w1) |}).
Proof.
  split; [reflexivity |]. split; [reflexivity |].
  do 2 eexists.
  split; [vm_compute; reflexivity |].
  split; [reflexivity |].
  split; [vm_compute; reflexivity |].
  vm_compute; reflexivity.
Qed.

(* ===================================================================== *)
(** ** Sorting, slicing, filtering *)
(* ===================================================================== *)

Section SortFacts.
Context {A : Type} (key : A → Z) (cmp : A → A → Z).
Hypothesis cmp_key : ∀ a b, cmp a b = (key b - key a)%Z.

Lemma sort_insert_perm x l : sort_insert cmp x l ≡ₚ x :: l.
Proof.
  induction l as [|y l IH]; simpl; [done |].
  destruct (cmp x y <=? 0)%Z; [done |].
  rewrite IH. apply Permutation_swap.
Qed.

Lemma sort_perm l : sort cmp l ≡ₚ l.
Proof.
  induction l as [|x l IH]; simpl; [done |].
  rewrite sort_insert_perm, IH. done.
Qed.

Lemma sort_insert_descending x l :
  descending key l → descending key (sort_insert cmp x l).
Proof.
  unfold descending. induction 1 as [|y l Hl IH Hy]; simpl.
  - repeat constructor.
  - destruct (cmp x y <=? 0)%Z eqn:Hc.
    + apply Z.leb_le in Hc. rewrite cmp_key in Hc.
      constructor; [by constructor |].
      constructor; [lia |].
      eapply Forall_impl; [exact Hy |]. simpl. intros z Hz. lia.
    + apply Z.leb_gt in Hc. rewrite cmp_key in Hc.
      constructor; [exact IH |].
      rewrite sort_insert_perm. constructor; [lia | exact Hy].
Qed.

Lemma sort_descending l : descending key (sort cmp l).
Proof.
  induction l as [|x l IH]; simpl; [constructor |].
  by apply sort_insert_descending.
Qed.

Lemma sort_length l : length (sort cmp l) = length l.
Proof. apply Permutation_length, sort_perm. Qed.
End SortFacts.

(** A page is never longer than a non-negative limit. *)
Lemma slice_length_le {A} (l : list A) (offset limit : Z) :
  (0 <= limit)%Z →
  (Z.of_nat (length (slice l offset (offset + limit))) <= limit)%Z.
Proof.
  intros Hlim. unfold slice. rewrite length_take, length_drop.
  destruct (offset <? 0)%Z eqn:Ho; destruct (offset + limit <? 0)%Z eqn:Hs;
    try apply Z.ltb_lt in Ho; try apply Z.ltb_ge in Ho;
    try apply Z.ltb_lt in Hs; try apply Z.ltb_ge in Hs; lia.
Qed.

(** A page is a contiguous part of the list. *)
Lemma slice_sublist {A} (l : list A) (start stop : Z) :
  ∃ before after, l = (before ++ slice l start stop ++ after)%list.
Proof.
  unfold slice. cbv zeta.
  match goal with
  | |- context [take ?n (drop ?k l)] =>
      exists (take k l), (drop n (drop k l));
      by rewrite (take_drop n (drop k l)), take_drop
  end.
Qed.

Lemma sharesTag_spec filterTags item :
  sharesTag filterTags item = true
  ↔ ∃ tag, tag ∈ filterTags ∧ tag ∈ ContentPiece.tags item.
Proof.
  unfold sharesTag. rewrite existsb_exists. split.
  - intros (tag & Hin & Hinc). exists tag. split.
    + by apply list_elem_of_In.
    + by apply includes_spec.
  - intros (tag & Hin & Hinc). exists tag. split.
    + by apply list_elem_of_In.
    + by apply includes_spec.
Qed.

(** The tag filter: without tags everything is kept, with tags exactly
    the pieces that share one of them. *)
Lemma filterContent_spec filterTags allContent item :
  item ∈ filterContent filterTags allContent
  ↔ item ∈ allContent
    ∧ (filterTags = [] ∨ ∃ tag, tag ∈ filterTags ∧ tag ∈ ContentPiece.tags item).
Proof.
  unfold filterContent. destruct filterTags as [|t ts].
  - rewrite bool_decide_eq_false_2 by (simpl; lia).
    split; [intros H; split; [exact H | by left] | by intros [H _]].
  - rewrite bool_decide_eq_true_2 by (simpl; lia).
    rewrite list_elem_of_In, filter_In, <- list_elem_of_In, sharesTag_spec.
    split; intros [H1 H2]; (split; [exact H1 |]).
    + by right.
    + destruct H2 as [H2 | H2]; [discriminate | exact H2].
Qed.

(* ===================================================================== *)
(** ** C3 and C10: listContent *)
(* ===================================================================== *)

Section Loading.
Context (E : Env) (Hrel : reliable E).

Lemma loadAll_run (key : string → string) ids w :
  loadAll (fun id => storage_get E (key id)) ids w
  = (Ok (omap (fun id => store w !! key id) ids),
     {| store := store w; tick := tick w + length ids |}).
Proof.
  revert w. induction ids as [|id ids IH]; intros w.
  - cbn. destruct w. cbn. do 2 f_equal. lia.
  - cbn [loadAll]. unfold bind at 1. rewrite storage_get_run by done.
    unfold bind at 1. rewrite IH. cbn [store tick bump ret omap list_omap].
    destruct (store w !! key id); cbn; do 2 f_equal; lia.
Qed.

Lemma loadAll_content ids w :
  loadAll (getContent E) ids w
  = (Ok (omap (fun id => store w !! STORAGE_KEYS.content id) ids),
     {| store := store w; tick := tick w + length ids |}).
Proof. apply (loadAll_run STORAGE_KEYS.content). Qed.

Lemma loadAll_article ids w :
  loadAll (getArticle E) ids w
  = (Ok (omap (fun id => store w !! STORAGE_KEYS.article id) ids),
     {| store := store w; tick := tick w + length ids |}).
Proof. apply (loadAll_run STORAGE_KEYS.article). Qed.
End Loading.

Lemma mapM_asPiece_loaded st ids :
  Forall (fun id =>
            match st !! STORAGE_KEYS.content id with
            | Some v => is_Some (asPiece v)
            | None => True
            end) ids →
  mapM asPiece (omap (fun id => st !! STORAGE_KEYS.content id) ids)
  = Some (omap (pieceAt st) ids).
Proof.
  induction 1 as [|id ids Hid _ IH]; [reflexivity |].
  cbn [omap list_omap]. unfold pieceAt at 1.
  destruct (st !! STORAGE_KEYS.content id) as [v|]; simpl.
  - destruct Hid as [c Hc]. rewrite Hc. cbn.
    fold (omap (fun id => st !! STORAGE_KEYS.content id) ids).
    rewrite IH. reflexivity.
  - exact IH.
Qed.

Section ListContent.
Context (E : Env) (Hrel : reliable E).

(** The empty index. *)
Lemma listContent_empty input w :
  holdsArray (store w) STORAGE_KEYS.contentIndex →
  indexList (store w) STORAGE_KEYS.contentIndex = [] →
  listContent E input w = (Ok emptyListing, bump w).
Proof.
  intros Harr Hempty. unfold listContent, getContentIndex, bind.
  rewrite storage_get_run by done.
  rewrite (asArray_run _ _ _ _ Harr). cbn [store bump]. rewrite Hempty.
  reflexivity.
Qed.

(** The run on a non-empty index, as the composition of the pure
    stages. *)
Lemma listContent_run input w :
  holdsArray (store w) STORAGE_KEYS.contentIndex →
  indexResolvesToPieces (store w) →
  indexList (store w) STORAGE_KEYS.contentIndex ≠ [] →
  let filterTags := or_array (tags input) in
  let limit := or_number (limit input) 20 in
  let offset := or_number (offset input) 0 in
  let filtered :=
    sort (newestFirst E) (filterContent filterTags (loadedContent (store w))) in
  ∃ w',
    listContent E input w
    = (Ok (listing (length filtered)
                   (contentSummary <$> slice filtered offset (offset + limit))), w')
    ∧ store w' = store w.
Proof.
  intros Harr Htyped Hne. cbv zeta.
  unfold listContent, getContentIndex, bind.
  rewrite storage_get_run by done.
  rewrite (asArray_run _ _ _ _ Harr). cbn [store bump].
  rewrite bool_decide_eq_false_2.
  2:{ intros Hlen. apply Hne. by apply nil_length_inv. }
  rewrite loadAll_content by done. cbv beta iota.
  change (store (bump w)) with (store w).
  rewrite (mapM_asPiece_loaded _ _ Htyped).
  eexists; split; [reflexivity | reflexivity].
Qed.

End ListContent.

Lemma libraryWorld_holdsArray : holdsArray (store libraryWorld) STORAGE_KEYS.contentIndex.
Proof. vm_compute. exact I. Qed.

Lemma libraryWorld_resolves : indexResolvesToPieces (store libraryWorld).
Proof.
  unfold indexResolvesToPieces.
  change (indexList (store libraryWorld) STORAGE_KEYS.contentIndex)
    with [ContentPiece.id pieceA; ContentPiece.id pieceB].
  repeat constructor; vm_compute; eauto.
Qed.

Lemma sampleEnv_reliable : reliable sampleEnv.
Proof. intros n. reflexivity. Qed.

(** C3, as stated, fails on a limit that is not positive.  With the two
    sample pieces stored, [limit = -1] makes [slice(0, -1)] return one
    item, and [limit = 0] is replaced by 20 and returns both. *)
Lemma listContent_returnedCount_exceeds_limit :
  (∃ r w' n,
     listContent sampleEnv (listInput None (Some (-1)%Z) None) libraryWorld = (Ok r, w')
     ∧ agentNumber "returnedCount" r = Some n ∧ ¬ (n <= -1)%Z)
  ∧ (∃ r w' n,
       listContent sampleEnv (listInput None (Some 0%Z) None) libraryWorld = (Ok r, w')
       ∧ agentNumber "returnedCount" r = Some n ∧ ¬ (n <= 0)%Z).
Proof.
  split.
  - do 3 eexists. split; [vm_compute; reflexivity |].
    split; [vm_compute; reflexivity |]. lia.
  - do 3 eexists. split; [vm_compute; reflexivity |].
    split; [vm_compute; reflexivity |]. lia.
Qed.

(** C3 (amended).  On a store whose index resolves to content pieces:
    an empty index gives the [empty] template with both counts 0;
    otherwise the indexed pieces are loaded (ids without a record
    skipped), a non-empty tag filter keeps exactly the pieces that share
    a tag with it, the result is ordered by [addedAt], newest first, the
    page is the slice [offset, offset + limit) of that order,
    [totalCount] is the number of pieces after filtering, [returnedCount]
    is the length of the page, the items have the five summary fields
    only, and [returnedCount <= limit] whenever the limit in force (the
    supplied one, or 20 when it is absent or 0) is positive. *)
Theorem listContent_spec E input w :
  reliable E →
  holdsArray (store w) STORAGE_KEYS.contentIndex →
  indexResolvesToPieces (store w) →
  (indexList (store w) STORAGE_KEYS.contentIndex = [] →
   listContent E input w = (Ok emptyListing, bump w)
   ∧ agentData emptyListing
     = Some [("template", JStr "empty"); ("totalCount", JNum 0);
             ("returnedCount", JNum 0)])
  ∧ (indexList (store w) STORAGE_KEYS.contentIndex ≠ [] →
     ∃ filtered page r w',
       listContent E input w = (Ok r, w')
       ∧ store w' = store w
       ∧ filtered ≡ₚ filterContent (or_array (tags input)) (loadedContent (store w))
       ∧ (∀ item,
            item ∈ filtered
            ↔ item ∈ loadedContent (store w)
              ∧ (or_array (tags input) = []
                 ∨ ∃ tag, tag ∈ or_array (tags input) ∧ tag ∈ ContentPiece.tags item))
       ∧ descending (addedTime E) filtered
       ∧ page = slice filtered (effectiveOffset input)
                      (effectiveOffset input + effectiveLimit input)
       ∧ r = listing (length filtered) (contentSummary <$> page)
       ∧ agentNumber "totalCount" r = Some (Z.of_nat (length filtered))
       ∧ agentNumber "returnedCount" r = Some (Z.of_nat (length page))
       ∧ Forall (fun item => fieldNames item = summaryFields) (contentSummary <$> page)
       ∧ ((0 < effectiveLimit input)%Z →
          (Z.of_nat (length page) <= effectiveLimit input)%Z)).
Proof.
  intros Hrel Harr Htyped. split.
  - intros Hempty. split; [by apply listContent_empty | reflexivity].
  - intros Hne.
    destruct (listContent_run E Hrel input w Harr Htyped Hne) as (w' & Hrun & Hst).
    cbv zeta in Hrun.
    set (filtered := sort (newestFirst E) _) in Hrun.
    exists filtered, (slice filtered (effectiveOffset input)
                       (effectiveOffset input + effectiveLimit input)).
    do 2 eexists. split; [exact Hrun |]. split; [exact Hst |].
    assert (Hperm : filtered
                    ≡ₚ filterContent (or_array (tags input)) (loadedContent (store w)))
      by apply sort_perm.
    split; [exact Hperm |].
    split.
    { intros item. rewrite Hperm. apply filterContent_spec. }
    split.
    { apply (sort_descending (addedTime E)). reflexivity. }
    split; [reflexivity |]. split; [reflexivity |].
    split; [reflexivity |].
    split.
    { unfold listing, agentNumber. cbn. rewrite length_fmap. reflexivity. }
    split.
    { apply Forall_fmap, Forall_forall. intros c _. reflexivity. }
    intros Hpos. apply slice_length_le. lia.
Qed.

Lemma listContent_spec_witness :
  ∃ filtered page,
    fst (listContent sampleEnv (listInput (Some ["example"]) (Some 5%Z) None) libraryWorld)
    = Ok (listing (length filtered) (contentSummary <$> page))
    ∧ descending (addedTime sampleEnv) filtered
    ∧ (Z.of_nat (length page) <= 5)%Z.
Proof.
  destruct (listContent_spec sampleEnv (listInput (Some ["example"]) (Some 5%Z) None)
              libraryWorld sampleEnv_reliable libraryWorld_holdsArray
              libraryWorld_resolves) as [_ H].
  destruct H as (filtered & page & r & w' & Hrun & _ & _ & _ & Hsorted & _ & Hr & _ & _ & _ & Hle).
  { discriminate. }
  exists filtered, page. rewrite Hrun. subst r.
  split; [reflexivity |]. split; [exact Hsorted |].
  apply Hle. reflexivity.
Defined.

(** C10.  A supplied limit of 0 is replaced by the default: in both
    listings [limit = 0] is [limit = 20] and is the absent limit, and
    [offset = 0] is the absent offset.  With 21 pieces stored,
    [listContent] with [limit = 0] returns 20 items, not none; with one
    article stored, [listArticles] with [limit = 0] returns it. *)
Theorem zero_limit_is_default_limit :
  (∀ E filterTags offset,
     listContent E (listInput filterTags (Some 0%Z) offset)
     = listContent E (listInput filterTags (Some 20%Z) offset))
  ∧ (∀ E filterTags offset,
       listContent E (listInput filterTags (Some 0%Z) offset)
       = listContent E (listInput filterTags None offset))
  ∧ (∀ E filterTags limit,
       listContent E (listInput filterTags limit (Some 0%Z))
       = listContent E (listInput filterTags limit None))
  ∧ (∀ E filterTags offset,
       listArticles E (listInput filterTags (Some 0%Z) offset)
       = listArticles E (listInput filterTags (Some 20%Z) offset))
  ∧ (∀ E filterTags offset,
       listArticles E (listInput filterTags (Some 0%Z) offset)
       = listArticles E (listInput filterTags None offset))
  ∧ (∀ E filterTags limit,
       listArticles E (listInput filterTags limit (Some 0%Z))
       = listArticles E (listInput filterTags limit None))
  ∧ (∃ r w',
       listContent sampleEnv (listInput None (Some 0%Z) None) bulkWorld = (Ok r, w')
       ∧ agentNumber "totalCount" r = Some 21%Z
       ∧ agentNumber "returnedCount" r = Some 20%Z)
  ∧ (∃ r w',
       listArticles sampleEnv (listInput None (Some 0%Z) None) deskWorld = (Ok r, w')
       ∧ agentNumber "totalCount" r = Some 1%Z
       ∧ agentNumber "returnedCount" r = Some 1%Z).
Proof.
  repeat split; try reflexivity.
  - do 2 eexists. split; [vm_compute; reflexivity |].
    split; vm_compute; reflexivity.
  - do 2 eexists. split; [vm_compute; reflexivity |].
    split; vm_compute; reflexivity.
Qed.

(* ===================================================================== *)
(** ** Articles: createArticle and updateArticle *)
(* ===================================================================== *)

Lemma holdsArray_insert_article st id v :
  id ≠ "index" →
  holdsArray st STORAGE_KEYS.articleIndex →
  holdsArray (<[STORAGE_KEYS.article id := v]> st) STORAGE_KEYS.articleIndex.
Proof.
  intros Hne. unfold holdsArray. rewrite lookup_insert_ne; [done |].
  intros H. apply Hne, article_key_is_index, H.
Qed.

(** What a completed [setArticle] leaves in the store. *)
Lemma putArticle_lookup a st id' :
  Article.id a ≠ "index" →
  articleAt (putArticle a st) id'
  = if decide (id' = Article.id a) then Some a
    else if decide (id' = "index") then
           (if includes (indexList st STORAGE_KEYS.articleIndex) (Article.id a)
            then articleAt st id' else None)
         else articleAt st id'.
Proof.
  intros Hne. unfold putArticle. rewrite indexList_insert_article by done.
  destruct (includes _ _).
  - rewrite articleAt_insert_article.
    destruct (decide (Article.id a = id')) as [<-|Hd].
    + rewrite decide_True by done. reflexivity.
    + rewrite decide_False by congruence. by destruct (decide (id' = "index")).
  - rewrite articleAt_insert_index, articleAt_insert_article.
    destruct (decide (id' = "index")) as [->|Hi].
    + rewrite decide_False by congruence. reflexivity.
    + destruct (decide (Article.id a = id')) as [<-|Hd].
      * rewrite decide_True by done. reflexivity.
      * rewrite decide_False by congruence. reflexivity.
Qed.

Lemma putArticle_index a st :
  Article.id a ≠ "index" →
  indexList (putArticle a st) STORAGE_KEYS.articleIndex
  = if includes (indexList st STORAGE_KEYS.articleIndex) (Article.id a)
    then indexList st STORAGE_KEYS.articleIndex
    else (indexList st STORAGE_KEYS.articleIndex ++ [Article.id a])%list.
Proof.
  intros Hne. unfold putArticle. rewrite indexList_insert_article by done.
  destruct (includes _ _).
  - by rewrite indexList_insert_article.
  - by rewrite indexList_insert_index.
Qed.

(** Keys outside the article name space are never touched by [setArticle]. *)
Lemma putArticle_other_keys a st key :
  (∀ id', key ≠ STORAGE_KEYS.article id') →
  putArticle a st !! key = st !! key.
Proof.
  intros Hkey. unfold putArticle.
  assert (H1 : STORAGE_KEYS.article (Article.id a) ≠ key)
    by (intros H; eapply Hkey; symmetry; exact H).
  assert (H2 : STORAGE_KEYS.articleIndex ≠ key)
    by (rewrite <- article_key_index; intros H; eapply Hkey; symmetry; exact H).
  destruct (includes _ _); rewrite ?lookup_insert_ne by done; reflexivity.
Qed.

Lemma getOpenAI_run E config w :
  getOpenAI E config w
  = match apiKeyOf E config with
    | Some k => (Ok k, w)
    | None => (Throws (ErrorExn "OPENAI_API_KEY not configured"), w)
    end.
Proof. unfold getOpenAI, apiKeyOf. by destruct (or_else _ None). Qed.

Lemma setArticle_inv E a w w' :
  setArticle E a w = (Ok tt, w') →
  store w' = putArticle a (store w)
  ∧ holdsArray (<[STORAGE_KEYS.article (Article.id a) := VArticle a]> (store w))
               STORAGE_KEYS.articleIndex.
Proof.
  unfold setArticle, getArticleIndex, setArticleIndex, bind, storage_set, storage_get,
    storage_call, asArray, putArticle, holdsArray, indexList.
  destruct (storageFault E (tick w)); [discriminate |].
  cbn [store tick].
  destruct (storageFault E (S (tick w))); [discriminate |].
  cbn [store tick].
  destruct (_ !! STORAGE_KEYS.articleIndex) as [[c|a'|ids]|]; try discriminate.
  - cbn [ret]. destruct (includes ids _); cbn [negb].
    + intros [= <-]. done.
    + cbn [store tick]. destruct (storageFault E _); [discriminate |].
      intros [= <-]. done.
  - cbn [ret]. destruct (includes [] _); cbn [negb].
    + intros [= <-]. done.
    + cbn [store tick]. destruct (storageFault E _); [discriminate |].
      intros [= <-]. done.
Qed.

Lemma holdsArray_after_article st a :
  holdsArray (<[STORAGE_KEYS.article (Article.id a) := VArticle a]> st)
             STORAGE_KEYS.articleIndex →
  Article.id a ≠ "index".
Proof.
  intros H Heq. unfold holdsArray in H.
  rewrite Heq, article_key_index, lookup_insert_eq in H. exact H.
Qed.

Lemma putArticle_lookup_self a st :
  Article.id a ≠ "index" →
  putArticle a st !! STORAGE_KEYS.article (Article.id a) = Some (VArticle a).
Proof.
  intros Hne. unfold putArticle. destruct (includes _ _).
  - apply lookup_insert_eq.
  - rewrite lookup_insert_ne, lookup_insert_eq; [done |].
    intros H. symmetry in H. apply Hne, article_key_is_index, H.
Qed.

(** Every successful run of [createArticle] either found nothing or
    wrote the article it reports. *)
Lemma createArticle_inv E input config w r w' :
  createArticle E input config w = (Ok r, w') →
  (r = noValidContent)
  ∨ ∃ a ids,
      contentIds input = Some ids
      ∧ r = createdEnvelope a
      ∧ store w' !! STORAGE_KEYS.article (Article.id a) = Some (VArticle a)
      ∧ Article.sourceContentIds a = ids
      ∧ Article.version a = 1%Z.
Proof.
  unfold createArticle. destruct (contentIds input) as [ids|]; [| discriminate].
  unfold bind at 1. cbn [ret].
  unfold bind at 1. destruct (loadAll _ ids w) as [[found| |] w1]; try discriminate.
  case_bool_decide.
  { intros [= <- <-]. by left. }
  unfold bind at 1. rewrite getOpenAI_run.
  destruct (apiKeyOf E config) as [key|]; [| discriminate].
  unfold bind at 1. destruct (instructions input) as [instr|]; [| discriminate].
  cbn [required ret].
  unfold bind at 1. unfold await at 1.
  destruct (chatCompletion E _ _ _ _) as [completion|]; [| discriminate].
  unfold bind at 1, generateId, currentTime, event. cbn [bump store tick].
  unfold bind at 1. cbn [bump store tick].
  unfold bind at 1. cbn [bump store tick].
  unfold bind at 1.
  match goal with |- context [setArticle E ?a ?w] =>
    destruct (setArticle E a w) as [[[]| |] w2] eqn:Hset; try discriminate
  end.
  intros [= <- <-]. right.
  match type of Hset with setArticle _ ?a _ = _ => exists a, ids end.
  apply setArticle_inv in Hset as [Hst Harr].
  split; [reflexivity |]. split; [reflexivity |].
  split; [| split; reflexivity].
  apply holdsArray_after_article in Harr.
  rewrite Hst. by apply putArticle_lookup_self.
Qed.

Lemma omap_lookup_nil (st : gmap string value) (key : string → string) ids :
  omap (fun id => st !! key id) ids = [] ↔ Forall (fun id => st !! key id = None) ids.
Proof.
  induction ids as [|id ids IH]; cbn [omap list_omap].
  - split; [constructor | reflexivity].
  - destruct (st !! key id) eqn:Hid.
    + split; [discriminate |]. intros H. inversion H. congruence.
    + fold (omap (fun id => st !! key id) ids). rewrite IH.
      split; [by constructor | by inversion 1].
Qed.

Section CreateArticle.
Context (E : Env) (Hrel : reliable E).

Lemma createArticle_nothing_found input config w ids :
  contentIds input = Some ids →
  Forall (fun id => store w !! STORAGE_KEYS.content id = None) ids →
  ∃ w', createArticle E input config w = (Ok noValidContent, w')
        ∧ store w' = store w.
Proof.
  intros Hids Hnone. unfold createArticle. rewrite Hids.
  unfold bind at 1. cbn [ret]. unfold bind at 1.
  rewrite loadAll_content by done.
  apply (omap_lookup_nil _ STORAGE_KEYS.content) in Hnone. rewrite Hnone.
  eexists; split; reflexivity.
Qed.

Lemma createArticle_writes input config w ids instr key :
  modelAnswers E →
  idsNeverReserved E →
  freshArticleIds E (store w) →
  holdsArray (store w) STORAGE_KEYS.articleIndex →
  contentIds input = Some ids →
  instructions input = Some instr →
  apiKeyOf E config = Some key →
  (∃ id, id ∈ ids ∧ is_Some (pieceAt (store w) id)) →
  ∃ a w',
    createArticle E input config w = (Ok (createdEnvelope a), w')
    ∧ Article.version a = 1%Z
    ∧ Article.sourceContentIds a = ids
    ∧ Article.instructions a = instr
    ∧ articleAt (store w) (Article.id a) = None
    ∧ articleAt (store w') (Article.id a) = Some a
    ∧ (∀ id', id' ≠ Article.id a → articleAt (store w') id' = articleAt (store w) id')
    ∧ indexList (store w') STORAGE_KEYS.articleIndex
      = (indexList (store w) STORAGE_KEYS.articleIndex ++ [Article.id a])%list
    ∧ (∀ k, (∀ id', k ≠ STORAGE_KEYS.article id') → store w' !! k = store w !! k).
Proof.
  intros Hchat Hres Hfresh Harr Hids Hinstr Hkey (id & Hin & Hp).
  unfold createArticle. rewrite Hids.
  unfold bind at 1. cbn [ret]. unfold bind at 1.
  rewrite loadAll_content by done.
  rewrite bool_decide_eq_false_2.
  2:{ rewrite length_fmap. intros Hlen. apply nil_length_inv in Hlen.
      apply (omap_lookup_nil _ STORAGE_KEYS.content) in Hlen.
      rewrite Forall_forall in Hlen. specialize (Hlen id Hin).
      unfold pieceAt in Hp. rewrite Hlen in Hp. by destruct Hp. }
  unfold bind at 1. rewrite getOpenAI_run, Hkey.
  unfold bind at 1. rewrite Hinstr. cbn [required ret].
  unfold bind at 1, await at 1.
  match goal with |- context [chatCompletion E ?n ?k ?s ?p] =>
    destruct (Hchat n k s p) as [completion ->]
  end.
  unfold bind at 1, generateId, currentTime, event. cbn [bump store tick].
  unfold bind at 1. cbn [bump store tick].
  unfold bind at 1. cbn [bump store tick].
  unfold bind at 1.
  match goal with |- context [setArticle E ?a ?w0] =>
    set (art := a); set (w0' := w0)
  end.
  assert (Hne : Article.id art ≠ "index") by apply Hres.
  destruct (setArticle_run E Hrel art w0') as (t & _ & Hrun).
  { apply holdsArray_insert_article; [exact Hne | exact Harr]. }
  rewrite Hrun. cbn [ret].
  destruct (Hfresh (tick w + length ids + 1)) as [Hf1 Hf2].
  exists art. eexists. split; [reflexivity |].
  cbn [store]. subst w0'. cbn [store bump].
  assert (Hid : Article.id art = randomHex E (tick w + length ids + 1)).
  { subst art. cbn. f_equal. lia. }
  assert (Hinc : includes (indexList (store w) STORAGE_KEYS.articleIndex)
                          (Article.id art) = false).
  { apply includes_false. rewrite Hid. exact Hf2. }
  repeat split.
  - unfold articleAt. rewrite Hid, Hf1. reflexivity.
  - rewrite putArticle_lookup by done. by rewrite decide_True.
  - intros id' Hid'. rewrite putArticle_lookup by done.
    rewrite decide_False by done. rewrite Hinc.
    destruct (decide (id' = "index")) as [->|]; [| done].
    unfold articleAt. rewrite article_key_index. unfold holdsArray in Harr.
    by destruct (store w !! STORAGE_KEYS.articleIndex) as [[?|?|?]|].
  - rewrite putArticle_index by done. by rewrite Hinc.
  - intros k Hk. by apply putArticle_other_keys.
Qed.
End CreateArticle.

(** The two ways [createArticle] fails after it has found source
    material: no credential, or a request the model rejects.  Nothing
    is written in either, and the dispatcher answers with the message. *)
Section CreateArticleFailures.
Context (E : Env) (Hrel : reliable E).

Lemma createArticle_found_some input w ids :
  contentIds input = Some ids →
  (∃ id, id ∈ ids ∧ is_Some (pieceAt (store w) id)) →
  bool_decide
    (length (sourceBlock <$> omap (fun id => store w !! STORAGE_KEYS.content id) ids) = 0)
  = false.
Proof.
  intros Hids (id & Hin & Hp). apply bool_decide_eq_false_2.
  rewrite length_fmap. intros Hlen. apply nil_length_inv in Hlen.
  apply (omap_lookup_nil _ STORAGE_KEYS.content) in Hlen.
  rewrite Forall_forall in Hlen. specialize (Hlen id Hin).
  unfold pieceAt in Hp. rewrite Hlen in Hp. by destruct Hp.
Qed.

Lemma createArticle_without_credential input config w ids :
  contentIds input = Some ids →
  (∃ id, id ∈ ids ∧ is_Some (pieceAt (store w) id)) →
  apiKeyOf E config = None →
  ∃ w',
    createArticle E input config w
    = (Throws (ErrorExn "OPENAI_API_KEY not configured"), w')
    ∧ store w' = store w.
Proof.
  intros Hids Hsome Hkey. unfold createArticle. rewrite Hids.
  unfold bind at 1. cbn [ret]. unfold bind at 1.
  rewrite loadAll_content by done.
  rewrite (createArticle_found_some input w ids Hids Hsome).
  unfold bind at 1. rewrite getOpenAI_run, Hkey.
  eexists. split; reflexivity.
Qed.

Lemma createArticle_model_fails input config w ids instr key e :
  contentIds input = Some ids →
  (∃ id, id ∈ ids ∧ is_Some (pieceAt (store w) id)) →
  instructions input = Some instr →
  apiKeyOf E config = Some key →
  chatCompletion E (tick w + length ids) key writerPersona
    (createPrompt instr
       (sourceBlock <$> omap (fun id => store w !! STORAGE_KEYS.content id) ids)
       (title input))
  = Rejects e →
  ∃ w', createArticle E input config w = (Throws e, w') ∧ store w' = store w.
Proof.
  intros Hids Hsome Hinstr Hkey Hfail. unfold createArticle. rewrite Hids.
  unfold bind at 1. cbn [ret]. unfold bind at 1.
  rewrite loadAll_content by done.
  rewrite (createArticle_found_some input w ids Hids Hsome).
  unfold bind at 1. rewrite getOpenAI_run, Hkey.
  unfold bind at 1. rewrite Hinstr. cbn [required ret].
  unfold bind at 1, await at 1. cbn [tick store]. rewrite Hfail.
  eexists. split; reflexivity.
Qed.

End CreateArticleFailures.

Lemma invoke_createArticle_throws E args conf w e w' :
  createArticle E args conf w = (Throws e, w') →
  invoke E (invocation "createArticle" args conf) w
  = (Ok (errorEnvelope (errorMessage e)), w').
Proof.
  intros Hrun. unfold invoke, invocation. cbn [storage].
  unfold try_catch, dispatch. cbn [action input config String.eqb Ascii.eqb Bool.eqb].
  by rewrite Hrun.
Qed.

Lemma putContent_other_keys c st key :
  (∀ id', key ≠ STORAGE_KEYS.content id') →
  putContent c st !! key = st !! key.
Proof.
  intros Hkey. unfold putContent.
  assert (H1 : STORAGE_KEYS.content (ContentPiece.id c) ≠ key)
    by (intros H; eapply Hkey; symmetry; exact H).
  assert (H2 : STORAGE_KEYS.contentIndex ≠ key)
    by (rewrite <- content_key_index; intros H; eapply Hkey; symmetry; exact H).
  destruct (includes _ _); rewrite ?lookup_insert_ne by done; reflexivity.
Qed.

Lemma article_key_not_content a b : STORAGE_KEYS.article a ≠ STORAGE_KEYS.content b.
Proof. intros H. cbv in H. discriminate. Qed.

Lemma articleIndex_not_content b : STORAGE_KEYS.articleIndex ≠ STORAGE_KEYS.content b.
Proof. intros H. cbv in H. discriminate. Qed.

Lemma sampleEnv_modelAnswers : modelAnswers sampleEnv.
Proof. intros n k s p. eexists. reflexivity. Qed.

Lemma sampleEnv_idsNeverReserved : idsNeverReserved sampleEnv.
Proof.
  intros n. cbn [randomHex sampleEnv]. unfold HexString.of_nat, HexString.of_N.
  destruct (N.of_nat n); discriminate.
Qed.

Lemma libraryWorld_no_articles key :
  (∀ id', key ≠ STORAGE_KEYS.content id') → store libraryWorld !! key = None.
Proof.
  intros Hkey. cbn [store libraryWorld].
  rewrite !putContent_other_keys by done. apply lookup_empty.
Qed.

Lemma libraryWorld_freshArticleIds : freshArticleIds sampleEnv (store libraryWorld).
Proof.
  intros n. split.
  - apply libraryWorld_no_articles. intros id'. apply article_key_not_content.
  - unfold indexList. rewrite libraryWorld_no_articles; [apply not_elem_of_nil |].
    intros id'. apply articleIndex_not_content.
Qed.

Lemma libraryWorld_articleIndex_array :
  holdsArray (store libraryWorld) STORAGE_KEYS.articleIndex.
Proof. vm_compute. exact I. Qed.

(** C5, as stated, fails when the model credential is missing: the one
    supplied id resolves to a stored piece, yet [createArticle] throws
    the configuration error and the store is as before: no article is
    written. *)
Lemma createArticle_without_credential_writes_nothing :
  pieceAt (store libraryWorld) (ContentPiece.id pieceA) = Some pieceA
  ∧ ∃ w',
      createArticle sampleEnv (createInput [ContentPiece.id pieceA] "Summarise." None)
                    None libraryWorld
      = (Throws (ErrorExn "OPENAI_API_KEY not configured"), w')
      ∧ store w' = store libraryWorld.
Proof.
  split; [reflexivity |]. eexists. split; vm_compute; reflexivity.
Qed.

(** The id ["index"] resolves although no content piece has it: the
    lookup returns the index array, which is truthy, and the article is
    written from a block of [undefined] fields. *)
Lemma createArticle_index_key_counts_as_content :
  let a := {| Article.id := "0x2";
              Article.title := "Untitled Article";
              Article.content := "A short article.";
              Article.sourceContentIds := ["index"];
              Article.instructions := "Summarise.";
              Article.version := 1;
              Article.createdAt := "2024-03-03T10:00:00.000Z";
              Article.updatedAt := "2024-03-03T10:00:00.000Z" |} in
  pieceAt (store libraryWorld) "index" = None
  ∧ ∃ w',
      createArticle sampleEnv (createInput ["index"] "Summarise." None)
                    (Some sampleConfig) libraryWorld
      = (Ok (createdEnvelope a), w')
      ∧ articleAt (store w') (Article.id a) = Some a.
Proof.
  split; [reflexivity |].
  eexists. split; vm_compute; reflexivity.
Qed.

(** C5 (amended).  When the store answers: if none of the supplied ids
    has a value under its content key, [createArticle] returns the
    passthrough error "No valid content pieces found" and the store is
    unchanged; if at least one id resolves to a content piece, the model
    credential is configured and the model answers, exactly one article
    is written: it is new, has version 1, is appended to the article
    index, and no other article and no key outside the article name
    space changes.  If at least one id resolves and no credential is
    configured, [createArticle] throws the configuration error; if the
    credential is configured and the model rejects the request,
    [createArticle] throws that rejection.  In both cases the store is
    unchanged and the dispatcher answers with the error envelope that
    carries the message. *)
Theorem createArticle_spec E input config w ids :
  reliable E →
  holdsArray (store w) STORAGE_KEYS.articleIndex →
  contentIds input = Some ids →
  (Forall (fun id => store w !! STORAGE_KEYS.content id = None) ids →
   ∃ w', createArticle E input config w = (Ok noValidContent, w')
         ∧ store w' = store w)
  ∧ ((∃ id, id ∈ ids ∧ is_Some (pieceAt (store w) id)) →
     modelAnswers E →
     idsNeverReserved E →
     freshArticleIds E (store w) →
     ∀ instr key,
       instructions input = Some instr →
       apiKeyOf E config = Some key →
       ∃ a w',
         createArticle E input config w = (Ok (createdEnvelope a), w')
         ∧ Article.version a = 1%Z
         ∧ articleAt (store w) (Article.id a) = None
         ∧ articleAt (store w') (Article.id a) = Some a
         ∧ (∀ id', id' ≠ Article.id a →
                   articleAt (store w') id' = articleAt (store w) id')
         ∧ indexList (store w') STORAGE_KEYS.articleIndex
           = (indexList (store w) STORAGE_KEYS.articleIndex ++ [Article.id a])%list
         ∧ (∀ k, (∀ id', k ≠ STORAGE_KEYS.article id') →
                 store w' !! k = store w !! k))
  ∧ ((∃ id, id ∈ ids ∧ is_Some (pieceAt (store w) id)) →
     apiKeyOf E config = None →
     ∃ w',
       createArticle E input config w
       = (Throws (ErrorExn "OPENAI_API_KEY not configured"), w')
       ∧ store w' = store w
       ∧ invoke E (invocation "createArticle" input config) w
         = (Ok (errorEnvelope "OPENAI_API_KEY not configured"), w'))
  ∧ ((∃ id, id ∈ ids ∧ is_Some (pieceAt (store w) id)) →
     ∀ instr key e,
       instructions input = Some instr →
       apiKeyOf E config = Some key →
       chatCompletion E (tick w + length ids) key writerPersona
         (createPrompt instr
            (sourceBlock <$> omap (fun id => store w !! STORAGE_KEYS.content id) ids)
            (title input))
       = Rejects e →
       ∃ w',
         createArticle E input config w = (Throws e, w')
         ∧ store w' = store w
         ∧ invoke E (invocation "createArticle" input config) w
           = (Ok (errorEnvelope (errorMessage e)), w')).
Proof.
  intros Hrel Harr Hids. split; [| split; [| split]].
  - intros Hnone. by eapply createArticle_nothing_found.
  - intros Hsome Hchat Hres Hfresh instr key Hinstr Hkey.
    destruct (createArticle_writes E Hrel input config w ids instr key
                Hchat Hres Hfresh Harr Hids Hinstr Hkey Hsome)
      as (a & w' & Hrun & Hv & _ & _ & Hnew & Hat & Hothers & Hidx & Hkeys).
    exists a, w'. repeat split; assumption.
  - intros Hsome Hkey.
    destruct (createArticle_without_credential E Hrel input config w ids
                Hids Hsome Hkey) as (w' & Hrun & Hstore).
    exists w'. split; [exact Hrun |]. split; [exact Hstore |].
    exact (invoke_createArticle_throws E input config w _ w' Hrun).
  - intros Hsome instr key e Hinstr Hkey Hfail.
    destruct (createArticle_model_fails E Hrel input config w ids instr key e
                Hids Hsome Hinstr Hkey Hfail) as (w' & Hrun & Hstore).
    exists w'. split; [exact Hrun |]. split; [exact Hstore |].
    exact (invoke_createArticle_throws E input config w e w' Hrun).
Qed.

Lemma offlineEnv_reliable : reliable offlineEnv.
Proof. intros n. reflexivity. Qed.

Lemma createArticle_spec_witness :
  (∃ w', createArticle sampleEnv (createInput ["feedfacefeedface"] "Summarise." None)
                       (Some sampleConfig) libraryWorld
         = (Ok noValidContent, w'))
  ∧ (∃ a w',
       createArticle sampleEnv
                     (createInput [ContentPiece.id pieceA] "Summarise." None)
                     (Some sampleConfig) libraryWorld
       = (Ok (createdEnvelope a), w')
       ∧ Article.version a = 1%Z
       ∧ articleAt (store w') (Article.id a) = Some a)
  ∧ (∃ w',
       invoke sampleEnv
              (invocation "createArticle"
                          (createInput [ContentPiece.id pieceA] "Summarise." None) None)
              libraryWorld
       = (Ok (errorEnvelope "OPENAI_API_KEY not configured"), w')
       ∧ store w' = store libraryWorld)
  ∧ (∃ w',
       invoke offlineEnv
              (invocation "createArticle"
                          (createInput [ContentPiece.id pieceA] "Summarise." None)
                          (Some sampleConfig))
              libraryWorld
       = (Ok (errorEnvelope "Connection error."), w')
       ∧ store w' = store libraryWorld).
Proof.
  assert (Hsome : ∃ id, id ∈ [ContentPiece.id pieceA]
                        ∧ is_Some (pieceAt (store libraryWorld) id))
    by exact (ex_intro _ (ContentPiece.id pieceA)
                (conj (list_elem_of_here _ _) (ex_intro _ pieceA eq_refl))).
  split; [| split; [| split]].
  - destruct (createArticle_spec sampleEnv
                (createInput ["feedfacefeedface"] "Summarise." None)
                (Some sampleConfig) libraryWorld ["feedfacefeedface"]
                sampleEnv_reliable libraryWorld_articleIndex_array eq_refl) as [H _].
    destruct H as (w' & Hrun & _).
    { repeat constructor. }
    exists w'. exact Hrun.
  - destruct (createArticle_spec sampleEnv
                (createInput [ContentPiece.id pieceA] "Summarise." None)
                (Some sampleConfig) libraryWorld [ContentPiece.id pieceA]
                sampleEnv_reliable libraryWorld_articleIndex_array eq_refl)
      as (_ & H & _).
    destruct (H Hsome sampleEnv_modelAnswers sampleEnv_idsNeverReserved
                libraryWorld_freshArticleIds "Summarise." "sk-test" eq_refl eq_refl)
      as (a & w' & Hrun & Hv & _ & Hat & _).
    exists a, w'. repeat split; assumption.
  - destruct (createArticle_spec sampleEnv
                (createInput [ContentPiece.id pieceA] "Summarise." None)
                None libraryWorld [ContentPiece.id pieceA]
                sampleEnv_reliable libraryWorld_articleIndex_array eq_refl)
      as (_ & _ & H & _).
    destruct (H Hsome eq_refl) as (w' & _ & Hstore & Hrun).
    exists w'. split; assumption.
  - destruct (createArticle_spec offlineEnv
                (createInput [ContentPiece.id pieceA] "Summarise." None)
                (Some sampleConfig) libraryWorld [ContentPiece.id pieceA]
                offlineEnv_reliable libraryWorld_articleIndex_array eq_refl)
      as (_ & _ & _ & H).
    destruct (H Hsome "Summarise." "sk-test" (ErrorExn "Connection error.")
                eq_refl eq_refl eq_refl) as (w' & _ & Hstore & Hrun).
    exists w'. split; assumption.
Defined.

(** C8.  Whenever [createArticle] succeeds in writing an article, the
    stored article's [sourceContentIds] is the supplied [contentIds] list
    as it is: ids that did not resolve and repeated ids included. *)
Theorem createArticle_keeps_contentIds E input config w r w' :
  createArticle E input config w = (Ok r, w') →
  r ≠ noValidContent →
  ∃ a ids,
    contentIds input = Some ids
    ∧ r = createdEnvelope a
    ∧ store w' !! STORAGE_KEYS.article (Article.id a) = Some (VArticle a)
    ∧ Article.sourceContentIds a = ids.
Proof.
  intros Hrun Hr. apply createArticle_inv in Hrun as [Hnone | H]; [contradiction |].
  destruct H as (a & ids & Hids & Hre & Hat & Hsrc & _).
  exists a, ids. repeat split; assumption.
Qed.

Lemma createArticle_keeps_contentIds_witness :
  ∃ a w',
    snd (createArticle sampleEnv
           (createInput [ContentPiece.id pieceA; "feedfacefeedface"; ContentPiece.id pieceA]
                        "Summarise." None)
           (Some sampleConfig) libraryWorld) = w'
    ∧ store w' !! STORAGE_KEYS.article (Article.id a) = Some (VArticle a)
    ∧ Article.sourceContentIds a
      = [ContentPiece.id pieceA; "feedfacefeedface"; ContentPiece.id pieceA].
Proof.
  eassert (Hrun : createArticle sampleEnv
                    (createInput [ContentPiece.id pieceA; "feedfacefeedface";
                                  ContentPiece.id pieceA] "Summarise." None)
                    (Some sampleConfig) libraryWorld = (Ok _, _))
    by (vm_compute; reflexivity).
  destruct (createArticle_keeps_contentIds _ _ _ _ _ _ Hrun)
    as (a & ids & Hids & _ & Hat & Hsrc).
  { discriminate. }
  exists a. eexists. rewrite Hrun. split; [reflexivity |].
  split; [exact Hat |]. rewrite Hsrc. injection Hids as <-. reflexivity.
Defined.

(** [[...new Set(l)]] has the elements of [l], each once. *)
Lemma spreadSet_from_spec seen l :
  NoDup (spreadSet_from seen l)
  ∧ ∀ x, x ∈ spreadSet_from seen l ↔ x ∈ l ∧ x ∉ seen.
Proof.
  revert seen. induction l as [|y l IH]; intros seen; cbn [spreadSet_from].
  - split; [constructor |]. intros x. split; [inversion 1 | intros [H _]; inversion H].
  - destruct (includes seen y) eqn:Hy.
    + apply includes_spec in Hy. destruct (IH seen) as [Hnd Hel].
      split; [exact Hnd |]. intros x. rewrite Hel, elem_of_cons.
      split; [intros [? ?]; auto |].
      intros [[-> | Hx] Hs]; [contradiction | auto].
    + apply includes_false in Hy. destruct (IH (y :: seen)) as [Hnd Hel].
      split.
      * constructor; [| exact Hnd]. rewrite Hel, elem_of_cons. intros [_ H]. auto.
      * intros x. rewrite !elem_of_cons, Hel, elem_of_cons.
        split.
        -- intros [-> | [Hx Hs]]; [auto | split; auto].
        -- intros [[-> | Hx] Hs]; [auto |].
           destruct (decide (x = y)) as [-> | Hne]; [auto | right; split; auto].
           intros [? | ?]; contradiction.
Qed.

Lemma spreadSet_NoDup l : NoDup (spreadSet l).
Proof. apply spreadSet_from_spec. Qed.

Lemma spreadSet_elem l x : x ∈ spreadSet l ↔ x ∈ l.
Proof.
  unfold spreadSet. destruct (spreadSet_from_spec [] l) as [_ H]. rewrite H.
  split; [by intros [? _] | intros ?; split; [done | apply not_elem_of_nil]].
Qed.

Section UpdateArticle.
Context (E : Env) (Hrel : reliable E).

Lemma updateArticle_missing input config w :
  store w !! STORAGE_KEYS.article (interpolate (articleId input)) = None →
  updateArticle E input config w = (Ok articleNotFound, bump w).
Proof.
  intros Hnone. unfold updateArticle, getArticle, bind.
  rewrite storage_get_run by done. rewrite Hnone. reflexivity.
Qed.

Lemma updateArticle_revises input config w id a key :
  modelAnswers E →
  holdsArray (store w) STORAGE_KEYS.articleIndex →
  articleId input = Some id →
  articleAt (store w) id = Some a →
  Article.id a = id →
  apiKeyOf E config = Some key →
  ∃ completion n w',
    updateArticle E input config w
    = (Ok (revisedEnvelope
             (revised a completion (or_array (additionalContentIds input))
                      (toISOString E n))), w')
    ∧ (tick w ≤ n)%nat
    ∧ chatCompletion E (tick w + 1 + length (or_array (additionalContentIds input)))
        key editorPersona
        (revisionPrompt (Some (Article.content a)) (instructions input)
           (sourceBlock <$> omap (fun i => store w !! STORAGE_KEYS.content i)
                                 (or_array (additionalContentIds input))))
      = Fulfils completion
    ∧ store w'
      = putArticle (revised a completion (or_array (additionalContentIds input))
                            (toISOString E n)) (store w).
Proof.
  intros Hchat Harr Hinput Hat Hid Hkey.
  assert (Hne : id ≠ "index").
  { intros ->. unfold articleAt in Hat. rewrite article_key_index in Hat.
    unfold holdsArray in Harr.
    destruct (store w !! STORAGE_KEYS.articleIndex) as [[?|?|?]|];
      simpl in Hat; try discriminate; contradiction. }
  unfold updateArticle, getArticle. rewrite Hinput. cbn [interpolate].
  unfold bind at 1. rewrite storage_get_run by done.
  unfold articleAt in Hat.
  destruct (store w !! STORAGE_KEYS.article id) as [[c|a0|l]|] eqn:Hst;
    simpl in Hat; try discriminate.
  injection Hat as ->.
  unfold bind at 1. rewrite loadAll_content by done.
  unfold bind at 1. rewrite getOpenAI_run, Hkey.
  unfold bind at 1, await at 1. cbn [store tick bump contentOf].
  match goal with |- context [chatCompletion E ?n ?k ?s ?p] =>
    destruct (Hchat n k s p) as [completion Hc]
  end.
  rewrite Hc.
  unfold bind at 1, currentTime, event. cbn [bump store tick].
  unfold bind at 1.
  match goal with |- context [setArticle E ?art ?w0] =>
    destruct (setArticle_run E Hrel art w0) as (t & _ & Hrun)
  end.
  { apply holdsArray_insert_article; [cbn; congruence | exact Harr]. }
  rewrite Hrun. cbn [ret].
  match goal with
  | |- context [putArticle {| Article.id := _; Article.title := _;
                              Article.content := _; Article.sourceContentIds := _;
                              Article.instructions := _; Article.version := _;
                              Article.createdAt := _;
                              Article.updatedAt := toISOString E ?m |}] =>
      exists completion, m
  end.
  eexists. split; [reflexivity |].
  split; [cbn; lia |]. split; [| reflexivity].
  rewrite <- Hc. f_equal. cbn. lia.
Qed.
End UpdateArticle.

Lemma modelAnswersEmpty_answers E : modelAnswersEmpty E → modelAnswers E.
Proof. intros H n k s p. destruct (H n k s p) as [-> | ->]; eauto. Qed.

(** A revision of a stored article: the version grows by exactly one,
    the time stamp is read from the clock during the call, the sources
    are untouched without additional ids and become the duplicate-free
    union with them, and the stored record is the revised article. *)
Lemma updateArticle_existing E input config w id a key :
  reliable E →
  modelAnswers E →
  holdsArray (store w) STORAGE_KEYS.articleIndex →
  articleId input = Some id →
  articleAt (store w) id = Some a →
  Article.id a = id →
  apiKeyOf E config = Some key →
  ∃ a' n w',
    updateArticle E input config w = (Ok (revisedEnvelope a'), w')
    ∧ articleAt (store w') id = Some a'
    ∧ Article.version a' = (Article.version a + 1)%Z
    ∧ (tick w ≤ n)%nat ∧ Article.updatedAt a' = toISOString E n
    ∧ (or_array (additionalContentIds input) = [] →
       Article.sourceContentIds a' = Article.sourceContentIds a)
    ∧ (or_array (additionalContentIds input) ≠ [] →
       NoDup (Article.sourceContentIds a')
       ∧ ∀ x, x ∈ Article.sourceContentIds a'
              ↔ x ∈ Article.sourceContentIds a
                ∨ x ∈ or_array (additionalContentIds input)).
Proof.
  intros Hrel Hchat Harr Hinput Hat Hid Hkey.
  destruct (updateArticle_revises E Hrel input config w id a key
              Hchat Harr Hinput Hat Hid Hkey)
    as (completion & n & w' & Hrun & Hn & _ & Hst).
  set (a' := revised a completion (or_array (additionalContentIds input))
                     (toISOString E n)) in *.
  assert (Hne : Article.id a' ≠ "index").
  { cbn. rewrite Hid. intros ->. unfold articleAt in Hat.
    rewrite article_key_index in Hat. unfold holdsArray in Harr.
    destruct (store w !! STORAGE_KEYS.articleIndex) as [[?|?|?]|];
      simpl in Hat; try discriminate; contradiction. }
  exists a', n, w'. split; [exact Hrun |].
  split. { rewrite Hst, putArticle_lookup by done. rewrite decide_True; cbn; done. }
  split; [reflexivity |]. split; [exact Hn |]. split; [reflexivity |].
  split.
  - intros Hnil. cbn. rewrite Hnil. reflexivity.
  - intros Hcons. cbn. rewrite bool_decide_eq_true_2.
    2:{ destruct (or_array _); [done | simpl; lia]. }
    split; [apply spreadSet_NoDup |].
    intros x. rewrite spreadSet_elem, elem_of_app. reflexivity.
Qed.

(** C9.  When the model's message has no content (absent or empty), a
    revision of a stored article still succeeds: the stored content is
    the previous content, the version is one higher and the time stamp
    is read anew. *)
Theorem updateArticle_empty_revision E input config w id a key :
  reliable E →
  modelAnswersEmpty E →
  holdsArray (store w) STORAGE_KEYS.articleIndex →
  articleId input = Some id →
  articleAt (store w) id = Some a →
  Article.id a = id →
  apiKeyOf E config = Some key →
  ∃ a' n w',
    updateArticle E input config w = (Ok (revisedEnvelope a'), w')
    ∧ articleAt (store w') id = Some a'
    ∧ Article.content a' = Article.content a
    ∧ Article.version a' = (Article.version a + 1)%Z
    ∧ (tick w ≤ n)%nat
    ∧ Article.updatedAt a' = toISOString E n.
Proof.
  intros Hrel Hempty Harr Hinput Hat Hid Hkey.
  destruct (updateArticle_revises E Hrel input config w id a key
              (modelAnswersEmpty_answers E Hempty) Harr Hinput Hat Hid Hkey)
    as (completion & n & w' & Hrun & Hn & Hc & Hst).
  set (a' := revised a completion (or_array (additionalContentIds input))
                     (toISOString E n)) in *.
  assert (Hne : Article.id a' ≠ "index").
  { cbn. rewrite Hid. intros ->. unfold articleAt in Hat.
    rewrite article_key_index in Hat. unfold holdsArray in Harr.
    destruct (store w !! STORAGE_KEYS.articleIndex) as [[?|?|?]|];
      simpl in Hat; try discriminate; contradiction. }
  exists a', n, w'. split; [exact Hrun |].
  split. { rewrite Hst, putArticle_lookup by done. rewrite decide_True; cbn; done. }
  split.
  { cbn. match type of Hc with chatCompletion E ?m ?k ?s ?p = _ =>
           destruct (Hempty m k s p) as [He | He]; rewrite He in Hc
         end; injection Hc as <-; reflexivity. }
  split; [reflexivity |]. split; [exact Hn | reflexivity].
Qed.

Lemma deskWorld_articleIndex_array :
  holdsArray (store deskWorld) STORAGE_KEYS.articleIndex.
Proof. vm_compute. exact I. Qed.

Lemma silentEnv_reliable : reliable silentEnv.
Proof. intros n. reflexivity. Qed.

Lemma silentEnv_empty : modelAnswersEmpty silentEnv.
Proof. intros n k s p. left. reflexivity. Qed.

Lemma updateArticle_empty_revision_witness :
  ∃ a' w',
    updateArticle silentEnv (updateInput (Article.id articleA) "Shorten." None)
                  (Some sampleConfig) deskWorld
    = (Ok (revisedEnvelope a'), w')
    ∧ Article.content a' = "A first draft."
    ∧ Article.version a' = 2%Z.
Proof.
  destruct (updateArticle_empty_revision silentEnv
              (updateInput (Article.id articleA) "Shorten." None)
              (Some sampleConfig) deskWorld (Article.id articleA) articleA "sk-test"
              silentEnv_reliable silentEnv_empty deskWorld_articleIndex_array
              eq_refl eq_refl eq_refl eq_refl)
    as (a' & n & w' & Hrun & _ & Hcontent & Hversion & _).
  exists a', w'. split; [exact Hrun |]. split; [exact Hcontent | exact Hversion].
Defined.

(** C4.  A nonexistent articleId does not always yield the passthrough
    error: [article:index] is the record key of the id ["index"].  With
    one article stored and no article of id ["index"],
    [updateArticle {articleId: "index"}] takes the index array for the
    article: without a credential it throws the configuration error,
    which the dispatcher turns into a template error envelope; with a
    credential it sends a revision request to the model and goes on
    with an array in place of the article.  An id under whose key
    nothing is stored gets the passthrough error. *)
Theorem updateArticle_index_key_is_found :
  articleAt (store deskWorld) "index" = None
  ∧ (∃ w', updateArticle sampleEnv (updateInput "index" "Shorten." None) None deskWorld
           = (Throws (ErrorExn "OPENAI_API_KEY not configured"), w'))
  ∧ (∃ w', invoke sampleEnv
             {| action := "updateArticle";
                input := updateInput "index" "Shorten." None;
                storage := Some gatewayStorage;
                config := None |} deskWorld
           = (Ok (errorEnvelope "OPENAI_API_KEY not configured"), w'))
  ∧ (∃ w', updateArticle sampleEnv (updateInput "index" "Shorten." None)
             (Some sampleConfig) deskWorld
           = (Miscast, w') ∧ tick w' = 2)
  ∧ (∃ w', updateArticle sampleEnv (updateInput "feedfacefeedface" "Shorten." None)
             (Some sampleConfig) deskWorld
           = (Ok articleNotFound, w')).
Proof.
  split; [reflexivity |].
  split; [eexists; vm_compute; reflexivity |].
  split; [eexists; vm_compute; reflexivity |].
  split; [eexists; split; vm_compute; reflexivity |].
  eexists; vm_compute; reflexivity.
Qed.

(* ===================================================================== *)
(** ** C6: addInspiration *)
(* ===================================================================== *)

Lemma holdsArray_pieceAt_index st :
  holdsArray st STORAGE_KEYS.contentIndex → pieceAt st "index" = None.
Proof.
  unfold holdsArray, pieceAt. rewrite content_key_index.
  by destruct (st !! STORAGE_KEYS.contentIndex) as [[?|?|?]|].
Qed.

Lemma holdsArray_insert_content st id v :
  id ≠ "index" →
  holdsArray st STORAGE_KEYS.contentIndex →
  holdsArray (<[STORAGE_KEYS.content id := v]> st) STORAGE_KEYS.contentIndex.
Proof.
  intros Hne. unfold holdsArray. rewrite lookup_insert_ne; [done |].
  intros H. apply Hne, content_key_is_index, H.
Qed.

Lemma holdsArray_insert_index st key ids :
  holdsArray (<[key := VIndex ids]> st) key.
Proof. unfold holdsArray. by rewrite lookup_insert_eq. Qed.

Lemma putContent_holdsArray p st :
  ContentPiece.id p ≠ "index" →
  holdsArray st STORAGE_KEYS.contentIndex →
  holdsArray (putContent p st) STORAGE_KEYS.contentIndex.
Proof.
  intros Hne Harr. unfold putContent. destruct (includes _ _).
  - by apply holdsArray_insert_content.
  - apply holdsArray_insert_index.
Qed.

Lemma putContent_lookup p st id' :
  ContentPiece.id p ≠ "index" →
  holdsArray st STORAGE_KEYS.contentIndex →
  pieceAt (putContent p st) id'
  = if decide (id' = ContentPiece.id p) then Some p else pieceAt st id'.
Proof.
  intros Hne Harr. unfold putContent. destruct (includes _ _).
  - rewrite pieceAt_insert_content.
    destruct (decide (ContentPiece.id p = id')) as [<-|Hd].
    + by rewrite decide_True.
    + by rewrite decide_False by congruence.
  - rewrite pieceAt_insert_index, pieceAt_insert_content.
    destruct (decide (id' = "index")) as [->|Hi].
    + rewrite decide_False by congruence. by rewrite holdsArray_pieceAt_index.
    + destruct (decide (ContentPiece.id p = id')) as [<-|Hd].
      * by rewrite decide_True.
      * by rewrite decide_False by congruence.
Qed.

Lemma putContent_index p st :
  ContentPiece.id p ≠ "index" →
  indexList (putContent p st) STORAGE_KEYS.contentIndex
  = if includes (indexList st STORAGE_KEYS.contentIndex) (ContentPiece.id p)
    then indexList st STORAGE_KEYS.contentIndex
    else (indexList st STORAGE_KEYS.contentIndex ++ [ContentPiece.id p])%list.
Proof.
  intros Hne. unfold putContent. rewrite indexList_insert_content by done.
  destruct (includes _ _).
  - by rewrite indexList_insert_content.
  - by rewrite indexList_insert_index.
Qed.

Lemma putContent_persisted p st :
  ContentPiece.id p ≠ "index" →
  holdsArray st STORAGE_KEYS.contentIndex →
  persisted (putContent p st) p.
Proof.
  intros Hne Harr. split.
  - rewrite putContent_lookup by done. by rewrite decide_True.
  - rewrite putContent_index by done.
    destruct (includes _ _) eqn:Hinc.
    + by apply includes_spec.
    + apply elem_of_app. right. apply list_elem_of_here.
Qed.

Lemma writes_refl p st : holdsArray st STORAGE_KEYS.contentIndex → writes p st st.
Proof. intros H. by split. Qed.

Lemma writes_record p st :
  ContentPiece.id p ≠ "index" →
  holdsArray st STORAGE_KEYS.contentIndex →
  writes p st (<[STORAGE_KEYS.content (ContentPiece.id p) := VPiece p]> st).
Proof.
  intros Hne Harr. split; [by apply holdsArray_insert_content |]. split.
  - intros id' Hid'. rewrite pieceAt_insert_content.
    by rewrite decide_False by congruence.
  - intros id'. by rewrite indexList_insert_content.
Qed.

Lemma writes_putContent p st :
  ContentPiece.id p ≠ "index" →
  holdsArray st STORAGE_KEYS.contentIndex →
  writes p st (putContent p st).
Proof.
  intros Hne Harr. split; [by apply putContent_holdsArray |]. split.
  - intros id' Hid'. rewrite putContent_lookup by done.
    by rewrite decide_False.
  - intros id' Hin. rewrite putContent_index by done.
    destruct (includes _ _); [done |]. apply elem_of_app. by left.
Qed.

Section FeedLoop.
Context (E : Env) (tags : list string).

(** One [setContent]: it completes with [putContent], or the store
    rejected one of its calls; either way only the record of the piece
    changes and the index only grows. *)
Lemma setContent_step c w :
  ContentPiece.id c ≠ "index" →
  holdsArray (store w) STORAGE_KEYS.contentIndex →
  ∃ outcome w',
    setContent E c w = (outcome, w')
    ∧ tick w < tick w'
    ∧ writes c (store w) (store w')
    ∧ ((outcome = Ok tt ∧ store w' = putContent c (store w))
       ∨ ∃ e n, outcome = Throws e ∧ (tick w ≤ n)%nat ∧ storageFault E n = Some e).
Proof.
  intros Hne Harr.
  pose proof (writes_putContent c (store w) Hne Harr) as Hput.
  pose proof (writes_record c (store w) Hne Harr) as Hrec.
  pose proof (holdsArray_insert_content (store w) _ (VPiece c) Hne Harr) as Harr1.
  unfold setContent, getContentIndex, setContentIndex, storage_set, storage_get,
    storage_call, bind.
  destruct (storageFault E (tick w)) as [e|] eqn:Hf1.
  { do 2 eexists. split; [reflexivity |]. cbn [store tick bump].
    split; [lia |]. split; [by apply writes_refl |].
    right. exists e, (tick w). split; [done |]. split; [lia | done]. }
  cbn [store tick bump].
  destruct (storageFault E (S (tick w))) as [e|] eqn:Hf2.
  { do 2 eexists. split; [reflexivity |]. cbn [store tick bump].
    split; [lia |]. split; [exact Hrec |].
    right. exists e, (S (tick w)). split; [done |]. split; [lia | done]. }
  cbn [store tick bump].
  rewrite (asArray_run _ _ _ _ Harr1).
  unfold putContent in Hput |- *.
  destruct (includes _ _); cbn [negb ret].
  - do 2 eexists. split; [reflexivity |]. cbn [store tick].
    split; [lia |]. split; [exact Hput |]. by left.
  - cbn [store tick].
    destruct (storageFault E (S (S (tick w)))) as [e|] eqn:Hf3.
    + do 2 eexists. split; [reflexivity |]. cbn [store tick bump].
      split; [lia |]. split; [exact Hrec |].
      right. exists e, (S (S (tick w))). split; [done |]. split; [lia | done].
    + do 2 eexists. split; [reflexivity |]. cbn [store tick].
      split; [lia |]. split; [exact Hput |]. by left.
Qed.

(** One iteration of the feed loop. *)
Lemma storeFeedItem_step item w :
  randomHex E (tick w) ≠ "index" →
  holdsArray (store w) STORAGE_KEYS.contentIndex →
  let p := feedPiece E tags (tick w) item in
  ∃ outcome w',
    storeFeedItem E tags item w = (outcome, w')
    ∧ tick w + 2 < tick w'
    ∧ writes p (store w) (store w')
    ∧ ((outcome = Ok tt ∧ store w' = putContent p (store w))
       ∨ ∃ e n, outcome = Throws e ∧ (tick w ≤ n)%nat ∧ storageFault E n = Some e).
Proof.
  intros Hne Harr p.
  destruct (setContent_step p (bump (bump w)) Hne Harr)
    as (outcome & w' & Hrun & Htick & Hw & Hout).
  exists outcome, w'. split.
  { unfold storeFeedItem, generateId, currentTime, event, bind. exact Hrun. }
  cbn [tick bump store] in *. split; [lia |]. split; [exact Hw |].
  destruct Hout as [Hok | (e & n & He & Hn & Hf)]; [by left |].
  right. exists e, n. split; [done |]. split; [lia | done].
Qed.

(** The loop over the feed items.  [ns] are the events at which the
    ids of the completed iterations were generated. *)
Lemma feed_loop items :
  idsNeverRepeat E →
  idsNeverReserved E →
  ∀ w,
  holdsArray (store w) STORAGE_KEYS.contentIndex →
  ∃ ns outcome w',
    forEach items (storeFeedItem E tags) w = (outcome, w')
    ∧ (tick w ≤ tick w')%nat
    ∧ holdsArray (store w') STORAGE_KEYS.contentIndex
    ∧ Forall (fun n => (tick w ≤ n)%nat ∧ n < tick w') ns
    ∧ NoDup ns
    ∧ Forall (persisted (store w')) (zip_with (feedPiece E tags) ns items)
    ∧ (∀ id' c, (∀ n, (tick w ≤ n)%nat → randomHex E n ≠ id') →
                pieceAt (store w) id' = Some c → pieceAt (store w') id' = Some c)
    ∧ (∀ id', id' ∈ indexList (store w) STORAGE_KEYS.contentIndex →
              id' ∈ indexList (store w') STORAGE_KEYS.contentIndex)
    ∧ ((outcome = Ok tt
        ∧ length ns = length items
        ∧ (freshContentIds E w →
           indexList (store w') STORAGE_KEYS.contentIndex
           = (indexList (store w) STORAGE_KEYS.contentIndex
              ++ (randomHex E <$> ns))%list))
       ∨ (∃ e n wk item,
            outcome = Throws e
            ∧ (tick w ≤ n)%nat ∧ storageFault E n = Some e
            ∧ length ns < length items
            ∧ forEach (take (length ns) items) (storeFeedItem E tags) w = (Ok tt, wk)
            ∧ items !! length ns = Some item
            ∧ storeFeedItem E tags item wk = (Throws e, w'))).
Proof.
  intros Hinj Hres. induction items as [|item rest IH]; intros w Harr.
  - exists [], (Ok tt), w. split; [reflexivity |]. split; [lia |].
    split; [exact Harr |]. split; [constructor |]. split; [constructor |].
    split; [constructor |]. split; [auto |]. split; [auto |].
    left. split; [reflexivity |]. split; [reflexivity |].
    intros _. simpl. by rewrite app_nil_r.
  - destruct (storeFeedItem_step item w (Hres _) Harr)
      as (outcome1 & w1 & Hrun1 & Htick1 & (Harr1 & Hrec1 & Hidx1) & Hout1).
    set (p := feedPiece E tags (tick w) item) in *.
    assert (Hpid : ContentPiece.id p = randomHex E (tick w)) by reflexivity.
    assert (Hkeep : ∀ id' c, (∀ n, (tick w ≤ n)%nat → randomHex E n ≠ id') →
                             pieceAt (store w) id' = Some c →
                             pieceAt (store w1) id' = Some c).
    { intros id' c Hgen Hat. rewrite Hrec1; [exact Hat |].
      rewrite Hpid. intros ->. by apply (Hgen (tick w)). }
    destruct Hout1 as [[-> Hst1] | (e & n & -> & Hn & Hf)].
    + destruct (IH w1 Harr1)
        as (ns & outcome & w' & Hrun & Htick & Harr' & Hbounds & Hnd & Hpers
            & Hkeep' & Hidx' & Hout).
      exists (tick w :: ns), outcome, w'.
      split. { cbn [forEach]. unfold bind. rewrite Hrun1. exact Hrun. }
      split; [lia |]. split; [exact Harr' |].
      split.
      { constructor; [lia |]. eapply Forall_impl; [exact Hbounds |].
        simpl. intros n [? ?]. lia. }
      split.
      { constructor; [| exact Hnd]. intros Hin.
        rewrite Forall_forall in Hbounds. apply Hbounds in Hin. lia. }
      split.
      { cbn [zip_with]. constructor; [| exact Hpers]. fold p.
        assert (Hp1 : persisted (store w1) p).
        { rewrite Hst1. apply putContent_persisted; [apply Hres | exact Harr]. }
        destruct Hp1 as [Hat Hin]. split; [| by apply Hidx'].
        apply Hkeep'; [| exact Hat].
        intros n Hn Heq. rewrite Hpid in Heq. apply Hinj in Heq. lia. }
      split.
      { intros id' c Hgen Hat. apply Hkeep'; [| by eapply Hkeep].
        intros n Hn. apply Hgen. lia. }
      split; [auto |].
      destruct Hout as [(-> & Hlen & Hfresh) | (e & n & wk & it & -> & Hn & Hf & Hlen & Hpre & Hit & Hthrow)].
      * left. split; [reflexivity |]. split; [simpl; by rewrite Hlen |].
        intros Hfr. rewrite Hfresh.
        -- rewrite Hst1, putContent_index by apply Hres. fold p.
           rewrite (proj2 (includes_false _ _)).
           ++ cbn [fmap list_fmap]. by rewrite <- app_assoc.
           ++ rewrite Hpid. by apply Hfr.
        -- intros n Hn. rewrite Hst1, putContent_index by apply Hres.
           destruct (includes _ _); [apply Hfr; lia |].
           rewrite elem_of_app, list_elem_of_singleton. intros [Hin | Heq].
           ++ revert Hin. apply Hfr. lia.
           ++ rewrite Hpid in Heq. apply Hinj in Heq. lia.
      * right. exists e, n, wk, it. split; [reflexivity |].
        split; [lia |]. split; [exact Hf |]. split; [simpl; lia |].
        split.
        { cbn [length take forEach]. unfold bind. rewrite Hrun1. exact Hpre. }
        split; [exact Hit | exact Hthrow].
    + exists [], (Throws e), w1.
      split. { cbn [forEach]. unfold bind. by rewrite Hrun1. }
      split; [lia |]. split; [exact Harr1 |]. split; [constructor |].
      split; [constructor |]. split; [constructor |].
      split; [exact Hkeep |]. split; [exact Hidx1 |].
      right. exists e, n, w, item. split; [reflexivity |].
      split; [exact Hn |]. split; [exact Hf |]. split; [simpl; lia |].
      split; [reflexivity |]. split; [reflexivity | exact Hrun1].
Qed.
End FeedLoop.

Lemma feedPieces_of_entries E tags (ns : list nat) (entries : list FeedEntry.t) :
  (length ns ≤ length entries)%nat →
  Forall2 (pieceOfEntry tags) (take (length ns) entries)
          (zip_with (feedPiece E tags) ns entries).
Proof.
  revert entries. induction ns as [|n ns IH]; intros [|entry entries] Hlen;
    simpl in *; try lia; constructor.
  - by repeat split.
  - apply IH. lia.
Qed.

Lemma feedPieces_ids E tags (ns : list nat) (entries : list FeedEntry.t) :
  length ns = length entries →
  ContentPiece.id <$> zip_with (feedPiece E tags) ns entries = randomHex E <$> ns.
Proof.
  revert entries. induction ns as [|n ns IH]; intros [|entry entries] Hlen;
    simpl in *; try lia; [reflexivity |].
  f_equal. apply IH. lia.
Qed.

Lemma detectUrlType_world E u w r w1 :
  detectUrlType E u w = (r, w1) → w1 = bump w ∧ (r = Ok feed ∨ r = Ok single).
Proof.
  unfold detectUrlType, try_catch, bind, await.
  destruct (parseURL E (tick w) u); cbn; intros [= <- <-]; auto.
Qed.

Lemma fetchFeedContent_world E u w r w1 :
  fetchFeedContent E u w = (r, w1) → w1 = bump w.
Proof.
  unfold fetchFeedContent, bind, await.
  destruct (parseURL E (tick w) u); cbn; by intros [= <- <-].
Qed.

Lemma fetchSingleContent_world E u w r w1 :
  fetchSingleContent E u w = (r, w1) → w1 = bump w.
Proof.
  unfold fetchSingleContent, bind, await.
  destruct (fetchPage E (tick w) u); cbn; by intros [= <- <-].
Qed.

Section AddInspiration.
Context (E : Env) (Hinj : idsNeverRepeat E) (Hres : idsNeverReserved E).

Lemma addInspiration_feed input w u w1 entries w2 :
  reliable E →
  freshContentIds E w →
  holdsArray (store w) STORAGE_KEYS.contentIndex →
  url input = Some u →
  detectUrlType E u w = (Ok feed, w1) →
  fetchFeedContent E u w1 = (Ok entries, w2) →
  ∃ pieces w',
    addInspiration E input w
    = (Ok (inspirationAdded "feed" (Z.of_nat (length entries))), w')
    ∧ Forall2 (pieceOfEntry (or_array (tags input))) entries pieces
    ∧ NoDup (ContentPiece.id <$> pieces)
    ∧ Forall (persisted (store w')) pieces
    ∧ indexList (store w') STORAGE_KEYS.contentIndex
      = (indexList (store w) STORAGE_KEYS.contentIndex
         ++ (ContentPiece.id <$> pieces))%list.
Proof.
  intros Hrel Hfresh Harr Hurl Hclass Hfetch.
  pose proof (detectUrlType_world _ _ _ _ _ Hclass) as [-> _].
  pose proof (fetchFeedContent_world _ _ _ _ _ Hfetch) as ->.
  set (tags := or_array (tags input)).
  destruct (feed_loop E tags entries Hinj Hres (bump (bump w)) Harr)
    as (ns & outcome & w' & Hrun & Htick & Harr' & Hbounds & Hnd & Hpers
        & _ & _ & Hout).
  destruct Hout as [(-> & Hlen & Hidx) | (e & n & _ & _ & _ & _ & Hf & _)].
  2:{ rewrite Hrel in Hf. discriminate. }
  exists (zip_with (feedPiece E tags) ns entries), w'.
  split.
  { unfold addInspiration, try_catch, addInspirationTry. rewrite Hurl.
    unfold bind at 1. cbn [required ret].
    unfold bind at 1. rewrite Hclass.
    unfold bind at 1. rewrite Hfetch.
    unfold bind at 1. fold tags. rewrite Hrun. reflexivity. }
  split.
  { pose proof (feedPieces_of_entries E tags ns entries) as H.
    rewrite Hlen, firstn_all in H. apply H. lia. }
  rewrite feedPieces_ids by done.
  split. { apply NoDup_fmap_2; [exact Hinj | exact Hnd]. }
  split; [exact Hpers |].
  apply Hidx. intros n Hn. apply Hfresh. cbn in Hn. lia.
Qed.

Lemma addInspiration_single input w u w1 page w2 :
  reliable E →
  freshContentIds E w →
  holdsArray (store w) STORAGE_KEYS.contentIndex →
  url input = Some u →
  detectUrlType E u w = (Ok single, w1) →
  fetchSingleContent E u w1 = (Ok page, w2) →
  ∃ n w',
    let p := pagePiece E (or_array (tags input)) n u page in
    addInspiration E input w = (Ok (inspirationAdded "single" 1), w')
    ∧ persisted (store w') p
    ∧ indexList (store w') STORAGE_KEYS.contentIndex
      = (indexList (store w) STORAGE_KEYS.contentIndex ++ [ContentPiece.id p])%list
    ∧ (∀ id', id' ≠ ContentPiece.id p → pieceAt (store w') id' = pieceAt (store w) id').
Proof.
  intros Hrel Hfresh Harr Hurl Hclass Hfetch.
  pose proof (detectUrlType_world _ _ _ _ _ Hclass) as [-> _].
  pose proof (fetchSingleContent_world _ _ _ _ _ Hfetch) as ->.
  set (tags := or_array (tags input)).
  set (p := pagePiece E tags (tick (bump (bump w))) u page).
  assert (Hne : ContentPiece.id p ≠ "index") by apply Hres.
  destruct (setContent_step E p (bump (bump (bump (bump w)))) Hne Harr)
    as (outcome & w' & Hrun & Htick & (_ & Hrec & _) & Hout).
  destruct Hout as [[-> Hst] | (e & n & _ & _ & Hf)].
  2:{ rewrite Hrel in Hf. discriminate. }
  exists (tick (bump (bump w))), w'. cbv zeta. fold tags p.
  split.
  { unfold addInspiration, try_catch, addInspirationTry. rewrite Hurl.
    unfold bind at 1. cbn [required ret].
    unfold bind at 1. rewrite Hclass.
    unfold bind at 1. rewrite Hfetch.
    unfold bind at 1, generateId, event.
    unfold bind at 1, currentTime, event.
    unfold bind at 1. fold tags. cbn [bump tick store] in *.
    unfold p, pagePiece in Hrun. cbn [bump tick store] in Hrun.
    rewrite Hrun. reflexivity. }
  cbn [store bump] in *.
  split. { rewrite Hst. by apply putContent_persisted. }
  split.
  { rewrite Hst, putContent_index by done.
    rewrite (proj2 (includes_false _ _)); [done |].
    apply Hfresh. cbn. lia. }
  exact Hrec.
Qed.

(** Whatever is thrown inside the [try] block ends as the error
    result, in the world the failing step left behind; in the feed loop
    that world still holds the pieces of all the items before the
    failing one. *)
Lemma addInspiration_failure input w e w' :
  addInspirationTry E input (or_array (tags input)) w = (Throws e, w') →
  addInspiration E input w = (Ok inspirationFailed, w').
Proof. intros H. unfold addInspiration, try_catch. by rewrite H. Qed.

Lemma addInspiration_feed_interrupted input w u w1 entries w2 e w' :
  holdsArray (store w) STORAGE_KEYS.contentIndex →
  url input = Some u →
  detectUrlType E u w = (Ok feed, w1) →
  fetchFeedContent E u w1 = (Ok entries, w2) →
  addInspirationTry E input (or_array (tags input)) w = (Throws e, w') →
  ∃ k pieces wk entry,
    k < length entries
    ∧ forEach (take k entries) (storeFeedItem E (or_array (tags input))) w2 = (Ok tt, wk)
    ∧ entries !! k = Some entry
    ∧ storeFeedItem E (or_array (tags input)) entry wk = (Throws e, w')
    ∧ Forall2 (pieceOfEntry (or_array (tags input))) (take k entries) pieces
    ∧ Forall (persisted (store w')) pieces.
Proof.
  intros Harr Hurl Hclass Hfetch Htry.
  pose proof (detectUrlType_world _ _ _ _ _ Hclass) as [-> _].
  pose proof (fetchFeedContent_world _ _ _ _ _ Hfetch) as ->.
  set (tags := or_array (tags input)) in *.
  destruct (feed_loop E tags entries Hinj Hres (bump (bump w)) Harr)
    as (ns & outcome & w'' & Hrun & Htick & Harr' & Hbounds & Hnd & Hpers
        & _ & _ & Hout).
  unfold addInspirationTry in Htry. rewrite Hurl in Htry.
  unfold bind at 1 in Htry. cbn [required ret] in Htry.
  unfold bind at 1 in Htry. rewrite Hclass in Htry.
  unfold bind at 1 in Htry. rewrite Hfetch in Htry.
  unfold bind at 1 in Htry. rewrite Hrun in Htry.
  destruct Hout as [(-> & _) | (e' & n & wk & entry & -> & _ & _ & Hlen & Hpre & Hentry & Hthrow)].
  { discriminate. }
  injection Htry as <- <-.
  exists (length ns), (zip_with (feedPiece E tags) ns entries), wk, entry.
  split; [exact Hlen |]. split; [exact Hpre |]. split; [exact Hentry |].
  split; [exact Hthrow |].
  split; [apply feedPieces_of_entries; lia | exact Hpers].
Qed.
End AddInspiration.

(** Classification never fails: a URL whose feed parse is rejected is a
    single page. *)
Lemma detectUrlType_never_throws E u w :
  ∃ type,
    detectUrlType E u w = (Ok type, bump w)
    ∧ (type = single ↔ ∃ e, parseURL E (tick w) u = Rejects e).
Proof.
  unfold detectUrlType, try_catch, bind, await.
  destruct (parseURL E (tick w) u) as [items | e]; cbn.
  - exists feed. split; [reflexivity |].
    split; [discriminate | intros [? ?]; discriminate].
  - exists single. split; [reflexivity |]. split; eauto.
Qed.

(** C6, as stated, fails for an exception during classification: the
    feed parse of [https://example.com] is rejected, classification
    absorbs the rejection and answers [single], and the result is the
    success result with [contentCount = 1], not the error result. *)
Lemma addInspiration_classification_failure_is_single :
  parseURL sampleEnv (tick emptyWorld) pageUrl = Rejects (ErrorExn "Status code 404")
  ∧ ∃ w',
      addInspiration sampleEnv (addInput pageUrl (Some ["t"])) emptyWorld
      = (Ok (inspirationAdded "single" 1), w')
      ∧ agentNumber "contentCount" (inspirationAdded "single" 1) = Some 1%Z
      ∧ inspirationAdded "single" 1 ≠ inspirationFailed.
Proof.
  split; [reflexivity |].
  eexists. split; [vm_compute; reflexivity |].
  split; [reflexivity | discriminate].
Qed.

(** C6 (amended).  With a generator that never repeats an id and never
    produces ["index"]: a URL classified as a feed gives one stored
    piece per extracted item, each with the shared tags and the type
    [feed], and the success result with [contentCount] the number of
    items; a URL classified as single gives exactly one stored piece and
    the success result with [contentCount = 1]; whatever is thrown by a
    step of the [try] block (extraction or a storage call) gives the
    error result with [contentCount = 0] in the world the failing step
    left, which in the feed loop still holds the pieces of all items
    before the failing one; and classification never throws: a rejected
    feed parse classifies the URL as single. *)
Theorem addInspiration_spec E input w u :
  idsNeverRepeat E →
  idsNeverReserved E →
  holdsArray (store w) STORAGE_KEYS.contentIndex →
  url input = Some u →
  (∀ w1 entries w2,
     reliable E →
     freshContentIds E w →
     detectUrlType E u w = (Ok feed, w1) →
     fetchFeedContent E u w1 = (Ok entries, w2) →
     ∃ pieces w',
       addInspiration E input w
       = (Ok (inspirationAdded "feed" (Z.of_nat (length entries))), w')
       ∧ Forall2 (pieceOfEntry (or_array (tags input))) entries pieces
       ∧ NoDup (ContentPiece.id <$> pieces)
       ∧ Forall (persisted (store w')) pieces
       ∧ indexList (store w') STORAGE_KEYS.contentIndex
         = (indexList (store w) STORAGE_KEYS.contentIndex
            ++ (ContentPiece.id <$> pieces))%list)
  ∧ (∀ w1 page w2,
       reliable E →
       freshContentIds E w →
       detectUrlType E u w = (Ok single, w1) →
       fetchSingleContent E u w1 = (Ok page, w2) →
       ∃ n w',
         let p := pagePiece E (or_array (tags input)) n u page in
         addInspiration E input w = (Ok (inspirationAdded "single" 1), w')
         ∧ persisted (store w') p
         ∧ indexList (store w') STORAGE_KEYS.contentIndex
           = (indexList (store w) STORAGE_KEYS.contentIndex ++ [ContentPiece.id p])%list
         ∧ (∀ id', id' ≠ ContentPiece.id p →
                   pieceAt (store w') id' = pieceAt (store w) id'))
  ∧ (∀ e w',
       addInspirationTry E input (or_array (tags input)) w = (Throws e, w') →
       addInspiration E input w = (Ok inspirationFailed, w')
       ∧ agentNumber "contentCount" inspirationFailed = Some 0%Z
       ∧ ∀ w1 entries w2,
           detectUrlType E u w = (Ok feed, w1) →
           fetchFeedContent E u w1 = (Ok entries, w2) →
           ∃ k pieces wk entry,
             k < length entries
             ∧ forEach (take k entries) (storeFeedItem E (or_array (tags input))) w2
               = (Ok tt, wk)
             ∧ entries !! k = Some entry
             ∧ storeFeedItem E (or_array (tags input)) entry wk = (Throws e, w')
             ∧ Forall2 (pieceOfEntry (or_array (tags input))) (take k entries) pieces
             ∧ Forall (persisted (store w')) pieces)
  ∧ (∃ type,
       detectUrlType E u w = (Ok type, bump w)
       ∧ (type = single ↔ ∃ e, parseURL E (tick w) u = Rejects e)).
Proof.
  intros Hinj Hres Harr Hurl. split; [| split; [| split]].
  - intros w1 entries w2 Hrel Hfresh Hclass Hfetch.
    by eapply addInspiration_feed.
  - intros w1 page w2 Hrel Hfresh Hclass Hfetch.
    by eapply addInspiration_single.
  - intros e w' Htry. split; [by apply (addInspiration_failure E input w e w') |].
    split; [reflexivity |].
    intros w1 entries w2 Hclass Hfetch.
    exact (addInspiration_feed_interrupted E Hinj Hres input w u w1 entries w2 e w'
             Harr Hurl Hclass Hfetch Htry).
  - apply detectUrlType_never_throws.
Qed.

Lemma sampleEnv_idsNeverRepeat : idsNeverRepeat sampleEnv.
Proof.
  intros i j H. cbn [randomHex sampleEnv] in H.
  rewrite <- (HexString.to_nat_of_nat i), <- (HexString.to_nat_of_nat j).
  by rewrite H.
Qed.

Lemma faultyEnv_idsNeverRepeat k : idsNeverRepeat (faultyEnv k).
Proof. exact sampleEnv_idsNeverRepeat. Qed.

Lemma faultyEnv_idsNeverReserved k : idsNeverReserved (faultyEnv k).
Proof. exact sampleEnv_idsNeverReserved. Qed.

Lemma emptyWorld_holdsArray : holdsArray (store emptyWorld) STORAGE_KEYS.contentIndex.
Proof. vm_compute. exact I. Qed.

Lemma emptyWorld_fresh E : freshContentIds E emptyWorld.
Proof. intros n _. cbn. unfold indexList. rewrite lookup_empty. apply not_elem_of_nil. Qed.

Lemma addInspiration_spec_witness :
  (∃ pieces w',
     addInspiration sampleEnv (addInput feedUrl (Some ["t"])) emptyWorld
     = (Ok (inspirationAdded "feed" 2), w')
     ∧ length pieces = 2
     ∧ Forall (persisted (store w')) pieces)
  ∧ (∃ w',
       addInspiration sampleEnv (addInput pageUrl (Some ["t"])) emptyWorld
       = (Ok (inspirationAdded "single" 1), w')
       ∧ length (indexList (store w') STORAGE_KEYS.contentIndex) = 1)
  ∧ (∃ w' p,
       addInspiration (faultyEnv 9) (addInput feedUrl (Some ["t"])) emptyWorld
       = (Ok inspirationFailed, w')
       ∧ persisted (store w') p
       ∧ ContentPiece.title p = "First post").
Proof.
  split; [| split].
  - destruct (addInspiration_spec sampleEnv (addInput feedUrl (Some ["t"])) emptyWorld
                feedUrl sampleEnv_idsNeverRepeat sampleEnv_idsNeverReserved
                emptyWorld_holdsArray eq_refl) as [Hfeed _].
    eassert (Hclass : detectUrlType sampleEnv feedUrl emptyWorld = (Ok feed, _))
      by (vm_compute; reflexivity).
    eassert (Hfetch : fetchFeedContent sampleEnv feedUrl _ = (Ok _, _))
      by (vm_compute; reflexivity).
    destruct (Hfeed _ _ _ sampleEnv_reliable (emptyWorld_fresh _) Hclass Hfetch)
      as (pieces & w' & Hrun & Hall & _ & Hpers & _).
    exists pieces, w'. split; [exact Hrun |]. split; [| exact Hpers].
    apply Forall2_length in Hall. rewrite <- Hall. reflexivity.
  - destruct (addInspiration_spec sampleEnv (addInput pageUrl (Some ["t"])) emptyWorld
                pageUrl sampleEnv_idsNeverRepeat sampleEnv_idsNeverReserved
                emptyWorld_holdsArray eq_refl) as (_ & Hsingle & _).
    eassert (Hclass : detectUrlType sampleEnv pageUrl emptyWorld = (Ok single, _))
      by (vm_compute; reflexivity).
    eassert (Hfetch : fetchSingleContent sampleEnv pageUrl _ = (Ok _, _))
      by (vm_compute; reflexivity).
    destruct (Hsingle _ _ _ sampleEnv_reliable (emptyWorld_fresh _) Hclass Hfetch)
      as (n & w' & Hrun & _ & Hidx & _).
    exists w'. split; [exact Hrun |]. rewrite Hidx. reflexivity.
  - destruct (addInspiration_spec (faultyEnv 9) (addInput feedUrl (Some ["t"]))
                emptyWorld feedUrl (faultyEnv_idsNeverRepeat 9)
                (faultyEnv_idsNeverReserved 9) emptyWorld_holdsArray eq_refl)
      as (_ & _ & Hfail & _).
    eassert (Htry : addInspirationTry (faultyEnv 9) (addInput feedUrl (Some ["t"]))
                      ["t"] emptyWorld = (Throws _, _))
      by (vm_compute; reflexivity).
    apply Hfail in Htry as (Hrun & _ & Hkeep).
    eassert (Hclass : detectUrlType (faultyEnv 9) feedUrl emptyWorld = (Ok feed, _))
      by (vm_compute; reflexivity).
    eassert (Hfetch : fetchFeedContent (faultyEnv 9) feedUrl _ = (Ok _, _))
      by (vm_compute; reflexivity).
    destruct (Hkeep _ _ _ Hclass Hfetch)
      as (k & pieces & wk & entry & Hk & Hpre & Hentry & Hthrow & Hall & Hpers).
    assert (Hk1 : k = 1).
    { destruct k as [|[|k]]; [| reflexivity |].
      - cbn in Hpre. injection Hpre as <-.
        vm_compute in Hentry. injection Hentry as <-.
        vm_compute in Hthrow. discriminate.
      - vm_compute in Hk. lia. }
    subst k. cbn [take] in Hall.
    inversion Hall as [|entry1 p ? ? Hp Hrest]; subst.
    inversion Hrest; subst.
    eexists _, p. split; [exact Hrun |].
    split; [by inversion Hpers |]. by destruct Hp as [-> _].
Defined.

(* ===================================================================== *)
(** ** C2: the dispatcher *)
(* ===================================================================== *)

Lemma dispatch_handlerFor E i :
  dispatch E i
  = match handlerFor E (action i) (input i) (config i) with
    | Some handler => handler
    | None => ret (errorEnvelope ("Unknown action: " +:+ action i))
    end.
Proof.
  unfold dispatch, handlerFor.
  repeat (destruct (String.eqb (action i) _); [reflexivity |]). reflexivity.
Qed.

Lemma handlerFor_unknown E name input config :
  name ∉ knownActions → handlerFor E name input config = None.
Proof.
  intros Hnot. unfold handlerFor.
  repeat match goal with
         | |- context [String.eqb name ?s] =>
             destruct (String.eqb_spec name s) as [-> | _];
             [exfalso; apply Hnot; unfold knownActions; set_solver |]
         end.
  reflexivity.
Qed.

Lemma handlerFor_known E name input config :
  name ∈ knownActions → is_Some (handlerFor E name input config).
Proof.
  unfold knownActions. rewrite !elem_of_cons, elem_of_nil.
  intros [-> | [-> | [-> | [-> | [-> | [-> | [-> | []]]]]]]]; cbn; eauto.
Qed.

(** C2.  [invoke] never ends in an exception.  Without storage it
    returns the error envelope "Storage not provided"; with storage and
    an action name outside the seven known ones it returns the error
    envelope "Unknown action: <name>"; and whatever the selected handler
    throws is returned as an error envelope, in the world the handler
    left, with the message of the error when an [Error] was thrown.  The
    error envelope is a template result. *)
Theorem invoke_never_throws E i w :
  (∃ r w', invoke E i w = (r, w') ∧ ∀ e, r ≠ Throws e)
  ∧ (∀ message,
       responseMode (errorEnvelope message) = template
       ∧ agentData (errorEnvelope message)
         = Some [("template", JStr "error"); ("message", JStr message)])
  ∧ (storage i = None →
     invoke E i w = (Ok (errorEnvelope "Storage not provided"), w))
  ∧ (is_Some (storage i) → action i ∉ knownActions →
     invoke E i w = (Ok (errorEnvelope ("Unknown action: " +:+ action i)), w))
  ∧ (is_Some (storage i) →
     ∀ handler e w',
       handlerFor E (action i) (input i) (config i) = Some handler →
       handler w = (Throws e, w') →
       ∃ message,
         invoke E i w = (Ok (errorEnvelope message), w')
         ∧ ∀ m, e = ErrorExn m → message = m).
Proof.
  split; [| split; [by intros message |]; split; [| split]].
  - unfold invoke. destruct (storage i).
    + unfold try_catch. destruct (dispatch E i w) as [[r | e |] w'] eqn:Hd.
      * do 2 eexists. split; [reflexivity | discriminate].
      * do 2 eexists. split; [reflexivity | discriminate].
      * do 2 eexists. split; [reflexivity | discriminate].
    + do 2 eexists. split; [reflexivity | discriminate].
  - intros Hs. unfold invoke. rewrite Hs. reflexivity.
  - intros [s Hs] Hnot. unfold invoke, try_catch. rewrite Hs.
    rewrite dispatch_handlerFor, handlerFor_unknown by done. reflexivity.
  - intros [s Hs] handler e w' Hh Hthrow. exists (errorMessage e). split.
    + unfold invoke, try_catch.
      rewrite Hs, dispatch_handlerFor, Hh, Hthrow. reflexivity.
    + by intros m ->.
Qed.

(** A thrown value that is not an [Error] is reported as "Unknown error". *)
Lemma invoke_non_error E i w handler w' :
  is_Some (storage i) →
  handlerFor E (action i) (input i) (config i) = Some handler →
  handler w = (Throws NonError, w') →
  invoke E i w = (Ok (errorEnvelope "Unknown error"), w').
Proof.
  intros [s Hs] Hh Hthrow. unfold invoke, try_catch.
  rewrite Hs, dispatch_handlerFor, Hh, Hthrow. reflexivity.
Qed.

Lemma invoke_never_throws_witness :
  invoke sampleEnv
         {| action := "listContent"; input := emptyInput;
            storage := None; config := None |} emptyWorld
  = (Ok (errorEnvelope "Storage not provided"), emptyWorld)
  ∧ invoke sampleEnv (invocation "dropEverything" emptyInput None) emptyWorld
    = (Ok (errorEnvelope "Unknown action: dropEverything"), emptyWorld)
  ∧ ∃ w',
      invoke sampleEnv
             (invocation "createArticle"
                         (createInput [ContentPiece.id pieceA] "Summarise." None) None)
             libraryWorld
      = (Ok (errorEnvelope "OPENAI_API_KEY not configured"), w').
Proof.
  split; [| split].
  - apply (invoke_never_throws sampleEnv
             {| action := "listContent"; input := emptyInput;
                storage := None; config := None |} emptyWorld).
    reflexivity.
  - apply (invoke_never_throws sampleEnv (invocation "dropEverything" emptyInput None)
             emptyWorld); [eexists; reflexivity |].
    unfold knownActions. cbn [action invocation].
    rewrite !elem_of_cons, elem_of_nil.
    intros [H | [H | [H | [H | [H | [H | [H | []]]]]]]]; discriminate.
  - destruct (invoke_never_throws sampleEnv
                (invocation "createArticle"
                            (createInput [ContentPiece.id pieceA] "Summarise." None) None)
                libraryWorld) as (_ & _ & _ & _ & Hcatch).
    eassert (Hthrow : createArticle sampleEnv
                        (createInput [ContentPiece.id pieceA] "Summarise." None)
                        None libraryWorld = (Throws _, _))
      by (vm_compute; reflexivity).
    destruct (Hcatch (ex_intro _ gatewayStorage eq_refl) _ _ _ eq_refl Hthrow)
      as (message & Hrun & Hmessage).
    eexists. rewrite Hrun, (Hmessage _ eq_refl). reflexivity.
Defined.

(* ===================================================================== *)
(** ** The test scripts of the repository *)
(* ===================================================================== *)

(** The answers the local script expects: empty; success, single,
    [contentCount = 1]; a listing of one; the content (a passthrough
    result); success; empty; empty. *)
Example test_script_runs :
  agentTemplates (session sampleEnv testScript emptyWorld).1
  = [Some (JStr "empty"); Some (JStr "success"); Some (JStr "success"); None;
     Some (JStr "success"); Some (JStr "empty"); Some (JStr "empty")]
  ∧ (session sampleEnv testScript emptyWorld).1 !! 1
    = Some (Ok (inspirationAdded "single" 1))
  ∧ agentNumbers "totalCount" (session sampleEnv testScript emptyWorld).1
    = [Some 0; None; Some 1; None; None; Some 0; Some 0]%Z.
Proof. vm_compute. repeat split. Qed.

(** The answers the integration script expects: one piece under the tag
    filter, one piece left after the deletion, no articles. *)
Example gateway_script_runs :
  agentTemplates (session sampleEnv gatewayScript emptyWorld).1
  = [Some (JStr "empty"); Some (JStr "success"); Some (JStr "success"); None;
     Some (JStr "success"); Some (JStr "success"); Some (JStr "success");
     Some (JStr "success"); Some (JStr "empty")]
  ∧ agentNumbers "totalCount" (session sampleEnv gatewayScript emptyWorld).1
    = [Some 0; None; Some 1; None; None; Some 1; None; Some 1; Some 0]%Z.
Proof. vm_compute. repeat split. Qed.

(* ===================================================================== *)
(** ** Further properties of the storage helpers *)
(* ===================================================================== *)

Lemma removeContent_lookup id st id' :
  id ≠ "index" →
  holdsArray st STORAGE_KEYS.contentIndex →
  pieceAt (removeContent id st) id' = if decide (id' = id) then None else pieceAt st id'.
Proof.
  intros Hne Harr. unfold removeContent.
  destruct (st !! STORAGE_KEYS.content id) as [v|] eqn:Hv.
  - rewrite pieceAt_insert_index, pieceAt_delete_content.
    destruct (decide (id' = "index")) as [->|Hi].
    + rewrite decide_False by congruence. by rewrite holdsArray_pieceAt_index.
    + destruct (decide (id = id')) as [<-|Hd].
      * by rewrite decide_True.
      * by rewrite decide_False by congruence.
  - destruct (decide (id' = id)) as [->|]; [| done].
    unfold pieceAt. by rewrite Hv.
Qed.

Lemma removeContent_index id st :
  id ≠ "index" →
  is_Some (st !! STORAGE_KEYS.content id) →
  indexList (removeContent id st) STORAGE_KEYS.contentIndex
  = filter (fun i => i ≠ id) (indexList st STORAGE_KEYS.contentIndex).
Proof.
  intros Hne [v Hv]. unfold removeContent. rewrite Hv.
  by rewrite indexList_insert_index, indexList_delete_content.
Qed.

(** X1.  [setContent] followed by [getContent]: for an id other than
    ["index"], on a store that answers, [setContent] completes, a
    following [getContent] of that id returns the piece just stored, the
    id is listed in the index, no other record changes, an index without
    repetitions stays without repetitions, and the index invariant is
    kept. *)
Theorem setContent_then_getContent E c w :
  reliable E →
  ContentPiece.id c ≠ "index" →
  holdsArray (store w) STORAGE_KEYS.contentIndex →
  ∃ w1 w2,
    setContent E c w = (Ok tt, w1)
    ∧ getContent E (ContentPiece.id c) w1 = (Ok (Some (VPiece c)), w2)
    ∧ store w2 = store w1
    ∧ ContentPiece.id c ∈ indexList (store w1) STORAGE_KEYS.contentIndex
    ∧ (∀ id', id' ≠ ContentPiece.id c → pieceAt (store w1) id' = pieceAt (store w) id')
    ∧ (NoDup (indexList (store w) STORAGE_KEYS.contentIndex) →
       NoDup (indexList (store w1) STORAGE_KEYS.contentIndex))
    ∧ (contentIndexConsistent (store w) → contentIndexConsistent (store w1)).
Proof.
  intros Hrel Hne Harr.
  destruct (setContent_run E Hrel c w) as (t & _ & Hrun).
  { by apply holdsArray_insert_content. }
  pose proof (putContent_persisted c (store w) Hne Harr) as [Hat Hin].
  eexists _, _. split; [exact Hrun |].
  split.
  { unfold getContent. rewrite storage_get_run by done. cbn [store].
    unfold pieceAt in Hat.
    destruct (putContent c (store w) !! STORAGE_KEYS.content (ContentPiece.id c))
      as [[c'|a|l]|]; simpl in Hat; try discriminate.
    by injection Hat as ->. }
  cbn [store bump]. split; [reflexivity |]. split; [exact Hin |].
  split.
  { intros id' Hid'. rewrite putContent_lookup by done. by rewrite decide_False. }
  split.
  { intros Hnd. rewrite putContent_index by done.
    destruct (includes _ _) eqn:Hinc; [exact Hnd |].
    apply includes_false in Hinc. apply NoDup_app. split; [exact Hnd |].
    split; [| apply NoDup_singleton].
    intros x Hx Hx'. apply list_elem_of_singleton in Hx'. congruence. }
  intros Hc. by apply putContent_consistent.
Qed.

Lemma setContent_then_getContent_witness :
  ∃ w1 w2,
    setContent sampleEnv pieceA emptyWorld = (Ok tt, w1)
    ∧ getContent sampleEnv (ContentPiece.id pieceA) w1 = (Ok (Some (VPiece pieceA)), w2).
Proof.
  destruct (setContent_then_getContent sampleEnv pieceA emptyWorld sampleEnv_reliable)
    as (w1 & w2 & Hset & Hget & _).
  - discriminate.
  - exact emptyWorld_holdsArray.
  - exists w1, w2. split; [exact Hset | exact Hget].
Defined.

(** X2.  [setContent] never lists an id twice: storing a piece whose id
    is already in the index replaces the record and leaves the index as
    it is; in particular storing the same piece a second time changes
    nothing. *)
Theorem setContent_indexed_id_keeps_index E c w :
  reliable E →
  ContentPiece.id c ≠ "index" →
  holdsArray (store w) STORAGE_KEYS.contentIndex →
  ContentPiece.id c ∈ indexList (store w) STORAGE_KEYS.contentIndex →
  ∃ w1,
    setContent E c w = (Ok tt, w1)
    ∧ pieceAt (store w1) (ContentPiece.id c) = Some c
    ∧ indexList (store w1) STORAGE_KEYS.contentIndex
      = indexList (store w) STORAGE_KEYS.contentIndex
    ∧ ∃ w2, setContent E c w1 = (Ok tt, w2) ∧ store w2 = store w1.
Proof.
  intros Hrel Hne Harr Hin.
  destruct (setContent_run E Hrel c w) as (t & _ & Hrun).
  { by apply holdsArray_insert_content. }
  eexists. split; [exact Hrun |]. cbn [store].
  assert (Hidx : indexList (putContent c (store w)) STORAGE_KEYS.contentIndex
                 = indexList (store w) STORAGE_KEYS.contentIndex).
  { rewrite putContent_index by done.
    by rewrite (proj2 (includes_spec _ _) Hin). }
  split. { rewrite putContent_lookup by done. by rewrite decide_True. }
  split; [exact Hidx |].
  set (w1 := {| store := putContent c (store w); tick := t |}).
  destruct (setContent_run E Hrel c w1) as (t' & _ & Hrun').
  { apply holdsArray_insert_content; [done |]. by apply putContent_holdsArray. }
  eexists. split; [exact Hrun' |]. cbn [store w1].
  unfold putContent at 1.
  rewrite indexList_insert_content by done. rewrite Hidx.
  rewrite (proj2 (includes_spec _ _) Hin).
  apply insert_id.
  pose proof (putContent_persisted c (store w) Hne Harr) as [Hat _].
  unfold putContent. rewrite indexList_insert_content by done.
  rewrite (proj2 (includes_spec _ _) Hin). apply lookup_insert_eq.
Qed.

Lemma setContent_indexed_id_keeps_index_witness :
  ∃ w1,
    setContent sampleEnv pieceA libraryWorld = (Ok tt, w1)
    ∧ indexList (store w1) STORAGE_KEYS.contentIndex
      = [ContentPiece.id pieceA; ContentPiece.id pieceB].
Proof.
  destruct (setContent_indexed_id_keeps_index sampleEnv pieceA libraryWorld
              sampleEnv_reliable) as (w1 & Hset & _ & Hidx & _).
  - discriminate.
  - exact libraryWorld_holdsArray.
  - vm_compute. apply list_elem_of_here.
  - exists w1. split; [exact Hset |]. rewrite Hidx. reflexivity.
Defined.

Lemma filter_other_id (id : string) (l : list string) :
  id ∉ l → filter (fun i => i ≠ id) l = l.
Proof.
  induction l as [|x l IH]; intros Hin; [done |].
  apply not_elem_of_cons in Hin as [Hx Hl].
  rewrite filter_cons_True by congruence. by rewrite IH.
Qed.

Lemma filter_this_id (id : string) (l : list string) :
  id ∉ filter (fun i => i ≠ id) l.
Proof. intros Hin. apply list_elem_of_filter in Hin as [Hne _]. by apply Hne. Qed.

(** X3.  [deleteContentById], for an id other than ["index"], on a
    store that answers: it returns whether a value was stored under the
    key of the id; afterwards nothing is stored under that key and no
    other record has changed.  When a value was stored the index is
    rewritten without the id; when none was, the store is left as it was,
    the index included. *)
Theorem deleteContentById_removes_record_and_entry E id w :
  reliable E →
  id ≠ "index" →
  holdsArray (store w) STORAGE_KEYS.contentIndex →
  ∃ w',
    deleteContentById E id w
    = (Ok (bool_decide (is_Some (store w !! STORAGE_KEYS.content id))), w')
    ∧ store w' !! STORAGE_KEYS.content id = None
    ∧ (∀ id', id' ≠ id → pieceAt (store w') id' = pieceAt (store w) id')
    ∧ (is_Some (store w !! STORAGE_KEYS.content id) →
       indexList (store w') STORAGE_KEYS.contentIndex
       = filter (fun i => i ≠ id) (indexList (store w) STORAGE_KEYS.contentIndex)
       ∧ id ∉ indexList (store w') STORAGE_KEYS.contentIndex)
    ∧ (store w !! STORAGE_KEYS.content id = None → store w' = store w)
    ∧ (NoDup (indexList (store w) STORAGE_KEYS.contentIndex) →
       NoDup (indexList (store w') STORAGE_KEYS.contentIndex)).
Proof.
  intros Hrel Hne Harr.
  assert (Hkey : STORAGE_KEYS.content id ≠ STORAGE_KEYS.contentIndex).
  { intros Hk. by apply content_key_is_index in Hk. }
  destruct (deleteContentById_run E Hrel id w) as (t & _ & Hrun).
  { unfold holdsArray. rewrite lookup_delete_ne by done. exact Harr. }
  eexists. split; [exact Hrun |]. cbn [store].
  split.
  { unfold removeContent.
    destruct (store w !! STORAGE_KEYS.content id) eqn:Hv; [| exact Hv].
    rewrite lookup_insert_ne by done. apply lookup_delete_eq. }
  split.
  { intros id' Hid'. rewrite removeContent_lookup by done. by rewrite decide_False. }
  split.
  { intros Hsome. rewrite removeContent_index by done.
    split; [reflexivity | apply filter_this_id]. }
  split.
  { intros Hnone. unfold removeContent. by rewrite Hnone. }
  intros Hnd. unfold removeContent.
  destruct (store w !! STORAGE_KEYS.content id) eqn:Hv; [| exact Hnd].
  rewrite indexList_insert_index, indexList_delete_content by done.
  by apply NoDup_filter.
Qed.

Lemma deleteContentById_removes_record_and_entry_witness :
  ∃ w',
    deleteContentById sampleEnv (ContentPiece.id pieceA) libraryWorld = (Ok true, w')
    ∧ indexList (store w') STORAGE_KEYS.contentIndex = [ContentPiece.id pieceB].
Proof.
  destruct (deleteContentById_removes_record_and_entry sampleEnv (ContentPiece.id pieceA)
              libraryWorld sampleEnv_reliable)
    as (w' & Hrun & _ & _ & Hidx & _).
  - discriminate.
  - exact libraryWorld_holdsArray.
  - exists w'. split; [exact Hrun |].
    destruct Hidx as [-> _]; [vm_compute; eauto |].
    vm_compute. reflexivity.
Defined.

(** X4.  Storing a new piece and deleting it again is a round trip: for
    an id other than ["index"] under whose key nothing is stored and that
    the index does not list, [setContent] followed by
    [deleteContentById] reports a deletion and leaves the store as it
    was, except that the index key now holds the array it stood for. *)
Theorem setContent_then_deleteContentById E c w :
  reliable E →
  ContentPiece.id c ≠ "index" →
  holdsArray (store w) STORAGE_KEYS.contentIndex →
  store w !! STORAGE_KEYS.content (ContentPiece.id c) = None →
  ContentPiece.id c ∉ indexList (store w) STORAGE_KEYS.contentIndex →
  ∃ w1 w2,
    setContent E c w = (Ok tt, w1)
    ∧ deleteContentById E (ContentPiece.id c) w1 = (Ok true, w2)
    ∧ store w2
      = <[STORAGE_KEYS.contentIndex :=
            VIndex (indexList (store w) STORAGE_KEYS.contentIndex)]> (store w)
    ∧ (∀ id', pieceAt (store w2) id' = pieceAt (store w) id')
    ∧ indexList (store w2) STORAGE_KEYS.contentIndex
      = indexList (store w) STORAGE_KEYS.contentIndex.
Proof.
  intros Hrel Hne Harr Hnone Hnotin.
  assert (Hkey : STORAGE_KEYS.content (ContentPiece.id c) ≠ STORAGE_KEYS.contentIndex).
  { intros Hk. by apply content_key_is_index in Hk. }
  destruct (setContent_run E Hrel c w) as (t1 & _ & Hset).
  { by apply holdsArray_insert_content. }
  set (w1 := {| store := putContent c (store w); tick := t1 |}).
  destruct (deleteContentById_run E Hrel (ContentPiece.id c) w1) as (t2 & _ & Hdel).
  { unfold holdsArray. rewrite lookup_delete_ne by done.
    by apply putContent_holdsArray. }
  assert (Hput : putContent c (store w)
                 = <[STORAGE_KEYS.contentIndex :=
                       VIndex (indexList (store w) STORAGE_KEYS.contentIndex
                               ++ [ContentPiece.id c])]>
                     (<[STORAGE_KEYS.content (ContentPiece.id c) := VPiece c]> (store w))).
  { unfold putContent. rewrite indexList_insert_content by done.
    by rewrite (proj2 (includes_false _ _) Hnotin). }
  assert (Hstore : removeContent (ContentPiece.id c) (putContent c (store w))
                   = <[STORAGE_KEYS.contentIndex :=
                         VIndex (indexList (store w) STORAGE_KEYS.contentIndex)]> (store w)).
  { unfold removeContent. rewrite Hput.
    rewrite lookup_insert_ne by done. rewrite lookup_insert_eq.
    rewrite delete_insert_ne by done. rewrite delete_insert_id by done.
    rewrite indexList_insert_index, insert_insert_eq.
    rewrite filter_app, filter_other_id by done.
    rewrite filter_cons_False by (intros H; by apply H).
    by rewrite filter_nil, app_nil_r. }
  exists w1, {| store := removeContent (ContentPiece.id c) (store w1); tick := t2 |}.
  split; [exact Hset |]. split.
  { rewrite Hdel. cbn [store w1]. rewrite Hput.
    rewrite lookup_insert_ne by done. rewrite lookup_insert_eq.
    by rewrite bool_decide_eq_true_2 by eauto. }
  cbn [store w1]. rewrite Hstore. split; [reflexivity |]. split.
  - intros id'. rewrite pieceAt_insert_index.
    destruct (decide (id' = "index")) as [->|]; [| done].
    by rewrite holdsArray_pieceAt_index.
  - apply indexList_insert_index.
Qed.

Lemma setContent_then_deleteContentById_witness :
  ∃ w1 w2,
    setContent sampleEnv pieceB {| store := putContent pieceA ∅; tick := 0 |} = (Ok tt, w1)
    ∧ deleteContentById sampleEnv (ContentPiece.id pieceB) w1 = (Ok true, w2)
    ∧ indexList (store w2) STORAGE_KEYS.contentIndex = [ContentPiece.id pieceA].
Proof.
  destruct (setContent_then_deleteContentById sampleEnv pieceB
              {| store := putContent pieceA ∅; tick := 0 |} sampleEnv_reliable)
    as (w1 & w2 & Hset & Hdel & _ & _ & Hidx).
  - discriminate.
  - vm_compute. exact I.
  - vm_compute. reflexivity.
  - vm_compute. intros Hin. apply list_elem_of_singleton in Hin. discriminate.
  - exists w1, w2. split; [exact Hset |]. split; [exact Hdel |].
    rewrite Hidx. vm_compute. reflexivity.
Defined.

(** X5.  [setArticle] followed by [getArticle]: for an id other than
    ["index"], on a store that answers, [setArticle] completes, a
    following [getArticle] of that id returns the article just stored,
    the id is listed in the article index (an index without repetitions
    stays without repetitions), every other article is unchanged, no key
    outside the article keys is written, and the article index invariant
    is kept. *)
Theorem setArticle_then_getArticle E a w :
  reliable E →
  Article.id a ≠ "index" →
  holdsArray (store w) STORAGE_KEYS.articleIndex →
  ∃ w1 w2,
    setArticle E a w = (Ok tt, w1)
    ∧ getArticle E (Article.id a) w1 = (Ok (Some (VArticle a)), w2)
    ∧ store w2 = store w1
    ∧ Article.id a ∈ indexList (store w1) STORAGE_KEYS.articleIndex
    ∧ (∀ id', id' ≠ Article.id a → id' ≠ "index" →
              articleAt (store w1) id' = articleAt (store w) id')
    ∧ (∀ key, (∀ id', key ≠ STORAGE_KEYS.article id') → store w1 !! key = store w !! key)
    ∧ (NoDup (indexList (store w) STORAGE_KEYS.articleIndex) →
       NoDup (indexList (store w1) STORAGE_KEYS.articleIndex))
    ∧ (articleIndexConsistent (store w) → articleIndexConsistent (store w1)).
Proof.
  intros Hrel Hne Harr.
  destruct (setArticle_run E Hrel a w) as (t & _ & Hrun).
  { by apply holdsArray_insert_article. }
  eexists _, _. split; [exact Hrun |].
  split.
  { unfold getArticle. rewrite storage_get_run by done. cbn [store].
    by rewrite putArticle_lookup_self. }
  cbn [store bump]. split; [reflexivity |].
  split.
  { rewrite putArticle_index by done.
    destruct (includes _ _) eqn:Hinc.
    - by apply includes_spec.
    - apply elem_of_app. right. apply list_elem_of_here. }
  split.
  { intros id' Hid' Hidx. rewrite putArticle_lookup by done.
    rewrite decide_False by done. by rewrite decide_False. }
  split.
  { intros key Hkey. by apply putArticle_other_keys. }
  split.
  { intros Hnd. rewrite putArticle_index by done.
    destruct (includes _ _) eqn:Hinc; [exact Hnd |].
    apply includes_false in Hinc. apply NoDup_app. split; [exact Hnd |].
    split; [| apply NoDup_singleton].
    intros x Hx Hx'. apply list_elem_of_singleton in Hx'. congruence. }
  intros Hc. by apply putArticle_consistent.
Qed.

Lemma setArticle_then_getArticle_witness :
  ∃ w1 w2,
    setArticle sampleEnv articleA libraryWorld = (Ok tt, w1)
    ∧ getArticle sampleEnv (Article.id articleA) w1 = (Ok (Some (VArticle articleA)), w2)
    ∧ pieceAt (store w1) (ContentPiece.id pieceA) = Some pieceA.
Proof.
  destruct (setArticle_then_getArticle sampleEnv articleA libraryWorld sampleEnv_reliable)
    as (w1 & w2 & Hset & Hget & _ & _ & _ & Hother & _).
  - discriminate.
  - exact libraryWorld_articleIndex_array.
  - exists w1, w2. split; [exact Hset |]. split; [exact Hget |].
    unfold pieceAt. rewrite Hother by (intros id'; apply content_key_not_article).
    vm_compute. reflexivity.
Defined.

(** X6.  No rollback in [deleteContentById]: when the store answers the
    [delete] of a stored, indexed piece and then rejects the read or the
    write of the index, the call throws that rejection, the record is
    gone and the index still lists the id, so the index invariant is
    broken. *)
Theorem deleteContentById_interrupted E id c w e :
  id ≠ "index" →
  holdsArray (store w) STORAGE_KEYS.contentIndex →
  pieceAt (store w) id = Some c →
  id ∈ indexList (store w) STORAGE_KEYS.contentIndex →
  rejectsAfterFirst E (tick w) e →
  ∃ w',
    deleteContentById E id w = (Throws e, w')
    ∧ store w' = delete (STORAGE_KEYS.content id) (store w)
    ∧ pieceAt (store w') id = None
    ∧ id ∈ indexList (store w') STORAGE_KEYS.contentIndex
    ∧ ¬ contentIndexConsistent (store w').
Proof.
  intros Hne Harr Hat Hin [Hf1 Hf].
  assert (Hsome : is_Some (store w !! STORAGE_KEYS.content id)).
  { unfold pieceAt in Hat. destruct (store w !! STORAGE_KEYS.content id); [eauto | done]. }
  assert (Harr1 : holdsArray (delete (STORAGE_KEYS.content id) (store w))
                             STORAGE_KEYS.contentIndex).
  { unfold holdsArray. rewrite lookup_delete_ne; [exact Harr |].
    intros Hk. by apply content_key_is_index in Hk. }
  assert (Hafter : pieceAt (delete (STORAGE_KEYS.content id) (store w)) id = None
                   ∧ id ∈ indexList (delete (STORAGE_KEYS.content id) (store w))
                                    STORAGE_KEYS.contentIndex).
  { split.
    - rewrite pieceAt_delete_content. by rewrite decide_True.
    - by rewrite indexList_delete_content. }
  destruct Hafter as [Hgone Hstill].
  assert (Hbroken : ¬ contentIndexConsistent (delete (STORAGE_KEYS.content id) (store w))).
  { intros Hc. apply Hc in Hstill. rewrite Hgone in Hstill. by destruct Hstill. }
  unfold deleteContentById, getContentIndex, setContentIndex, storage_delete,
    storage_get, storage_set, storage_call, bind.
  rewrite Hf1. rewrite bool_decide_eq_true_2 by done. cbn [store tick bump].
  destruct Hf as [Hf2 | [Hf2 Hf3]]; rewrite Hf2.
  - eexists. split; [reflexivity |]. cbn [store bump]. done.
  - cbn [store tick bump]. rewrite (asArray_run _ _ _ _ Harr1).
    cbn [store tick]. rewrite Hf3.
    eexists. split; [reflexivity |]. cbn [store bump]. done.
Qed.

Lemma deleteContentById_interrupted_witness :
  ∃ w',
    deleteContentById (faultyEnv 2) (ContentPiece.id pieceA) libraryWorld
    = (Throws (ErrorExn "storage unavailable"), w')
    ∧ pieceAt (store w') (ContentPiece.id pieceA) = None
    ∧ ContentPiece.id pieceA ∈ indexList (store w') STORAGE_KEYS.contentIndex.
Proof.
  destruct (deleteContentById_interrupted (faultyEnv 2) (ContentPiece.id pieceA) pieceA
              libraryWorld (ErrorExn "storage unavailable"))
    as (w' & Hrun & _ & Hgone & Hstill & _).
  - discriminate.
  - exact libraryWorld_holdsArray.
  - vm_compute. reflexivity.
  - vm_compute. apply list_elem_of_here.
  - split; [reflexivity |]. right. split; reflexivity.
  - exists w'. split; [exact Hrun |]. split; [exact Hgone | exact Hstill].
Defined.

(** X7.  No rollback in [setContent]: when the store answers the write
    of the record of a piece the index does not list and then rejects the
    read or the write of the index, the call throws that rejection and
    the record stays stored without being indexed: [getContent] returns
    it, the index does not list it. *)
Theorem setContent_interrupted E c w e :
  ContentPiece.id c ≠ "index" →
  holdsArray (store w) STORAGE_KEYS.contentIndex →
  ContentPiece.id c ∉ indexList (store w) STORAGE_KEYS.contentIndex →
  rejectsAfterFirst E (tick w) e →
  ∃ w',
    setContent E c w = (Throws e, w')
    ∧ store w' = <[STORAGE_KEYS.content (ContentPiece.id c) := VPiece c]> (store w)
    ∧ pieceAt (store w') (ContentPiece.id c) = Some c
    ∧ (ContentPiece.id c ∉ indexList (store w') STORAGE_KEYS.contentIndex)
    ∧ ¬ contentIndexConsistent (store w').
Proof.
  intros Hne Harr Hnotin [Hf1 Hf].
  pose proof (holdsArray_insert_content (store w) _ (VPiece c) Hne Harr) as Harr1.
  assert (Hat : pieceAt (<[STORAGE_KEYS.content (ContentPiece.id c) := VPiece c]> (store w))
                        (ContentPiece.id c) = Some c).
  { rewrite pieceAt_insert_content. by rewrite decide_True. }
  assert (Hidx : indexList (<[STORAGE_KEYS.content (ContentPiece.id c) := VPiece c]> (store w))
                           STORAGE_KEYS.contentIndex
                 = indexList (store w) STORAGE_KEYS.contentIndex).
  { by apply indexList_insert_content. }
  assert (Hbroken : ¬ contentIndexConsistent
                        (<[STORAGE_KEYS.content (ContentPiece.id c) := VPiece c]> (store w))).
  { intros Hc. apply Hnotin. rewrite <- Hidx. apply Hc. rewrite Hat. eauto. }
  unfold setContent, getContentIndex, setContentIndex, storage_set, storage_get,
    storage_call, bind.
  rewrite Hf1. cbn [store tick bump].
  destruct Hf as [Hf2 | [Hf2 Hf3]]; rewrite Hf2.
  - eexists. split; [reflexivity |]. cbn [store bump].
    split; [done |]. split; [done |]. split; [by rewrite Hidx | done].
  - cbn [store tick bump]. rewrite (asArray_run _ _ _ _ Harr1). rewrite Hidx.
    rewrite (proj2 (includes_false _ _) Hnotin). cbn [negb store tick].
    rewrite Hf3.
    eexists. split; [reflexivity |]. cbn [store bump].
    split; [done |]. split; [done |]. split; [by rewrite Hidx | done].
Qed.

Lemma setContent_interrupted_witness :
  ∃ w',
    setContent (faultyEnv 1) pieceA emptyWorld
    = (Throws (ErrorExn "storage unavailable"), w')
    ∧ pieceAt (store w') (ContentPiece.id pieceA) = Some pieceA
    ∧ indexList (store w') STORAGE_KEYS.contentIndex = [].
Proof.
  destruct (setContent_interrupted (faultyEnv 1) pieceA emptyWorld
              (ErrorExn "storage unavailable"))
    as (w' & Hrun & Hstore & Hat & _).
  - discriminate.
  - exact emptyWorld_holdsArray.
  - vm_compute. apply not_elem_of_nil.
  - split; [reflexivity |]. left. reflexivity.
  - exists w'. split; [exact Hrun |]. split; [exact Hat |].
    rewrite Hstore. vm_compute. reflexivity.
Defined.

(* ===================================================================== *)
(** ** What a handler may write *)
(* ===================================================================== *)

Section Footprint.
Context (E : Env) (owns : string → Prop).

Lemma writesOnly_ret {A} (a : A) : writesOnly owns (ret a).
Proof. by intros w key _. Qed.

Lemma writesOnly_throw {A} e : writesOnly owns (@throw A e).
Proof. by intros w key _. Qed.

Lemma writesOnly_miscast {A} : writesOnly owns (@miscast A).
Proof. by intros w key _. Qed.

Lemma writesOnly_required {A} (o : option A) : writesOnly owns (required o).
Proof. destruct o; [apply writesOnly_ret | apply writesOnly_miscast]. Qed.

Lemma writesOnly_event {A} (f : nat → A) : writesOnly owns (event f).
Proof. by intros w key _. Qed.

Lemma writesOnly_await {A} (f : nat → settled A) : writesOnly owns (await f).
Proof. intros w key _. unfold await. by destruct (f (tick w)). Qed.

Lemma writesOnly_bind {A B} (m : M A) (k : A → M B) :
  writesOnly owns m → (∀ a, writesOnly owns (k a)) → writesOnly owns (bind m k).
Proof.
  intros Hm Hk w key Hkey. unfold bind. specialize (Hm w key Hkey).
  destruct (m w) as [[a|e|] w1]; cbn [snd] in *; [| done | done].
  by rewrite Hk.
Qed.

Lemma writesOnly_try_catch {A} (m : M A) (h : thrown → M A) :
  writesOnly owns m → (∀ e, writesOnly owns (h e)) → writesOnly owns (try_catch m h).
Proof.
  intros Hm Hh w key Hkey. unfold try_catch. specialize (Hm w key Hkey).
  destruct (m w) as [[a|e|] w1]; cbn [snd] in *; [done | | done].
  by rewrite Hh.
Qed.

Lemma writesOnly_storage_get key : writesOnly owns (storage_get E key).
Proof.
  intros w k _. unfold storage_get, storage_call.
  by destruct (storageFault E (tick w)).
Qed.

Lemma writesOnly_storage_set key v : owns key → writesOnly owns (storage_set E key v).
Proof.
  intros Hown w k Hk. unfold storage_set, storage_call.
  destruct (storageFault E (tick w)); [done |]. cbn [snd store].
  apply lookup_insert_ne. by intros ->.
Qed.

Lemma writesOnly_storage_delete key : owns key → writesOnly owns (storage_delete E key).
Proof.
  intros Hown w k Hk. unfold storage_delete, storage_call.
  destruct (storageFault E (tick w)); [done |]. cbn [snd store].
  apply lookup_delete_ne. by intros ->.
Qed.

Lemma writesOnly_asArray o message : writesOnly owns (asArray o message).
Proof.
  destruct o as [[c|a|ids]|]; first [apply writesOnly_ret | apply writesOnly_throw].
Qed.

Lemma writesOnly_loadAll (get : string → M (option value)) ids :
  (∀ id, writesOnly owns (get id)) → writesOnly owns (loadAll get ids).
Proof.
  intros Hget. induction ids as [|id ids IH]; [apply writesOnly_ret |].
  cbn [loadAll]. apply writesOnly_bind; [apply Hget |]. intros found.
  apply writesOnly_bind; [exact IH |]. intros others. apply writesOnly_ret.
Qed.

Lemma writesOnly_forEach {A} (l : list A) (body : A → M unit) :
  (∀ x, writesOnly owns (body x)) → writesOnly owns (forEach l body).
Proof.
  intros Hbody. induction l as [|x l IH]; [apply writesOnly_ret |].
  cbn [forEach]. apply writesOnly_bind; [apply Hbody |]. intros _. exact IH.
Qed.

Lemma writesOnly_getOpenAI config : writesOnly owns (getOpenAI E config).
Proof.
  unfold getOpenAI. cbv zeta.
  destruct (or_else _ None); [apply writesOnly_ret | apply writesOnly_throw].
Qed.

End Footprint.

(** The steps of a footprint proof: the monad, the environment and the
    reads write nothing; the calls that write are left over. *)
Ltac footprint :=
  repeat match goal with
    | |- writesOnly _ (ret _) => apply writesOnly_ret
    | |- writesOnly _ (throw _) => apply writesOnly_throw
    | |- writesOnly _ miscast => apply writesOnly_miscast
    | |- writesOnly _ (required _) => apply writesOnly_required
    | |- writesOnly _ (event _) => apply writesOnly_event
    | |- writesOnly _ (await _) => apply writesOnly_await
    | |- writesOnly _ (storage_get _ _) => apply writesOnly_storage_get
    | |- writesOnly _ (asArray _ _) => apply writesOnly_asArray
    | |- writesOnly _ (getOpenAI _ _) => apply writesOnly_getOpenAI
    | |- writesOnly _ (loadAll _ _) => apply writesOnly_loadAll; intros ?
    | |- writesOnly _ (forEach _ _) => apply writesOnly_forEach; intros ?
    | |- writesOnly _ (bind _ _) => apply writesOnly_bind; [| intros ?]
    | |- writesOnly _ (try_catch _ _) => apply writesOnly_try_catch; [| intros ?]
    | |- writesOnly _ (match ?x with _ => _ end) => destruct x
    end.

Lemma readOnly_writes_nothing {A} (m : M A) :
  readOnly m ↔ writesOnly (fun _ => False) m.
Proof.
  split.
  - intros H w key _. by rewrite H.
  - intros H w. apply map_eq. intros key. apply H. tauto.
Qed.

Lemma contentKey_index : contentKey STORAGE_KEYS.contentIndex.
Proof. by exists "index". Qed.

Lemma articleKey_index : articleKey STORAGE_KEYS.articleIndex.
Proof. by exists "index". Qed.

Lemma writesOnly_setContent E c : writesOnly contentKey (setContent E c).
Proof.
  unfold setContent, getContentIndex, setContentIndex. footprint.
  - apply writesOnly_storage_set. by eexists.
  - apply writesOnly_storage_set, contentKey_index.
Qed.

Lemma writesOnly_setArticle E a : writesOnly articleKey (setArticle E a).
Proof.
  unfold setArticle, getArticleIndex, setArticleIndex. footprint.
  - apply writesOnly_storage_set. by eexists.
  - apply writesOnly_storage_set, articleKey_index.
Qed.

Lemma writesOnly_deleteContentById E id : writesOnly contentKey (deleteContentById E id).
Proof.
  unfold deleteContentById, getContentIndex, setContentIndex. footprint.
  - apply writesOnly_storage_delete. by eexists.
  - apply writesOnly_storage_set, contentKey_index.
Qed.

(** X8.  The two listings and [getContent] are read-only: whatever the
    input, the store contents, the answers of the host store and the
    outcome (an answer, an exception), the store after the call is the
    store before it. *)
Theorem listings_and_getContent_are_read_only E input :
  readOnly (listContent E input)
  ∧ readOnly (listArticles E input)
  ∧ readOnly (getContentAction E input).
Proof.
  repeat split; apply readOnly_writes_nothing.
  - unfold listContent, getContentIndex, getContent. cbv zeta. footprint.
  - unfold listArticles, getArticleIndex, getArticle. cbv zeta. footprint.
  - unfold getContentAction, getContent. cbv zeta. footprint.
Qed.

(** X9.  The handlers keep to their own keys.  Whatever the input, the
    store, the environment and the outcome, [addInspiration] and
    [deleteContent] change only keys of the form [content:<id>] (the
    content index among them), so no article and no article index entry
    is ever touched by them (deleting a piece does not update the
    articles written from it); [createArticle] and [updateArticle]
    change only keys of the form [article:<id>]. *)
Theorem handlers_keep_to_their_keys E input config :
  writesOnly contentKey (addInspiration E input)
  ∧ writesOnly contentKey (deleteContent E input)
  ∧ writesOnly articleKey (createArticle E input config)
  ∧ writesOnly articleKey (updateArticle E input config).
Proof.
  repeat split.
  - unfold addInspiration, addInspirationTry, detectUrlType, fetchFeedContent,
      fetchSingleContent, storeFeedItem, generateId, currentTime.
    cbv zeta. footprint; apply writesOnly_setContent.
  - unfold deleteContent. cbv zeta. footprint. apply writesOnly_deleteContentById.
  - unfold createArticle, getContent, generateId, currentTime. cbv zeta.
    footprint. apply writesOnly_setArticle.
  - unfold updateArticle, getArticle, getContent, currentTime. cbv zeta.
    footprint. apply writesOnly_setArticle.
Qed.

(* ===================================================================== *)
(** ** Further properties of the listings *)
(* ===================================================================== *)

(** With non-negative bounds [slice] is [take] after [drop]. *)
Lemma slice_nonneg {A} (l : list A) (start stop : Z) :
  (0 <= start)%Z → (0 <= stop)%Z →
  slice l start stop = take (Z.to_nat stop - Z.to_nat start) (drop (Z.to_nat start) l).
Proof.
  intros Hs He. unfold slice. cbv zeta.
  rewrite (proj2 (Z.ltb_ge start 0) Hs), (proj2 (Z.ltb_ge stop 0) He).
  destruct (decide (Z.of_nat (length l) <= start)%Z) as [Hbig | Hsmall].
  - rewrite !(drop_ge l) by lia. by rewrite !take_nil.
  - replace (Z.to_nat (Z.min start (Z.of_nat (length l)))) with (Z.to_nat start) by lia.
    destruct (decide (stop <= Z.of_nat (length l))%Z) as [Hin | Hout].
    + f_equal. lia.
    + rewrite !take_ge; [done | |]; rewrite length_drop; lia.
Qed.

(** Two adjacent pages make up the page of their joint size. *)
Lemma slice_adjacent {A} (l : list A) (o a b : Z) :
  (0 <= o)%Z → (0 <= a)%Z → (0 <= b)%Z →
  (slice l o (o + a) ++ slice l (o + a) (o + a + b))%list = slice l o (o + (a + b)).
Proof.
  intros Ho Ha Hb. rewrite !slice_nonneg by lia.
  replace (Z.to_nat (o + a)) with (Z.to_nat o + Z.to_nat a) by lia.
  rewrite <- drop_drop.
  replace (Z.to_nat o + Z.to_nat a - Z.to_nat o) with (Z.to_nat a) by lia.
  replace (Z.to_nat (o + a + b) - (Z.to_nat o + Z.to_nat a)) with (Z.to_nat b) by lia.
  replace (Z.to_nat (o + (a + b)) - Z.to_nat o) with (Z.to_nat a + Z.to_nat b) by lia.
  apply take_take_drop.
Qed.

(** X10.  Pages of [listContent] compose: for a non-negative offset
    and positive limits [a] and [b], the page of [a] items at [offset]
    followed by the page of [b] items at [offset + a] is the page of
    [a + b] items at [offset]; the three calls report the same
    [totalCount]. *)
Theorem listContent_adjacent_pages E filterTags o a b w :
  reliable E →
  holdsArray (store w) STORAGE_KEYS.contentIndex →
  indexResolvesToPieces (store w) →
  indexList (store w) STORAGE_KEYS.contentIndex ≠ [] →
  (0 <= o)%Z → (0 < a)%Z → (0 < b)%Z →
  ∃ total first second,
    (listContent E (listInput filterTags (Some a) (Some o)) w).1
    = Ok (listing total (contentSummary <$> first))
    ∧ (listContent E (listInput filterTags (Some b) (Some (o + a)%Z)) w).1
      = Ok (listing total (contentSummary <$> second))
    ∧ (listContent E (listInput filterTags (Some (a + b)%Z) (Some o)) w).1
      = Ok (listing total (contentSummary <$> (first ++ second)%list)).
Proof.
  intros Hrel Harr Htyped Hne Ho Ha Hb.
  destruct (listContent_run E Hrel (listInput filterTags (Some a) (Some o)) w
              Harr Htyped Hne) as (w1 & Hrun1 & _).
  destruct (listContent_run E Hrel (listInput filterTags (Some b) (Some (o + a)%Z)) w
              Harr Htyped Hne) as (w2 & Hrun2 & _).
  destruct (listContent_run E Hrel (listInput filterTags (Some (a + b)%Z) (Some o)) w
              Harr Htyped Hne) as (w3 & Hrun3 & _).
  cbv zeta in Hrun1, Hrun2, Hrun3. cbn [tags limit offset listInput] in Hrun1, Hrun2, Hrun3.
  assert (Hlim : ∀ n : Z, (0 < n)%Z → or_number (Some n) 20 = n).
  { intros n Hn. unfold or_number. by rewrite decide_False by lia. }
  assert (Hoff : ∀ n : Z, or_number (Some n) 0 = n).
  { intros n. unfold or_number. by destruct (decide (n = 0%Z)) as [->|]. }
  rewrite !Hoff in Hrun1, Hrun2, Hrun3.
  rewrite Hlim in Hrun1, Hrun2, Hrun3 by lia.
  eexists _, _, _. rewrite Hrun1, Hrun2, Hrun3. cbn [fst].
  split; [reflexivity |]. split; [reflexivity |].
  by rewrite slice_adjacent by lia.
Qed.

Lemma listContent_adjacent_pages_witness :
  ∃ total first second,
    (listContent sampleEnv (listInput None (Some 1%Z) (Some 0%Z)) libraryWorld).1
    = Ok (listing total (contentSummary <$> first))
    ∧ (listContent sampleEnv (listInput None (Some 1%Z) (Some 1%Z)) libraryWorld).1
      = Ok (listing total (contentSummary <$> second))
    ∧ (listContent sampleEnv (listInput None (Some 2%Z) (Some 0%Z)) libraryWorld).1
      = Ok (listing total (contentSummary <$> (first ++ second)%list)).
Proof.
  apply (listContent_adjacent_pages sampleEnv None 0 1 1 libraryWorld
           sampleEnv_reliable libraryWorld_holdsArray libraryWorld_resolves).
  - discriminate.
  - lia.
  - lia.
  - lia.
Defined.

Lemma loadedContent_length st :
  (length (loadedContent st) ≤ length (indexList st STORAGE_KEYS.contentIndex))%nat.
Proof.
  unfold loadedContent. induction (indexList st STORAGE_KEYS.contentIndex) as [|id ids IH].
  - done.
  - cbn. destruct (pieceAt st id); cbn; lia.
Qed.

Lemma loadedContent_consistent st :
  contentIndexConsistent st →
  length (loadedContent st) = length (indexList st STORAGE_KEYS.contentIndex).
Proof.
  intros Hc. unfold loadedContent.
  assert (Hall : Forall (fun id => is_Some (pieceAt st id))
                        (indexList st STORAGE_KEYS.contentIndex)).
  { apply Forall_forall. intros id Hin. by apply Hc. }
  induction Hall as [|id ids [c Hid] _ IH]; [done |].
  cbn. rewrite Hid. cbn. by rewrite IH.
Qed.

Lemma filterContent_length filterTags l :
  (length (filterContent filterTags l) ≤ length l)%nat.
Proof.
  unfold filterContent. destruct (bool_decide _); [apply filter_length_le | done].
Qed.

(** X11.  [listContent] answers "empty" exactly when the content index
    is empty.  With a non-empty index the answer is a "success" listing,
    also when no piece is left (every id dangling, or a tag filter that
    matches nothing: [totalCount] 0 and no items); [totalCount] never
    exceeds the number of indexed ids, and without a tag filter, on a
    store whose index lists exactly the stored pieces, it is that
    number. *)
Theorem listContent_empty_only_for_empty_index E input w :
  reliable E →
  holdsArray (store w) STORAGE_KEYS.contentIndex →
  indexResolvesToPieces (store w) →
  ∃ r w',
    listContent E input w = (Ok r, w')
    ∧ (r = emptyListing ↔ indexList (store w) STORAGE_KEYS.contentIndex = [])
    ∧ (indexList (store w) STORAGE_KEYS.contentIndex ≠ [] →
       ∃ total,
         agentNumber "totalCount" r = Some (Z.of_nat total)
         ∧ (total ≤ length (indexList (store w) STORAGE_KEYS.contentIndex))%nat
         ∧ (filterContent (or_array (tags input)) (loadedContent (store w)) = [] →
            r = listing 0 [])
         ∧ (or_array (tags input) = [] → contentIndexConsistent (store w) →
            total = length (indexList (store w) STORAGE_KEYS.contentIndex))).
Proof.
  intros Hrel Harr Htyped.
  destruct (decide (indexList (store w) STORAGE_KEYS.contentIndex = [])) as [Hempty | Hne].
  - eexists _, _. split; [by apply listContent_empty |].
    split; [done |]. intros Hne. by destruct Hne.
  - destruct (listContent_run E Hrel input w Harr Htyped Hne) as (w' & Hrun & _).
    cbv zeta in Hrun. eexists _, _. split; [exact Hrun |].
    split.
    { split; [discriminate | done]. }
    intros _. eexists. split; [reflexivity |].
    split.
    { rewrite sort_length.
      etrans; [apply filterContent_length | apply loadedContent_length]. }
    split.
    { intros ->. change (sort (newestFirst E) []) with (@nil ContentPiece.t).
      unfold slice. cbv zeta. by rewrite drop_nil, take_nil. }
    intros Htags Hc.
    rewrite sort_length.
    rewrite Htags. unfold filterContent. cbn.
    by apply loadedContent_consistent.
Qed.

Lemma listContent_empty_only_for_empty_index_witness :
  ∃ w',
    listContent sampleEnv (listInput (Some ["poetry"]) None None) libraryWorld
    = (Ok (listing 0 []), w')
    ∧ listing 0 [] ≠ emptyListing.
Proof.
  destruct (listContent_empty_only_for_empty_index sampleEnv
              (listInput (Some ["poetry"]) None None) libraryWorld
              sampleEnv_reliable libraryWorld_holdsArray libraryWorld_resolves)
    as (r & w' & Hrun & _ & Hsome).
  destruct Hsome as (total & _ & _ & Hnone & _); [discriminate |].
  exists w'. rewrite Hrun, Hnone by (vm_compute; reflexivity).
  split; [reflexivity | discriminate].
Defined.

Section Stability.
Context {A : Type} (key : A → Z) (cmp : A → A → Z).
Hypothesis cmp_key : ∀ a b, cmp a b = (key b - key a)%Z.


End Stability.


Lemma mapM_asArticle_loaded st ids :
  Forall (fun id =>
            match st !! STORAGE_KEYS.article id with
            | Some v => is_Some (asArticle v)
            | None => True
            end) ids →
  mapM asArticle (omap (fun id => st !! STORAGE_KEYS.article id) ids)
  = Some (omap (articleAt st) ids).
Proof.
  induction 1 as [|id ids Hid _ IH]; [reflexivity |].
  cbn [omap list_omap]. unfold articleAt at 1.
  destruct (st !! STORAGE_KEYS.article id) as [v|]; simpl.
  - destruct Hid as [c Hc]. rewrite Hc. cbn.
    fold (omap (fun id => st !! STORAGE_KEYS.article id) ids).
    rewrite IH. reflexivity.
  - exact IH.
Qed.

(** X13.  [listArticles], on a store that answers and whose indexed
    article keys hold articles: with an empty article index it answers
    "empty" with both counts 0; otherwise it loads every indexed article
    (ids without a record are skipped), sorts by [updatedAt], most
    recent first, and returns the page
    [slice(offset, offset + limit)]; [totalCount] is the number of
    loaded articles, [returnedCount] the length of the page, an item
    carries id, title, version, createdAt and updatedAt and never the
    article body, the page is no longer than a positive limit, and the
    [tags] of the input play no part. *)
Theorem listArticles_spec E input w :
  reliable E →
  holdsArray (store w) STORAGE_KEYS.articleIndex →
  indexResolvesToArticles (store w) →
  (indexList (store w) STORAGE_KEYS.articleIndex = [] →
   listArticles E input w = (Ok emptyListing, bump w))
  ∧ (indexList (store w) STORAGE_KEYS.articleIndex ≠ [] →
     ∃ sorted page r w',
       listArticles E input w = (Ok r, w')
       ∧ store w' = store w
       ∧ sorted ≡ₚ loadedArticles (store w)
       ∧ descending (updatedTime E) sorted
       ∧ page = slice sorted (effectiveOffset input)
                      (effectiveOffset input + effectiveLimit input)
       ∧ r = listing (length sorted) (articleSummary <$> page)
       ∧ agentNumber "totalCount" r = Some (Z.of_nat (length (loadedArticles (store w))))
       ∧ agentNumber "returnedCount" r = Some (Z.of_nat (length page))
       ∧ Forall (fun item => fieldNames item = articleFields) (articleSummary <$> page)
       ∧ ((0 < effectiveLimit input)%Z →
          (Z.of_nat (length page) <= effectiveLimit input)%Z))
  ∧ (∀ filterTags,
       listArticles E (listInput filterTags (limit input) (offset input))
       = listArticles E input).
Proof.
  intros Hrel Harr Htyped. split; [| split].
  - intros Hempty. unfold listArticles, getArticleIndex, bind.
    rewrite storage_get_run by done.
    rewrite (asArray_run _ _ _ _ Harr). cbn [store bump]. by rewrite Hempty.
  - intros Hne.
    set (sorted := sort (lastUpdatedFirst E) (loadedArticles (store w))).
    exists sorted, (slice sorted (effectiveOffset input)
                     (effectiveOffset input + effectiveLimit input)).
    assert (Hperm : sorted ≡ₚ loadedArticles (store w)) by apply sort_perm.
    eexists _, {| store := store w; tick := _ |}. split.
    { unfold listArticles, getArticleIndex, bind.
      rewrite storage_get_run by done.
      rewrite (asArray_run _ _ _ _ Harr). cbn [store bump].
      rewrite bool_decide_eq_false_2.
      2:{ intros Hlen. apply Hne. by apply nil_length_inv. }
      rewrite loadAll_article by done. cbv beta iota.
      change (store (bump w)) with (store w).
      rewrite (mapM_asArticle_loaded _ _ Htyped). reflexivity. }
    split; [reflexivity |]. split; [exact Hperm |].
    split.
    { apply (sort_descending (updatedTime E)). reflexivity. }
    split; [reflexivity |]. split; [reflexivity |].
    split.
    { rewrite <- (Permutation_length Hperm). reflexivity. }
    split.
    { unfold listing, agentNumber. cbn. rewrite length_fmap. reflexivity. }
    split.
    { apply Forall_fmap, Forall_forall. intros c _. reflexivity. }
    intros Hpos. apply slice_length_le. lia.
  - intros filterTags. reflexivity.
Qed.

Lemma listArticles_spec_witness :
  ∃ r w',
    listArticles sampleEnv (listInput (Some ["unused"]) (Some 5%Z) None) deskWorld
    = (Ok r, w')
    ∧ agentNumber "totalCount" r = Some 1%Z.
Proof.
  destruct (listArticles_spec sampleEnv (listInput (Some ["unused"]) (Some 5%Z) None)
              deskWorld sampleEnv_reliable deskWorld_articleIndex_array)
    as (_ & H & _).
  { vm_compute. repeat constructor. by eexists. }
  destruct H as (sorted & page & r & w' & Hrun & _ & _ & _ & _ & _ & Htotal & _).
  { discriminate. }
  exists r, w'. split; [exact Hrun |]. rewrite Htotal. reflexivity.
Defined.

(** X14.  [getContent], on a store that answers: when nothing is
    stored under the key of the id it returns the passthrough error
    "Content not found"; when a piece is stored it returns a passthrough
    result of content type "content" whose metadata are the title, the
    source, the tags and the time stamp of that piece; in both cases one
    storage call is made and the store is unchanged. *)
Theorem getContentAction_spec E input w :
  reliable E →
  (store w !! STORAGE_KEYS.content (interpolate (contentId input)) = None →
   getContentAction E input w = (Ok contentNotFound, bump w))
  ∧ (∀ c, pieceAt (store w) (interpolate (contentId input)) = Some c →
       ∃ r,
         getContentAction E input w = (Ok r, bump w)
         ∧ responseMode r = passthrough
         ∧ agentData r = None
         ∧ userField "contentType" r = Some (JStr "content")
         ∧ userField "metadata" r
           = Some (JObj [("title", JStr (ContentPiece.title c));
                         ("source", JStr (ContentPiece.source c));
                         ("tags", JStrings (ContentPiece.tags c));
                         ("addedAt", JStr (ContentPiece.addedAt c))])
         ∧ r ≠ contentNotFound).
Proof.
  intros Hrel. split.
  - intros Hnone. unfold getContentAction, getContent, bind.
    rewrite storage_get_run by done. by rewrite Hnone.
  - intros c Hat. unfold getContentAction, getContent, bind.
    rewrite storage_get_run by done. unfold pieceAt in Hat.
    destruct (store w !! STORAGE_KEYS.content (interpolate (contentId input)))
      as [[c'|a|ids]|]; try discriminate.
    injection Hat as ->.
    eexists. split; [reflexivity |]. repeat split. discriminate.
Qed.

Lemma getContentAction_spec_witness :
  getContentAction sampleEnv (contentIdInput "feedfacefeedface") libraryWorld
  = (Ok contentNotFound, bump libraryWorld)
  ∧ ∃ r,
      getContentAction sampleEnv (contentIdInput (ContentPiece.id pieceB)) libraryWorld
      = (Ok r, bump libraryWorld)
      ∧ userField "contentType" r = Some (JStr "content").
Proof.
  split.
  - apply (getContentAction_spec sampleEnv (contentIdInput "feedfacefeedface")
             libraryWorld sampleEnv_reliable).
    vm_compute. reflexivity.
  - destruct (getContentAction_spec sampleEnv (contentIdInput (ContentPiece.id pieceB))
                libraryWorld sampleEnv_reliable) as [_ H].
    destruct (H pieceB) as (r & Hrun & _ & _ & Htype & _).
    { vm_compute. reflexivity. }
    exists r. split; [exact Hrun | exact Htype].
Defined.

(* ===================================================================== *)
(** ** Further properties of the article handlers *)
(* ===================================================================== *)

Lemma stored_article_not_index st id a :
  holdsArray st STORAGE_KEYS.articleIndex → articleAt st id = Some a → id ≠ "index".
Proof.
  intros Harr Hat ->. unfold articleAt in Hat. rewrite article_key_index in Hat.
  unfold holdsArray in Harr.
  destruct (st !! STORAGE_KEYS.articleIndex) as [[?|?|?]|];
    simpl in Hat; try discriminate; contradiction.
Qed.

(** X15.  The title of a created article: a non-empty [title] of the
    input wins; without one the first level-one heading of the generated
    text is taken; without that the title is "Untitled Article".  The
    title is never empty, the content is the model's message (the empty
    string when the message has none), and the answer carries the id
    and the title of the stored article. *)
Theorem createArticle_title E input config w ids instr key completion :
  reliable E →
  idsNeverReserved E →
  holdsArray (store w) STORAGE_KEYS.articleIndex →
  contentIds input = Some ids →
  (∃ id, id ∈ ids ∧ is_Some (pieceAt (store w) id)) →
  instructions input = Some instr →
  apiKeyOf E config = Some key →
  chatCompletion E (tick w + length ids) key writerPersona
    (createPrompt instr
       (sourceBlock <$> omap (fun id => store w !! STORAGE_KEYS.content id) ids)
       (title input))
  = Fulfils completion →
  ∃ a w',
    createArticle E input config w = (Ok (createdEnvelope a), w')
    ∧ store w' = putArticle a (store w)
    ∧ Article.content a = or_string completion ""
    ∧ (∀ t, title input = Some t → t ≠ "" → Article.title a = t)
    ∧ (or_else (title input) None = None →
       ∀ h, matchH1 E (Article.content a) = Some h → h ≠ "" → Article.title a = h)
    ∧ (or_else (title input) None = None →
       or_else (matchH1 E (Article.content a)) None = None →
       Article.title a = "Untitled Article")
    ∧ Article.title a ≠ "".
Proof.
  intros Hrel Hres Harr Hids Hsome Hinstr Hkey Hchat.
  unfold createArticle. rewrite Hids.
  unfold bind at 1. cbn [ret]. unfold bind at 1.
  rewrite loadAll_content by done.
  rewrite (createArticle_found_some input w ids Hids Hsome).
  unfold bind at 1. rewrite getOpenAI_run, Hkey.
  unfold bind at 1. rewrite Hinstr. cbn [required ret].
  unfold bind at 1, await at 1. cbn [tick store]. rewrite Hchat.
  unfold bind at 1, generateId, currentTime, event. cbn [bump store tick].
  unfold bind at 1. cbn [bump store tick].
  unfold bind at 1. cbn [bump store tick].
  unfold bind at 1.
  match goal with |- context [setArticle E ?a ?w0] =>
    set (art := a); set (w0' := w0)
  end.
  assert (Hne : Article.id art ≠ "index") by apply Hres.
  destruct (setArticle_run E Hrel art w0') as (t & _ & Hrun).
  { apply holdsArray_insert_article; [exact Hne | exact Harr]. }
  rewrite Hrun. cbn [ret].
  exists art. eexists. split; [reflexivity |].
  split; [reflexivity |]. split; [reflexivity |].
  subst art. cbn [Article.title Article.content].
  split.
  { intros t' -> Ht. unfold or_else, or_string. by rewrite !decide_False. }
  split.
  { intros Hno h -> Hh. unfold or_else in Hno |- *.
    destruct (title input) as [t'|]; [destruct (decide (t' = "")); [| done] |];
      unfold or_string; by rewrite decide_False. }
  split.
  { intros Hno Hnoh. unfold or_else in Hno, Hnoh |- *.
    destruct (title input) as [t'|]; [destruct (decide (t' = "")); [| done] |];
      (destruct (matchH1 E _) as [h|]; [destruct (decide (h = "")) as [->|]; [| done] |]);
      reflexivity. }
  unfold or_string, or_else.
  destruct (title input) as [t'|]; [destruct (decide (t' = "")) |];
    (destruct (matchH1 E _) as [h|]; [destruct (decide (h = "")); try subst h |]);
    cbn; try destruct (decide _); try done.
Qed.

Lemma createArticle_title_witness :
  ∃ a w',
    createArticle sampleEnv
      (createInput [ContentPiece.id pieceA] "Summarise." (Some "Whales")) (Some sampleConfig)
      libraryWorld
    = (Ok (createdEnvelope a), w')
    ∧ Article.title a = "Whales".
Proof.
  destruct (createArticle_title sampleEnv
              (createInput [ContentPiece.id pieceA] "Summarise." (Some "Whales"))
              (Some sampleConfig) libraryWorld [ContentPiece.id pieceA]
              "Summarise." "sk-test" (Some "A short article.")
              sampleEnv_reliable sampleEnv_idsNeverReserved
              libraryWorld_articleIndex_array eq_refl)
    as (a & w' & Hrun & _ & _ & Htitle & _).
  - exists (ContentPiece.id pieceA). split; [apply list_elem_of_here | by eexists].
  - reflexivity.
  - reflexivity.
  - reflexivity.
  - exists a, w'. split; [exact Hrun |]. apply Htitle; [reflexivity | discriminate].
Defined.

(** X16.  What [updateArticle] leaves alone.  For a stored, indexed
    article, a configured credential, a store that answers and a model
    that answers, the revised article keeps its id, title, instructions
    and creation time; the article index is unchanged, every other
    article is unchanged and no key outside the article keys is
    written. *)
Theorem updateArticle_keeps_identity E input config w id a key :
  reliable E →
  modelAnswers E →
  holdsArray (store w) STORAGE_KEYS.articleIndex →
  articleId input = Some id →
  articleAt (store w) id = Some a →
  Article.id a = id →
  id ∈ indexList (store w) STORAGE_KEYS.articleIndex →
  apiKeyOf E config = Some key →
  ∃ a' w',
    updateArticle E input config w = (Ok (revisedEnvelope a'), w')
    ∧ articleAt (store w') id = Some a'
    ∧ Article.id a' = Article.id a
    ∧ Article.title a' = Article.title a
    ∧ Article.instructions a' = Article.instructions a
    ∧ Article.createdAt a' = Article.createdAt a
    ∧ indexList (store w') STORAGE_KEYS.articleIndex
      = indexList (store w) STORAGE_KEYS.articleIndex
    ∧ (∀ id', id' ≠ id → articleAt (store w') id' = articleAt (store w) id')
    ∧ (∀ k, (∀ id', k ≠ STORAGE_KEYS.article id') → store w' !! k = store w !! k).
Proof.
  intros Hrel Hchat Harr Hinput Hat Hid Hin Hkey.
  pose proof (stored_article_not_index _ _ _ Harr Hat) as Hne.
  destruct (updateArticle_revises E Hrel input config w id a key
              Hchat Harr Hinput Hat Hid Hkey)
    as (completion & n & w' & Hrun & _ & _ & Hstore).
  set (a' := revised a completion (or_array (additionalContentIds input))
                     (toISOString E n)) in *.
  assert (Hid' : Article.id a' = id) by exact Hid.
  assert (Hne' : Article.id a' ≠ "index") by congruence.
  assert (Hinc : includes (indexList (store w) STORAGE_KEYS.articleIndex)
                          (Article.id a') = true).
  { apply includes_spec. by rewrite Hid'. }
  exists a', w'. split; [exact Hrun |]. rewrite Hstore.
  split.
  { rewrite putArticle_lookup by done. by rewrite decide_True. }
  do 4 (split; [reflexivity |]).
  split.
  { rewrite putArticle_index by done. by rewrite Hinc. }
  split.
  { intros id' Hid''. rewrite putArticle_lookup by done.
    rewrite decide_False by congruence. rewrite Hinc.
    by destruct (decide (id' = "index")). }
  intros k Hk. by apply putArticle_other_keys.
Qed.

Lemma deskWorld_article : articleAt (store deskWorld) (Article.id articleA) = Some articleA.
Proof. vm_compute. reflexivity. Qed.

Lemma updateArticle_keeps_identity_witness :
  ∃ a' w',
    updateArticle sampleEnv (updateInput (Article.id articleA) "Shorten." None)
                  (Some sampleConfig) deskWorld
    = (Ok (revisedEnvelope a'), w')
    ∧ Article.title a' = "Test Article"
    ∧ pieceAt (store w') (ContentPiece.id pieceA) = Some pieceA.
Proof.
  destruct (updateArticle_keeps_identity sampleEnv
              (updateInput (Article.id articleA) "Shorten." None) (Some sampleConfig)
              deskWorld (Article.id articleA) articleA "sk-test"
              sampleEnv_reliable sampleEnv_modelAnswers deskWorld_articleIndex_array
              eq_refl deskWorld_article eq_refl)
    as (a' & w' & Hrun & _ & _ & Htitle & _ & _ & _ & _ & Hkeys).
  - vm_compute. apply list_elem_of_here.
  - reflexivity.
  - exists a', w'. split; [exact Hrun |]. split; [exact Htitle |].
    unfold pieceAt. rewrite Hkeys by (intros id'; apply content_key_not_article).
    vm_compute. reflexivity.
Defined.

Section UpdateArticleFailures.
Context (E : Env) (Hrel : reliable E).

Lemma updateArticle_without_credential input config w id a :
  articleId input = Some id →
  articleAt (store w) id = Some a →
  apiKeyOf E config = None →
  ∃ w',
    updateArticle E input config w
    = (Throws (ErrorExn "OPENAI_API_KEY not configured"), w')
    ∧ store w' = store w.
Proof.
  intros Hinput Hat Hkey.
  unfold updateArticle, getArticle. rewrite Hinput. cbn [interpolate].
  unfold bind at 1. rewrite storage_get_run by done.
  unfold articleAt in Hat.
  destruct (store w !! STORAGE_KEYS.article id) as [[c|a0|l]|] eqn:Hst;
    simpl in Hat; try discriminate.
  unfold bind at 1. rewrite loadAll_content by done.
  unfold bind at 1. rewrite getOpenAI_run, Hkey.
  eexists. split; reflexivity.
Qed.

Lemma updateArticle_model_fails input config w id a key e :
  articleId input = Some id →
  articleAt (store w) id = Some a →
  apiKeyOf E config = Some key →
  chatCompletion E (tick w + 1 + length (or_array (additionalContentIds input)))
    key editorPersona
    (revisionPrompt (Some (Article.content a)) (instructions input)
       (sourceBlock <$> omap (fun i => store w !! STORAGE_KEYS.content i)
                             (or_array (additionalContentIds input))))
  = Rejects e →
  ∃ w', updateArticle E input config w = (Throws e, w') ∧ store w' = store w.
Proof.
  intros Hinput Hat Hkey Hfail.
  unfold updateArticle, getArticle. rewrite Hinput. cbn [interpolate].
  unfold bind at 1. rewrite storage_get_run by done.
  unfold articleAt in Hat.
  destruct (store w !! STORAGE_KEYS.article id) as [[c|a0|l]|] eqn:Hst;
    simpl in Hat; try discriminate.
  injection Hat as ->.
  unfold bind at 1. rewrite loadAll_content by done.
  unfold bind at 1. rewrite getOpenAI_run, Hkey.
  unfold bind at 1, await at 1. cbn [store tick bump contentOf].
  replace (S (tick w) + length (or_array (additionalContentIds input)))
    with (tick w + 1 + length (or_array (additionalContentIds input))) by lia.
  rewrite Hfail. eexists. split; reflexivity.
Qed.

End UpdateArticleFailures.

Lemma invoke_updateArticle_throws E args conf w e w' :
  updateArticle E args conf w = (Throws e, w') →
  invoke E (invocation "updateArticle" args conf) w
  = (Ok (errorEnvelope (errorMessage e)), w').
Proof.
  intros Hrun. unfold invoke, invocation. cbn [storage].
  unfold try_catch, dispatch. cbn [action input config String.eqb Ascii.eqb Bool.eqb].
  by rewrite Hrun.
Qed.

(** X17.  A revision that fails changes nothing.  For a stored article
    and a store that answers: without a credential [updateArticle]
    throws the configuration error, and when the model rejects the
    request it throws that rejection; in both cases the store is as
    before (the stored article keeps its content and its version) and
    the dispatcher answers with the error envelope that carries the
    message. *)
Theorem updateArticle_failure_changes_nothing E input config w id a :
  reliable E →
  articleId input = Some id →
  articleAt (store w) id = Some a →
  (apiKeyOf E config = None →
   ∃ w',
     updateArticle E input config w
     = (Throws (ErrorExn "OPENAI_API_KEY not configured"), w')
     ∧ store w' = store w
     ∧ invoke E (invocation "updateArticle" input config) w
       = (Ok (errorEnvelope "OPENAI_API_KEY not configured"), w'))
  ∧ (∀ key e,
       apiKeyOf E config = Some key →
       chatCompletion E (tick w + 1 + length (or_array (additionalContentIds input)))
         key editorPersona
         (revisionPrompt (Some (Article.content a)) (instructions input)
            (sourceBlock <$> omap (fun i => store w !! STORAGE_KEYS.content i)
                                  (or_array (additionalContentIds input))))
       = Rejects e →
       ∃ w',
         updateArticle E input config w = (Throws e, w')
         ∧ store w' = store w
         ∧ invoke E (invocation "updateArticle" input config) w
           = (Ok (errorEnvelope (errorMessage e)), w')).
Proof.
  intros Hrel Hinput Hat. split.
  - intros Hkey.
    destruct (updateArticle_without_credential E Hrel input config w id a
                Hinput Hat Hkey) as (w' & Hrun & Hstore).
    exists w'. split; [exact Hrun |]. split; [exact Hstore |].
    exact (invoke_updateArticle_throws E input config w _ w' Hrun).
  - intros key e Hkey Hfail.
    destruct (updateArticle_model_fails E Hrel input config w id a key e
                Hinput Hat Hkey Hfail) as (w' & Hrun & Hstore).
    exists w'. split; [exact Hrun |]. split; [exact Hstore |].
    exact (invoke_updateArticle_throws E input config w e w' Hrun).
Qed.

Lemma updateArticle_failure_changes_nothing_witness :
  (∃ w',
     invoke sampleEnv
       (invocation "updateArticle" (updateInput (Article.id articleA) "Shorten." None) None)
       deskWorld
     = (Ok (errorEnvelope "OPENAI_API_KEY not configured"), w')
     ∧ store w' = store deskWorld)
  ∧ (∃ w',
       invoke offlineEnv
         (invocation "updateArticle" (updateInput (Article.id articleA) "Shorten." None)
                     (Some sampleConfig))
         deskWorld
       = (Ok (errorEnvelope "Connection error."), w')
       ∧ store w' = store deskWorld).
Proof.
  split.
  - destruct (updateArticle_failure_changes_nothing sampleEnv
                (updateInput (Article.id articleA) "Shorten." None) None deskWorld
                (Article.id articleA) articleA sampleEnv_reliable eq_refl deskWorld_article)
      as [H _].
    destruct (H eq_refl) as (w' & _ & Hstore & Hrun).
    exists w'. split; assumption.
  - destruct (updateArticle_failure_changes_nothing offlineEnv
                (updateInput (Article.id articleA) "Shorten." None) (Some sampleConfig)
                deskWorld (Article.id articleA) articleA offlineEnv_reliable eq_refl
                deskWorld_article)
      as [_ H].
    destruct (H "sk-test" (ErrorExn "Connection error.") eq_refl eq_refl)
      as (w' & _ & Hstore & Hrun).
    exists w'. split; assumption.
Defined.

Lemma spreadSet_from_seen seen seen' l :
  (∀ x, x ∈ seen ↔ x ∈ seen') → spreadSet_from seen l = spreadSet_from seen' l.
Proof.
  revert seen seen'. induction l as [|y l IH]; intros seen seen' Heq; [done |].
  cbn [spreadSet_from].
  assert (Hinc : includes seen y = includes seen' y).
  { unfold includes. apply bool_decide_ext, Heq. }
  rewrite Hinc. destruct (includes seen' y); [by apply IH |].
  f_equal. apply IH. intros x. rewrite !elem_of_cons, Heq. done.
Qed.

Lemma spreadSet_from_app seen l1 l2 :
  spreadSet_from seen (l1 ++ l2)
  = (spreadSet_from seen l1 ++ spreadSet_from (l1 ++ seen) l2)%list.
Proof.
  revert seen. induction l1 as [|y l1 IH]; intros seen; [done |].
  cbn [app spreadSet_from]. destruct (includes seen y) eqn:Hy.
  - rewrite IH. f_equal. apply spreadSet_from_seen. intros x.
    apply includes_spec in Hy.
    rewrite elem_of_cons, !elem_of_app. split; [tauto |].
    intros [-> | H]; [by right | exact H].
  - cbn [app]. rewrite IH. do 2 f_equal. apply spreadSet_from_seen. intros x.
    rewrite !elem_of_app, !elem_of_cons, elem_of_app. tauto.
Qed.

Lemma spreadSet_from_NoDup seen l :
  NoDup l → (∀ x, x ∈ l → x ∉ seen) → spreadSet_from seen l = l.
Proof.
  revert seen. induction l as [|y l IH]; intros seen Hnd Hfresh; [done |].
  apply NoDup_cons in Hnd as [Hy Hnd]. cbn [spreadSet_from].
  rewrite (proj2 (includes_false seen y)) by (apply Hfresh, list_elem_of_here).
  f_equal. apply IH; [exact Hnd |].
  intros x Hx. rewrite not_elem_of_cons. split.
  - intros ->. contradiction.
  - apply Hfresh. by apply list_elem_of_further.
Qed.

(** X18.  Where [updateArticle] puts additional source ids.  When the
    stored article lists no source id twice and additional ids are
    given, the revised article lists the old source ids first, in their
    order, followed by the additional ids that are new, each once, in
    the order of their first occurrence; whether an additional id
    resolves to a stored piece plays no part. *)
Theorem updateArticle_appends_new_sources E input config w id a key extra :
  reliable E →
  modelAnswers E →
  holdsArray (store w) STORAGE_KEYS.articleIndex →
  articleId input = Some id →
  articleAt (store w) id = Some a →
  Article.id a = id →
  apiKeyOf E config = Some key →
  additionalContentIds input = Some extra →
  extra ≠ [] →
  NoDup (Article.sourceContentIds a) →
  ∃ a' added w',
    updateArticle E input config w = (Ok (revisedEnvelope a'), w')
    ∧ articleAt (store w') id = Some a'
    ∧ Article.sourceContentIds a' = (Article.sourceContentIds a ++ added)%list
    ∧ NoDup added
    ∧ (∀ x, x ∈ added ↔ x ∈ extra ∧ x ∉ Article.sourceContentIds a)
    ∧ added = spreadSet_from (Article.sourceContentIds a) extra.
Proof.
  intros Hrel Hchat Harr Hinput Hat Hid Hkey Hextra Hne Hnd.
  pose proof (stored_article_not_index _ _ _ Harr Hat) as Hni.
  destruct (updateArticle_revises E Hrel input config w id a key
              Hchat Harr Hinput Hat Hid Hkey)
    as (completion & n & w' & Hrun & _ & _ & Hstore).
  rewrite Hextra in Hrun, Hstore. cbn [or_array default] in Hrun, Hstore.
  set (a' := revised a completion extra (toISOString E n)) in *.
  exists a', (spreadSet_from (Article.sourceContentIds a) extra), w'.
  split; [exact Hrun |].
  split.
  { rewrite Hstore, putArticle_lookup by (cbn; congruence).
    rewrite decide_True; [done | by symmetry]. }
  split.
  { subst a'. cbn [revised Article.sourceContentIds].
    rewrite bool_decide_eq_true_2 by (destruct extra; [done | cbn; lia]).
    unfold spreadSet. rewrite spreadSet_from_app.
    rewrite spreadSet_from_NoDup; [| exact Hnd | intros x _; apply not_elem_of_nil].
    f_equal. apply spreadSet_from_seen. intros x.
    rewrite elem_of_app. split; [intros [H | H]; [exact H | by inversion H] | tauto]. }
  split; [apply spreadSet_from_spec |].
  split; [apply spreadSet_from_spec | reflexivity].
Qed.

Lemma updateArticle_appends_new_sources_witness :
  ∃ a' w',
    updateArticle sampleEnv
      (updateInput (Article.id articleA) "Extend."
                   (Some ["feedfacefeedface"; ContentPiece.id pieceA; "feedfacefeedface";
                          ContentPiece.id pieceB]))
      (Some sampleConfig) deskWorld
    = (Ok (revisedEnvelope a'), w')
    ∧ Article.sourceContentIds a'
      = [ContentPiece.id pieceA; "feedfacefeedface"; ContentPiece.id pieceB].
Proof.
  destruct (updateArticle_appends_new_sources sampleEnv
              (updateInput (Article.id articleA) "Extend."
                 (Some ["feedfacefeedface"; ContentPiece.id pieceA; "feedfacefeedface";
                        ContentPiece.id pieceB]))
              (Some sampleConfig) deskWorld (Article.id articleA) articleA "sk-test"
              ["feedfacefeedface"; ContentPiece.id pieceA; "feedfacefeedface";
               ContentPiece.id pieceB]
              sampleEnv_reliable sampleEnv_modelAnswers deskWorld_articleIndex_array
              eq_refl deskWorld_article eq_refl eq_refl eq_refl)
    as (a' & added & w' & Hrun & _ & Hsrc & _ & _ & Hadded).
  - discriminate.
  - vm_compute. apply NoDup_singleton.
  - exists a', w'. split; [exact Hrun |]. rewrite Hsrc, Hadded.
    vm_compute. reflexivity.
Defined.

(** X19.  Where [getOpenAI] takes the credential from: a non-empty
    [OPENAI_API_KEY] of the configuration wins over the process
    environment; a configuration that is absent, has no such key or has
    the empty string falls back to a non-empty variable of the process
    environment; when neither is there the configuration error is
    thrown.  Nothing happens to the world in any case. *)
Theorem getOpenAI_precedence E config w :
  (∀ c k, config = Some c → config_get c "OPENAI_API_KEY" = Some k → k ≠ "" →
          getOpenAI E config w = (Ok k, w))
  ∧ (∀ k, or_else (config ≫= fun c => config_get c "OPENAI_API_KEY") None = None →
          processEnvApiKey E = Some k → k ≠ "" →
          getOpenAI E config w = (Ok k, w))
  ∧ (or_else (config ≫= fun c => config_get c "OPENAI_API_KEY") None = None →
     or_else (processEnvApiKey E) None = None →
     getOpenAI E config w = (Throws (ErrorExn "OPENAI_API_KEY not configured"), w))
  ∧ (∀ k w', getOpenAI E config w = (Ok k, w') → k ≠ "" ∧ w' = w).
Proof.
  unfold getOpenAI, or_else. cbv zeta. repeat split.
  - intros c k -> Hc Hk. rewrite Hc. by rewrite !decide_False.
  - intros k Hno Henv Hk. rewrite Henv.
    destruct config as [c|]; cbn in Hno |- *;
      [destruct (config_get c "OPENAI_API_KEY") as [k'|];
       [destruct (decide (k' = "")); [| done] |] |];
      by rewrite decide_False.
  - intros Hno Hnoenv.
    destruct config as [c|]; cbn in Hno |- *;
      [destruct (config_get c "OPENAI_API_KEY") as [k'|];
       [destruct (decide (k' = "")); [| done] |] |];
      (destruct (processEnvApiKey E) as [k''|];
       [destruct (decide (k'' = "")); [| done] |]); reflexivity.
  - revert H.
    destruct config as [c|];
      [destruct (config_get c "OPENAI_API_KEY") as [k'|];
       [destruct (decide (k' = "")) |] |];
      try (destruct (processEnvApiKey E) as [k''|];
           [destruct (decide (k'' = "")) |]);
      cbn; try destruct (decide _); intros H; try discriminate;
      injection H as <- <-; done.
  - revert H.
    destruct config as [c|];
      [destruct (config_get c "OPENAI_API_KEY") as [k'|];
       [destruct (decide (k' = "")) |] |];
      try (destruct (processEnvApiKey E) as [k''|];
           [destruct (decide (k'' = "")) |]);
      cbn; try destruct (decide _); intros H; try discriminate;
      injection H as <- <-; done.
Qed.

Lemma getOpenAI_precedence_witness :
  getOpenAI sampleEnv (Some sampleConfig) emptyWorld = (Ok "sk-test", emptyWorld).
Proof.
  destruct (getOpenAI_precedence sampleEnv (Some sampleConfig) emptyWorld) as [H _].
  apply (H sampleConfig "sk-test"); [reflexivity | reflexivity | discriminate].
Defined.

(* ===================================================================== *)
(** ** Extraction of feeds and pages *)
(* ===================================================================== *)

Lemma or_string_nonempty o d : d ≠ "" → or_string o d ≠ "".
Proof.
  intros Hd. unfold or_string. destruct o as [s|]; [| exact Hd].
  by destruct (decide (s = "")).
Qed.

Lemma or_string_some s d : s ≠ "" → or_string (Some s) d = s.
Proof. intros Hs. unfold or_string. by rewrite decide_False. Qed.

Lemma or_else_some s o : s ≠ "" → or_else (Some s) o = Some s.
Proof. intros Hs. unfold or_else. by rewrite decide_False. Qed.

Lemma or_else_none o1 o2 : or_else o1 None = None → or_else o1 o2 = o2.
Proof.
  unfold or_else. destruct o1 as [s|]; [| done].
  by destruct (decide (s = "")).
Qed.

(** X20.  [fetchFeedContent]: when the feed parses, there is one entry
    per item, in the order of the feed; the title of an entry is the
    title of the item, "Untitled" when the item has none or an empty
    one, and so never empty; the content is the first of
    [contentSnippet], [content] and [summary] that is present and not
    empty, the empty string when none is; the link is the link of the
    item, the URL of the feed when the item has none.  When the feed
    does not parse, the rejection is thrown.  One external call is made
    and the store is not touched. *)
Theorem fetchFeedContent_spec E u w :
  (∀ items,
     parseURL E (tick w) u = Fulfils items →
     ∃ entries,
       fetchFeedContent E u w = (Ok entries, bump w)
       ∧ length entries = length items
       ∧ ∀ i item,
           items !! i = Some item →
           ∃ entry,
             entries !! i = Some entry
             ∧ FeedEntry.title entry = or_string (RssItem.title item) "Untitled"
             ∧ FeedEntry.title entry ≠ ""
             ∧ (∀ s, RssItem.contentSnippet item = Some s → s ≠ "" →
                     FeedEntry.content entry = s)
             ∧ (or_else (RssItem.contentSnippet item) None = None →
                ∀ s, RssItem.content item = Some s → s ≠ "" →
                     FeedEntry.content entry = s)
             ∧ (or_else (RssItem.contentSnippet item) None = None →
                or_else (RssItem.content item) None = None →
                FeedEntry.content entry = or_string (RssItem.summary item) "")
             ∧ FeedEntry.link entry = or_string (RssItem.link item) u)
  ∧ (∀ e, parseURL E (tick w) u = Rejects e →
          fetchFeedContent E u w = (Throws e, bump w)).
Proof.
  split.
  - intros items Hparse. unfold fetchFeedContent, bind, await. rewrite Hparse.
    eexists. split; [reflexivity |]. split; [by rewrite length_fmap |].
    intros i item Hi. eexists. split.
    { rewrite list_lookup_fmap, Hi. reflexivity. }
    cbn [FeedEntry.title FeedEntry.content FeedEntry.link].
    split; [reflexivity |].
    split; [by apply or_string_nonempty |].
    split.
    { intros s -> Hs. rewrite (or_else_some s) by done.
      rewrite (or_else_some s) by done. by apply or_string_some. }
    split.
    { intros Hno s -> Hs. rewrite (or_else_none _ _ Hno).
      rewrite (or_else_some s) by done. by apply or_string_some. }
    split; [| reflexivity].
    intros Hno1 Hno2. rewrite (or_else_none _ _ Hno1), (or_else_none _ _ Hno2).
    reflexivity.
  - intros e Hparse. unfold fetchFeedContent, bind, await. by rewrite Hparse.
Qed.

Lemma fetchFeedContent_spec_witness :
  ∃ entries,
    fetchFeedContent sampleEnv feedUrl emptyWorld = (Ok entries, bump emptyWorld)
    ∧ length entries = 2.
Proof.
  destruct (fetchFeedContent_spec sampleEnv feedUrl emptyWorld) as [H _].
  destruct (H sampleFeed eq_refl) as (entries & Hrun & Hlen & _).
  exists entries. split; [exact Hrun | exact Hlen].
Defined.

Lemma firstSelected_first E root pre selector post text :
  Forall (fun s => querySelectorText root s = None) pre →
  querySelectorText root selector = Some text →
  firstSelected E root (pre ++ selector :: post) = trim E text.
Proof.
  intros Hpre Hsel. induction Hpre as [|s pre Hs _ IH]; cbn [app firstSelected].
  - by rewrite Hsel.
  - by rewrite Hs.
Qed.

Lemma firstSelected_none E root selectors :
  Forall (fun s => querySelectorText root s = None) selectors →
  firstSelected E root selectors = "".
Proof.
  induction 1 as [|s l Hs _ IH]; cbn [firstSelected]; [done |]. by rewrite Hs.
Qed.

(** X21.  [fetchSingleContent]: when the page is fetched, the title is
    the OpenGraph title if it is present and not empty, else the text of
    the [title] element if present and not empty, else "Untitled", and
    so never empty.  The content is taken from the first of the six
    content selectors that matches, and later selectors are not
    consulted; when the trimmed text of that element is empty, or no
    selector matches, the content is taken from [body], and is empty
    when there is no body.  The text is trimmed, its white space
    collapsed and trimmed again.  When the fetch fails the rejection is
    thrown.  One external call is made and the store is not touched. *)
Theorem fetchSingleContent_spec E u w :
  (∀ root,
     fetchPage E (tick w) u = Fulfils root →
     ∃ pageTitle content,
       fetchSingleContent E u w = (Ok (pageTitle, content), bump w)
       ∧ pageTitle ≠ ""
       ∧ (∀ t, ogTitle root = Some t → t ≠ "" → pageTitle = t)
       ∧ (or_else (ogTitle root) None = None →
          pageTitle = or_string (querySelectorText root "title") "Untitled")
       ∧ (∀ pre selector post text,
            contentSelectors = (pre ++ selector :: post)%list →
            Forall (fun s => querySelectorText root s = None) pre →
            querySelectorText root selector = Some text →
            (trim E text ≠ "" →
             content = trim E (collapseWhitespace E (trim E text)))
            ∧ (trim E text = "" →
               content
               = trim E (collapseWhitespace E
                           (or_string (trim E <$> querySelectorText root "body") ""))))
       ∧ (Forall (fun s => querySelectorText root s = None) contentSelectors →
          content
          = trim E (collapseWhitespace E
                      (or_string (trim E <$> querySelectorText root "body") ""))))
  ∧ (∀ e, fetchPage E (tick w) u = Rejects e →
          fetchSingleContent E u w = (Throws e, bump w)).
Proof.
  split.
  - intros root Hfetch. unfold fetchSingleContent, bind, await. rewrite Hfetch.
    cbv zeta. eexists _, _. split; [reflexivity |].
    split; [by apply or_string_nonempty |].
    split.
    { intros t -> Ht. rewrite (or_else_some t) by done. by apply or_string_some. }
    split.
    { intros Hno. by rewrite (or_else_none _ _ Hno). }
    split.
    { intros pre selector post text -> Hpre Hsel.
      rewrite (firstSelected_first E root pre selector post text Hpre Hsel).
      split; intros Ht.
      - by rewrite decide_False.
      - by rewrite decide_True. }
    intros Hnone. rewrite (firstSelected_none E root _ Hnone).
    by rewrite decide_True.
  - intros e Hfetch. unfold fetchSingleContent, bind, await. by rewrite Hfetch.
Qed.

Lemma fetchSingleContent_spec_witness :
  fetchSingleContent sampleEnv pageUrl emptyWorld
  = (Ok ("Example Domain", "This domain is for use in examples."), bump emptyWorld).
Proof.
  destruct (fetchSingleContent_spec sampleEnv pageUrl emptyWorld) as [H _].
  destruct (H samplePage eq_refl)
    as (pageTitle & content & Hrun & _ & _ & Htitle & _ & Hbody).
  rewrite Hrun, Htitle, Hbody; [reflexivity | | reflexivity].
  vm_compute. repeat constructor.
Defined.

(* ===================================================================== *)
(** ** The dispatcher on a handler that answers *)
(* ===================================================================== *)

(** X22.  [invoke] adds nothing to the answer of a handler: with a
    storage proxy and one of the seven action names, when the selected
    handler returns a result, [invoke] returns that same result and
    leaves the world as the handler left it. *)
Theorem invoke_returns_the_handler_answer E i w handler r w' :
  is_Some (storage i) →
  handlerFor E (action i) (input i) (config i) = Some handler →
  handler w = (Ok r, w') →
  action i ∈ knownActions ∧ invoke E i w = (Ok r, w').
Proof.
  intros [s Hs] Hhandler Hrun. split.
  - destruct (decide (action i ∈ knownActions)) as [Hin | Hout]; [exact Hin |].
    rewrite handlerFor_unknown in Hhandler by done. discriminate.
  - unfold invoke. rewrite Hs. unfold try_catch.
    rewrite dispatch_handlerFor, Hhandler, Hrun. reflexivity.
Qed.

Lemma invoke_returns_the_handler_answer_witness :
  invoke sampleEnv (invocation "deleteContent" (contentIdInput "feedfacefeedface") None)
         libraryWorld
  = (Ok notFound, (deleteContent sampleEnv (contentIdInput "feedfacefeedface") libraryWorld).2).
Proof.
  apply (invoke_returns_the_handler_answer sampleEnv
           (invocation "deleteContent" (contentIdInput "feedfacefeedface") None)
           libraryWorld
           (deleteContent sampleEnv (contentIdInput "feedfacefeedface"))).
  - by eexists.
  - reflexivity.
  - vm_compute. reflexivity.
Defined.

(* ===================================================================== *)
(** ** The answers of addInspiration *)
(* ===================================================================== *)

Section Answers.
Context (E : Env).


Lemma answers_throw {A} (P : A → Prop) e : answers P (throw e).
Proof. by intros w. Qed.










End Answers.



(* ===================================================================== *)
(** ** Adding and listing *)
(* ===================================================================== *)

Lemma resolves_no_index st :
  indexResolvesToPieces st → "index" ∉ indexList st STORAGE_KEYS.contentIndex.
Proof.
  unfold indexResolvesToPieces. intros Hall Hin.
  rewrite Forall_forall in Hall. specialize (Hall _ Hin).
  rewrite content_key_index in Hall. unfold indexList in Hin.
  destruct (st !! STORAGE_KEYS.contentIndex) as [[c|a|ids]|];
    try (by apply not_elem_of_nil in Hin).
  by destruct Hall.
Qed.

Lemma putContent_record p st id' :
  ContentPiece.id p ≠ "index" →
  id' ≠ "index" →
  putContent p st !! STORAGE_KEYS.content id'
  = if decide (id' = ContentPiece.id p) then Some (VPiece p)
    else st !! STORAGE_KEYS.content id'.
Proof.
  intros Hne Hid'. unfold putContent.
  assert (Hk : STORAGE_KEYS.contentIndex ≠ STORAGE_KEYS.content id').
  { intros Hk. symmetry in Hk. by apply content_key_is_index in Hk. }
  destruct (includes _ _); rewrite ?(lookup_insert_ne _ _ _ _ Hk).
  - destruct (decide (id' = ContentPiece.id p)) as [->|Hd].
    + apply lookup_insert_eq.
    + apply lookup_insert_ne. intros Heq. by apply content_key_inj in Heq.
  - destruct (decide (id' = ContentPiece.id p)) as [->|Hd].
    + apply lookup_insert_eq.
    + apply lookup_insert_ne. intros Heq. by apply content_key_inj in Heq.
Qed.

Lemma putContent_resolves p st :
  ContentPiece.id p ≠ "index" →
  indexResolvesToPieces st →
  indexResolvesToPieces (putContent p st).
Proof.
  intros Hne Htyped. pose proof (resolves_no_index st Htyped) as Hni.
  unfold indexResolvesToPieces. rewrite putContent_index by done.
  assert (Hold : Forall (fun id =>
                           match putContent p st !! STORAGE_KEYS.content id with
                           | Some v => is_Some (asPiece v)
                           | None => True
                           end) (indexList st STORAGE_KEYS.contentIndex)).
  { unfold indexResolvesToPieces in Htyped. rewrite Forall_forall in Htyped |- *.
    intros id' Hin. rewrite putContent_record by (done || congruence).
    destruct (decide (id' = ContentPiece.id p)); [by eexists | by apply Htyped]. }
  destruct (includes _ _); [exact Hold |].
  apply Forall_app. split; [exact Hold |]. constructor; [| constructor].
  rewrite putContent_record by done. rewrite decide_True by done. by eexists.
Qed.

Lemma loadedContent_putContent p st :
  ContentPiece.id p ≠ "index" →
  holdsArray st STORAGE_KEYS.contentIndex →
  ContentPiece.id p ∉ indexList st STORAGE_KEYS.contentIndex →
  loadedContent (putContent p st) = (loadedContent st ++ [p])%list.
Proof.
  intros Hne Harr Hfresh. unfold loadedContent.
  rewrite putContent_index by done.
  rewrite (proj2 (includes_false _ _) Hfresh).
  rewrite omap_app. cbn [omap list_omap].
  rewrite putContent_lookup by done. rewrite decide_True by done. cbn.
  f_equal. induction (indexList st STORAGE_KEYS.contentIndex) as [|id' ids IH]; [done |].
  apply not_elem_of_cons in Hfresh as [Hd Hfresh].
  cbn [omap list_omap]. rewrite putContent_lookup by done.
  rewrite decide_False by congruence.
  fold (omap (pieceAt (putContent p st)) ids). fold (omap (pieceAt st) ids).
  by rewrite IH.
Qed.

(** X24.  A page that was added is listed.  On a store that answers,
    for a URL that does not parse as a feed and a page that is fetched,
    [addInspiration] answers with the success of a single page and a
    following [listContent] without tag filter counts one piece more
    than were stored before; the piece is the last entry of the index
    and [getContent] of its id finds it. *)
Theorem addInspiration_then_listContent E args w u e root :
  reliable E →
  idsNeverReserved E →
  freshContentIds E w →
  holdsArray (store w) STORAGE_KEYS.contentIndex →
  indexResolvesToPieces (store w) →
  url args = Some u →
  parseURL E (tick w) u = Rejects e →
  fetchPage E (S (tick w)) u = Fulfils root →
  ∃ p w1 r w2,
    addInspiration E args w = (Ok (inspirationAdded "single" 1), w1)
    ∧ store w1 = putContent p (store w)
    ∧ ContentPiece.source p = u
    ∧ ContentPiece.tags p = or_array (tags args)
    ∧ indexList (store w1) STORAGE_KEYS.contentIndex
      = (indexList (store w) STORAGE_KEYS.contentIndex ++ [ContentPiece.id p])%list
    ∧ pieceAt (store w1) (ContentPiece.id p) = Some p
    ∧ listContent E (listInput None None None) w1 = (Ok r, w2)
    ∧ agentNumber "totalCount" r
      = Some (Z.of_nat (length (loadedContent (store w))) + 1)%Z.
Proof.
  intros Hrel Hres Hfresh Harr Htyped Hurl Hparse Hfetch.
  assert (Hclass : detectUrlType E u w = (Ok single, bump w)).
  { unfold detectUrlType, try_catch, bind, await. by rewrite Hparse. }
  destruct (fetchSingleContent E u (bump w)) as [page w2'] eqn:Hpage.
  assert (Hpage' : ∃ pg, page = Ok pg ∧ w2' = bump (bump w)).
  { unfold fetchSingleContent, bind, await in Hpage. cbn [tick bump] in Hpage.
    rewrite Hfetch in Hpage. cbv zeta in Hpage. cbn [ret] in Hpage.
    injection Hpage as <- <-. by eexists. }
  destruct Hpage' as (pg & -> & ->).
  set (p := pagePiece E (or_array (tags args)) (tick w + 2) u pg).
  assert (Hne : ContentPiece.id p ≠ "index") by apply Hres.
  assert (Hnotin : ContentPiece.id p ∉ indexList (store w) STORAGE_KEYS.contentIndex).
  { apply Hfresh. lia. }
  destruct (setContent_run E Hrel p (bump (bump (bump (bump w))))) as (t & _ & Hset).
  { by apply holdsArray_insert_content. }
  cbn [store bump] in Hset.
  set (w1 := {| store := putContent p (store w); tick := t |}) in *.
  assert (Hrun : addInspiration E args w = (Ok (inspirationAdded "single" 1), w1)).
  { unfold addInspiration, try_catch, addInspirationTry. rewrite Hurl.
    unfold bind at 1. cbn [required ret].
    unfold bind at 1. rewrite Hclass.
    unfold bind at 1. rewrite Hpage.
    unfold bind at 1, generateId, event.
    unfold bind at 1, currentTime, event.
    unfold bind at 1. cbn [bump tick store].
    unfold p, pagePiece in Hset.
    replace (tick w + 2) with (S (S (tick w))) in Hset by lia.
    rewrite Hset. reflexivity. }
  assert (Hidx : indexList (store w1) STORAGE_KEYS.contentIndex
                 = (indexList (store w) STORAGE_KEYS.contentIndex
                    ++ [ContentPiece.id p])%list).
  { cbn [store w1]. rewrite putContent_index by done.
    by rewrite (proj2 (includes_false _ _) Hnotin). }
  destruct (listContent_run E Hrel (listInput None None None) w1) as (w2 & Hlist & _).
  { by apply putContent_holdsArray. }
  { by apply putContent_resolves. }
  { rewrite Hidx. by destruct (indexList (store w) STORAGE_KEYS.contentIndex). }
  cbv zeta in Hlist.
  exists p, w1. eexists _, w2. split; [exact Hrun |].
  split; [reflexivity |]. split; [reflexivity |]. split; [reflexivity |].
  split; [exact Hidx |].
  split. { cbn [store w1]. rewrite putContent_lookup by done. by rewrite decide_True. }
  split; [exact Hlist |].
  unfold listing, agentNumber. cbn -[sort Z.of_nat Z.add].
  rewrite sort_length. unfold filterContent. cbn -[Z.of_nat Z.add].
  rewrite loadedContent_putContent by done.
  rewrite bool_decide_eq_false_2 by lia. rewrite length_app. cbn [length].
  f_equal. lia.
Qed.

Lemma libraryWorld_fresh : freshContentIds sampleEnv libraryWorld.
Proof.
  intros n _ Hin.
  change (indexList (store libraryWorld) STORAGE_KEYS.contentIndex)
    with [ContentPiece.id pieceA; ContentPiece.id pieceB] in Hin.
  cbn [randomHex sampleEnv] in Hin. unfold HexString.of_nat, HexString.of_N in Hin.
  apply elem_of_cons in Hin as [Hin | Hin];
    [| apply elem_of_cons in Hin as [Hin | Hin]; [| by apply not_elem_of_nil in Hin]];
    destruct (N.of_nat n); discriminate.
Qed.

Lemma addInspiration_then_listContent_witness :
  ∃ w1 r w2,
    addInspiration sampleEnv (addInput pageUrl (Some ["test"])) libraryWorld
    = (Ok (inspirationAdded "single" 1), w1)
    ∧ listContent sampleEnv (listInput None None None) w1 = (Ok r, w2)
    ∧ agentNumber "totalCount" r = Some 3%Z.
Proof.
  destruct (addInspiration_then_listContent sampleEnv (addInput pageUrl (Some ["test"]))
              libraryWorld pageUrl (ErrorExn "Status code 404") samplePage
              sampleEnv_reliable sampleEnv_idsNeverReserved libraryWorld_fresh
              libraryWorld_holdsArray libraryWorld_resolves eq_refl eq_refl eq_refl)
    as (p & w1 & r & w2 & Hadd & _ & _ & _ & _ & _ & Hlist & Htotal).
  exists w1, r, w2. split; [exact Hadd |]. split; [exact Hlist |].
  rewrite Htotal. vm_compute. reflexivity.
Defined.

(* ===================================================================== *)
(** ** The mock storage implements the store *)
(* ===================================================================== *)

Section MockStorageFacts.
Context {V : Type}.
Implicit Types (data : MockStorage.t V) (key : string).

Lemma mock_get_contents data key : MockStorage.get data key = contents data !! key.
Proof.
  unfold contents. induction data as [|[k v] data IH]; cbn [MockStorage.get].
  - by rewrite list_to_map_nil, lookup_empty.
  - rewrite list_to_map_cons. destruct (decide (k = key)) as [->|Hne].
    + by rewrite lookup_insert_eq.
    + by rewrite lookup_insert_ne.
Qed.

Lemma mock_set_contents data key v :
  contents (MockStorage.set data key v) = <[key := v]> (contents data).
Proof.
  unfold contents. induction data as [|[k v0] data IH]; cbn [MockStorage.set].
  - reflexivity.
  - destruct (decide (k = key)) as [->|Hne]; rewrite !list_to_map_cons.
    + by rewrite insert_insert_eq.
    + rewrite IH. by apply insert_insert_ne.
Qed.

Lemma mock_delete_contents data key :
  contents (MockStorage.delete data key).2 = delete key (contents data).
Proof.
  unfold contents, MockStorage.delete. cbn [snd].
  induction data as [|[k v] data IH].
  { change (list_to_map (M:=gmap string V) []) with (∅ : gmap string V).
    by rewrite delete_empty. }
  rewrite filter_cons. cbn [fst]. rewrite list_to_map_cons.
  destruct (decide (k ≠ key)) as [Hne|Heq].
  - rewrite list_to_map_cons, IH. by rewrite delete_insert_ne.
  - apply dec_stable in Heq as ->. by rewrite IH, delete_insert_eq.
Qed.

Lemma mock_set_keys data key v :
  (MockStorage.set data key v).*1
  = if bool_decide (is_Some (MockStorage.get data key)) then data.*1
    else (data.*1 ++ [key])%list.
Proof.
  induction data as [|[k v0] data IH]; cbn [MockStorage.set MockStorage.get].
  - by rewrite bool_decide_eq_false_2 by (intros [? ?]; discriminate).
  - destruct (decide (k = key)) as [->|Hne].
    + by rewrite bool_decide_eq_true_2 by eauto.
    + cbn [fmap list_fmap fst]. fold (fmap (M:=Datatypes.list) (@fst string V)).
      rewrite IH. by destruct (bool_decide _).
Qed.

Lemma mock_get_keys data key : is_Some (MockStorage.get data key) ↔ key ∈ data.*1.
Proof.
  induction data as [|[k v] data IH]; cbn [MockStorage.get].
  - split; [intros [? ?]; discriminate | intros H; by apply not_elem_of_nil in H].
  - cbn. rewrite elem_of_cons. destruct (decide (k = key)) as [->|Hne].
    + split; [by left | eauto].
    + rewrite IH. split; [by right | intros [-> | H]; [done | exact H]].
Qed.

Lemma mock_set_unique data key v : uniqueKeys data → uniqueKeys (MockStorage.set data key v).
Proof.
  unfold uniqueKeys. intros Hnd. rewrite mock_set_keys.
  destruct (bool_decide _) eqn:Hb; [exact Hnd |].
  apply bool_decide_eq_false in Hb. rewrite mock_get_keys in Hb.
  apply NoDup_app. split; [exact Hnd |]. split; [| apply NoDup_singleton].
  intros x Hx Hx'. apply list_elem_of_singleton in Hx'. congruence.
Qed.

Lemma mock_delete_keys data key :
  (MockStorage.delete data key).2.*1 = filter (fun k => k ≠ key) data.*1.
Proof.
  unfold MockStorage.delete. cbn [snd].
  induction data as [|[k v] data IH]; [done |].
  cbn [fmap list_fmap fst]. rewrite !filter_cons. cbn [fst].
  destruct (decide (k ≠ key)); cbn [fmap list_fmap fst]; by rewrite <- IH.
Qed.

Lemma mock_delete_unique data key :
  uniqueKeys data → uniqueKeys (MockStorage.delete data key).2.
Proof. unfold uniqueKeys. rewrite mock_delete_keys. apply NoDup_filter. Qed.

End MockStorageFacts.

(** X25.  The mock storage of the local test script implements the
    store of the handlers: a mock storage stands for the map of its
    entries, the empty one for the empty store, and on a store that
    answers, [get], [set] and [delete] of the storage proxy return what
    the mock returns and lead to the store the mock then stands for;
    [set] and [delete] keep the keys of the mock unique. *)
Theorem MockStorage_implements_the_store E (data : MockStorage.t value) key v w :
  reliable E →
  store w = contents data →
  contents (@MockStorage.empty value) = ∅
  ∧ storage_get E key w = (Ok (MockStorage.get data key), bump w)
  ∧ (∃ w', storage_set E key v w = (Ok tt, w')
           ∧ store w' = contents (MockStorage.set data key v))
  ∧ (∃ w', storage_delete E key w = (Ok (MockStorage.delete data key).1, w')
           ∧ store w' = contents (MockStorage.delete data key).2)
  ∧ (uniqueKeys data →
     uniqueKeys (MockStorage.set data key v)
     ∧ uniqueKeys (MockStorage.delete data key).2).
Proof.
  intros Hrel Hst. split; [reflexivity |]. split.
  { rewrite storage_get_run by done. by rewrite Hst, mock_get_contents. }
  split.
  { rewrite storage_set_run by done. eexists. split; [reflexivity |].
    cbn [store]. by rewrite Hst, mock_set_contents. }
  split.
  { rewrite storage_delete_run by done. eexists. split.
    - unfold MockStorage.delete. cbn [fst]. by rewrite Hst, mock_get_contents.
    - cbn [store]. by rewrite ?Hst, mock_delete_contents. }
  intros Hu. split; [by apply mock_set_unique | by apply mock_delete_unique].
Qed.

Lemma MockStorage_implements_the_store_witness :
  ∃ w',
    storage_set sampleEnv (STORAGE_KEYS.content (ContentPiece.id pieceA)) (VPiece pieceA)
                emptyWorld = (Ok tt, w')
    ∧ store w'
      = contents [(STORAGE_KEYS.content (ContentPiece.id pieceA), VPiece pieceA)].
Proof.
  destruct (MockStorage_implements_the_store sampleEnv MockStorage.empty
              (STORAGE_KEYS.content (ContentPiece.id pieceA)) (VPiece pieceA) emptyWorld
              sampleEnv_reliable eq_refl) as (_ & _ & (w' & Hrun & Hst) & _).
  exists w'. split; [exact Hrun | exact Hst].
Defined.

Section MockStorageBulk.
Context {V : Type}.
Implicit Types (data : MockStorage.t V) (key : string).





End MockStorageBulk.

Lemma content_key_prefix id : String.prefix "content:" (STORAGE_KEYS.content id) = true.
Proof. cbn. by destruct id. Qed.


